(** * Knock-out barrier swaption under the LIBOR market model

    A shallow embedding of the notebook [Swaption.ipynb]: the swap-rate
    function, the two barrier projectors, the correlation set-up and the
    Monte Carlo path loop, followed by the properties established about them.

    Conventions of the embedding.
    - A numpy vector of floats is a [list R]; a matrix is the list of its
      rows.  Floating-point numbers are read as the real numbers they stand
      for, so every statement below is one of exact real arithmetic.
    - The numerical routines the notebook imports from scipy
      ([minimize] with L-BFGS-B and with SLSQP, [cholesky]) are oracles: they
      are arguments of the functions that call them, and what is known of
      them is said in hypotheses.
    - The draws of [np.random] are read from an environment indexed by the
      path and the step at which they are made.
    - A Python exception is a value of [Exn]; code that may raise returns
      [Exn + A].
    - The functions are read on the domain the notebook uses them on: a
      tenor delta > 0, a barrier Rup > 0 and a curve of N >= 1 positive
      rates.  Outside it Python and numpy part from real arithmetic
      ([1.0 / delta] raises ZeroDivisionError at delta = 0, [np.log] gives
      nan or -inf at Rup <= 0, and 0/0 is nan where it is 0 here), and the
      embedding does not follow them there. *)

From Stdlib Require Import Reals Lra Lia List String Bool Arith Sorted.
Import ListNotations.
Open Scope R_scope.

(** * The notebook *)

(** ** Vectors as numpy has them *)

Module Vec.

Definition vsum (l : list R) : R := fold_right Rplus 0 l.

Definition vprod (l : list R) : R := fold_right Rmult 1 l.

(** [np.cumprod]: running products, carried in an accumulator. *)
Fixpoint cumprod_from (acc : R) (l : list R) : list R :=
  match l with
  | [] => []
  | a :: t => (acc * a) :: cumprod_from (acc * a) t
  end.

Definition cumprod (l : list R) : list R := cumprod_from 1 l.

(** Elementwise binary operations; numpy asks for equal shapes, the
    shorter list decides here. *)
Fixpoint zipWith (f : R -> R -> R) (a b : list R) : list R :=
  match a, b with
  | x :: a', y :: b' => f x y :: zipWith f a' b'
  | _, _ => []
  end.

Definition vadd := zipWith Rplus.
Definition vsub := zipWith Rminus.
Definition vmul := zipWith Rmult.
Definition vscale (c : R) (l : list R) : list R := map (Rmult c) l.

Definition dot (a b : list R) : R := vsum (vmul a b).

(** [np.sum(v**2)] and [np.linalg.norm]. *)
Definition sumsq (l : list R) : R := vsum (map (fun t => t * t) l).
Definition norm (l : list R) : R := sqrt (sumsq l).

(** [np.max]; the notebook only takes it of vectors of length N >= 1. *)
Definition vmax (l : list R) : R :=
  match l with
  | [] => 0
  | a :: t => fold_left Rmax t a
  end.

(** [np.mean]. *)
Definition mean (l : list R) : R := vsum l / INR (List.length l).

End Vec.
Import Vec.

(** ** 1. Swap rate function *)

Definition one_plus (delta : R) (L : list R) : list R :=
  map (fun l => 1 + delta * l) L.

(** Formula (6.2).  For delta > 0 and a non-empty [logL] no divisor
    vanishes; at delta = 0 or on an empty vector numpy returns nan. *)
Definition R_swap (logL : list R) (delta : R) : R :=
  let L := map exp logL in
  let discount_prod := vprod (one_plus delta L) in
  let numer := 1 - 1 / discount_prod in
  let denom := delta * vsum (map (fun c => 1 / c) (cumprod (one_plus delta L))) in
  numer / denom.

(** The discount factors P(T0,T_{j+1}) of the final cell of the path loop:
    [np.cumprod(1.0/(1 + delta * L_end))]. *)
Definition discount_curve (logL : list R) (delta : R) : list R :=
  cumprod (map (fun l => 1 / (1 + delta * l)) (map exp logL)).

(** ** 2. Projection onto the barrier surface *)

(** What a Python [raise] carries: the class and the message string. *)
Inductive Exn : Type :=
| RuntimeError (msg : string)
| IndexError (msg : string).

(** scipy's [OptimizeResult], the fields the notebook reads. *)
Record OptimizeResult : Type := mkResult {
  res_success : bool;
  res_x : list R;
  res_message : string
}.

(** [minimize(fun, x0, method='L-BFGS-B')]. *)
Definition Lbfgsb : Type := (list R -> R) -> list R -> OptimizeResult.

(** [minimize(fun, x0, constraints={'type':'eq','fun':c}, method='SLSQP')]. *)
Definition Slsqp : Type :=
  (list R -> R) -> (list R -> R) -> list R -> OptimizeResult.

(** General form: equality-constrained least squares. *)
Definition project_to_barrier (slsqp : Slsqp) (x : list R) (delta Rup : R)
  : Exn + list R :=
  let cons := fun logL => ln (R_swap logL delta) - ln Rup in
  let res := slsqp (fun logL => sumsq (vsub logL x)) cons x in
  if res_success res
  then inr (res_x res)
  else inl (RuntimeError ("Projection failed: " ++ res_message res)).

(** [np.cumprod(one_plus[::-1])[::-1]]: the products of the suffixes. *)
Definition revcp (w : list R) : list R := rev (cumprod (rev w)).

(** The coordinate ln L[0] as the notebook computes it from the tail
    y = logL[1..N-1] (the same lines stand in [objective] and in the final
    reconstruction). *)
Definition logL0_of_tail (delta Rup : R) (y : list R) : R :=
  let Lpi_tail := map exp y in
  let w := one_plus delta Lpi_tail in
  let prods := revcp w in
  let sum_term := 1 + vsum prods in
  let numerator := Rup * sum_term + 1 in
  let denominator := vprod w in
  ln (numerator / denominator) - 1 / delta.

(** [logLpi = np.empty(N); logLpi[0] = logL0; logLpi[1:] = y]. *)
Definition logLpi_of_tail (delta Rup : R) (y : list R) : list R :=
  logL0_of_tail delta Rup y :: y.

Definition objective (x : list R) (delta Rup : R) (y : list R) : R :=
  sumsq (vsub (logLpi_of_tail delta Rup y) x).

(** Fast form: ln L[0] eliminated, L-BFGS-B over the tail.  On an empty [x]
    the write [logLpi[0] = logL0] is out of bounds.  The division
    [1.0 / delta] is read for delta <> 0 (at delta = 0 Python raises
    ZeroDivisionError there). *)
Definition project_to_barrier2 (lbfgsb : Lbfgsb) (x : list R) (delta Rup : R)
  : Exn + list R :=
  match x with
  | [] => inl (IndexError "index 0 is out of bounds for axis 0 with size 0")
  | _ :: y0 =>
      let res := lbfgsb (objective x delta Rup) y0 in
      if res_success res
      then inr (logLpi_of_tail delta Rup (res_x res))
      else inl (RuntimeError ("Projection2 failed: " ++ res_message res))
  end.

(** Equation (6.13) as the specification words it: the subtraction of
    1/delta stands inside the logarithm.  Kept beside [logL0_of_tail] to
    compare the two. *)
Definition logL0_closed_form (delta Rup : R) (y : list R) : R :=
  let w := one_plus delta (map exp y) in
  ln ((Rup * (1 + vsum (revcp w)) + 1) / vprod w - 1 / delta).


(** ** 3. Model set-up *)

(** The notebook's parameter cell. *)
Record Params : Type := mkParams {
  N : nat;        (* number of forward rates *)
  T0 : R;         (* option maturity *)
  delta : R;      (* tenor *)
  M : nat;        (* number of time steps *)
  K : R;          (* strike *)
  Rup : R;        (* barrier *)
  L0 : list R;    (* initial forward curve *)
  sigma : list R; (* volatilities *)
  beta : R        (* correlation decay *)
}.

Definition h (c : Params) : R := T0 c / INR (M c).

(** Matrices are lists of rows. *)
Module Mat.

Definition matrix : Type := list (list R).

(** [A @ v] and [A.dot(v)]. *)
Definition matvec (A : matrix) (v : list R) : list R :=
  map (fun row => dot row v) A.

(** [np.outer(a, b)]. *)
Definition outer (a b : list R) : matrix :=
  map (fun ai => map (fun bj => ai * bj) b) a.

(** Elementwise product of two matrices. *)
Fixpoint hadamard (A B : matrix) : matrix :=
  match A, B with
  | r :: A', s :: B' => vmul r s :: hadamard A' B'
  | _, _ => []
  end.

(** [np.tril]: row i keeps its entries of column j <= i, the others are 0. *)
Fixpoint tril_from (i : nat) (A : matrix) : matrix :=
  match A with
  | [] => []
  | r :: A' =>
      (firstn (S i) r ++ repeat 0 (List.length r - S i)) :: tril_from (S i) A'
  end.

Definition tril (A : matrix) : matrix := tril_from 0 A.

Definition entry (A : matrix) (i j : nat) : R := nth j (nth i A []) 0.

Definition column (A : matrix) (j : nat) : list R :=
  map (fun row => nth j row 0) A.

(** The transpose of a matrix with [n] columns. *)
Definition transpose (n : nat) (A : matrix) : matrix :=
  map (column A) (seq 0 n).

End Mat.
Import Mat.

(** [np.arange(n)], as reals. *)
Definition arange (n : nat) : list R := map INR (seq 0 n).

(** [times = np.arange(N) * delta + T0 - N * delta]. *)
Definition times (c : Params) : list R :=
  map (fun i => i * delta c + T0 c - INR (N c) * delta c) (arange (N c)).

(** [rho = np.exp(-beta * np.abs(times[:, None] - times[None, :]))]. *)
Definition rho (c : Params) : matrix :=
  map (fun ti => map (fun tj => exp (- beta c * Rabs (ti - tj))) (times c))
      (times c).

(** [U = cholesky(rho, lower=False)]: scipy's routine is an oracle. *)
Definition Cholesky : Type := matrix -> matrix.

Definition U_of (cholesky : Cholesky) (c : Params) : matrix := cholesky (rho c).

(** What scipy documents of [cholesky(a, lower=False)]: the factor is upper
    triangular with a positive diagonal, and a = U^T U. *)
Definition upper_triangular (n : nat) (A : matrix) : Prop :=
  forall i j, (j < i < n)%nat -> entry A i j = 0.

Definition cholesky_upper (n : nat) (a A : matrix) : Prop :=
  List.length A = n /\ Forall (fun row => List.length row = n) A /\
  upper_triangular n A /\
  (forall i, (i < n)%nat -> 0 < entry A i i) /\
  (forall i j, (i < n)%nat -> (j < n)%nat ->
     dot (column A i) (column A j) = entry a i j).

(** [P0_T0 = 1.0 / (1 + delta * L0[0])]. *)
Definition P0_T0 (c : Params) : R := 1 / (1 + delta c * nth 0 (L0 c) 0).

(** [full_mat = rho * np.outer(sigma, sigma)]; [drift_mat = np.tril(full_mat)]. *)
Definition full_mat (c : Params) : matrix :=
  hadamard (rho c) (outer (sigma c) (sigma c)).

Definition drift_mat (c : Params) : matrix := tril (full_mat c).

(** ** 4. Monte Carlo simulation *)

(** The result arrays of the cell that precedes the path loops. *)
Record Store : Type := mkStore {
  payoffs : list R;
  exit_times : list R;
  discount_sums : list R;
  prices : list R
}.

Definition zeros (n : nat) : list R := repeat 0 n.

Definition init_store (n_paths : nat) : Store :=
  mkStore (zeros n_paths) (zeros n_paths) (zeros n_paths) (zeros n_paths).

(** [a[p] = v].  The arrays of the notebook all have [n_paths] entries and
    p ranges over [range(n_paths)], so the index is in range; out of range
    (where numpy raises) the list is left as it is. *)
Fixpoint set_at (p : nat) (v : R) (a : list R) : list R :=
  match a, p with
  | [], _ => []
  | _ :: t, O => v :: t
  | b :: t, S p' => b :: set_at p' v t
  end.

(** What [np.random] hands out: the vector of +/-1 draws and the uniform
    draw of path [p] at step [k]. *)
Record Draws : Type := mkDraws {
  xi : nat -> nat -> list R;
  rand : nat -> nat -> R
}.

Definition sigma_max (c : Params) : R := vmax (sigma c).

(** Equation (6.7). *)
Definition coarse_bound (c : Params) : R :=
  (sigma_max c) ^ 2 * h c * INR (N c)
  - (1 / 2) * (sigma_max c) ^ 2 * h c
  + sigma_max c * sqrt (h c * INR (N c)).

(** [v = delta * L / (1 + delta * L)]. *)
Definition v_of (c : Params) (L : list R) : list R :=
  map (fun l => delta c * l / (1 + delta c * l)) L.

(** [drift_vec = drift_mat.dot(v) * h - 0.5 * sigma**2 * h]. *)
Definition drift_vec (c : Params) (logL : list R) : list R :=
  let L := map exp logL in
  let v := v_of c L in
  vsub (map (fun a => a * h c) (matvec (drift_mat c) v))
       (map (fun s => (1 / 2) * s ^ 2 * h c) (sigma c)).

(** [diffusion = sigma * np.sqrt(h) * (U @ xi)]. *)
Definition diffusion (c : Params) (U : matrix) (xi_k : list R) : list R :=
  vmul (map (fun s => s * sqrt (h c)) (sigma c)) (matvec U xi_k).

(** [logL += drift_vec + diffusion]. *)
Definition euler (logL dv diff : list R) : list R := vadd logL (vadd dv diff).

(** The worst-case perturbed curve of the fine check. *)
Definition drift_worst (c : Params) : list R :=
  zipWith (fun i s => (i + 1) * s * sigma_max c * h c) (arange (N c)) (sigma c).

Definition diff_worst (c : Params) : list R :=
  zipWith (fun i s => s * sqrt ((INR (N c) - i) * h c)) (arange (N c)) (sigma c).

Definition L_pert (c : Params) (L : list R) : list R :=
  vmul L (map (fun t => 1 + t) (vadd (drift_worst c) (diff_worst c))).

Definition coarse_safe (c : Params) (logL : list R) : Prop :=
  vmax logL + coarse_bound c < ln (Rup c).

Definition fine_safe (c : Params) (logL : list R) : Prop :=
  R_swap (map ln (L_pert c (map exp logL))) (delta c) < Rup c.

(** [lambda_k = np.sqrt(N) * coarse_bound]. *)
Definition lambda_k (c : Params) : R := sqrt (INR (N c)) * coarse_bound c.

(** [dist = np.linalg.norm(logL_pi - logL)]. *)
Definition dist (logL_pi logL : list R) : R := norm (vsub logL_pi logL).

(** [logL += (lambda_k / dist) * (logL_pi - logL)]. *)
Definition pull (c : Params) (logL_pi logL : list R) : list R :=
  vadd logL (vscale (lambda_k c / dist logL_pi logL) (vsub logL_pi logL)).

(** How one turn of the [for k in range(M)] body ends. *)
Inductive Step : Type :=
| Continue (logL : list R)   (* falls through or [continue]s with the new state *)
| Break (logL : list R)      (* knocked out: [break] *)
| Raise (e : Exn).           (* the projector raised *)

(** The state a path ends in: [logL], [knocked_out], [exit_step]. *)
Record PathEnd : Type := mkPathEnd {
  end_logL : list R;
  knocked_out : bool;
  exit_step : nat
}.

Section PathLoop.

Variable c : Params.
Variable U : matrix.
Variable lbfgsb : Lbfgsb.
Variable rnd : Draws.

(** The body of the first path loop (the weak order 1 scheme) for path [p]
    at step [k].  [np.log(Rup)] is read for Rup > 0. *)
Definition step (p k : nat) (logL : list R) : Step :=
  let dv := drift_vec c logL in
  if Rlt_dec (vmax logL + coarse_bound c) (ln (Rup c)) then
    Continue (euler logL dv (diffusion c U (xi rnd p k)))
  else if Rlt_dec (R_swap (map ln (L_pert c (map exp logL))) (delta c)) (Rup c) then
    Continue (euler logL dv (diffusion c U (xi rnd p k)))
  else
    match project_to_barrier2 lbfgsb logL (delta c) (Rup c) with
    | inl e => Raise e
    | inr logL_pi =>
        if Rlt_dec (rand rnd p k)
                   (lambda_k c / (dist logL_pi logL + lambda_k c))
        then Break logL
        else Continue (euler (pull c logL_pi logL) dv
                             (diffusion c U (xi rnd p k)))
    end.

(** The body of the second path loop (projection and stop, weak order 1/2). *)
Definition step_half (p k : nat) (logL : list R) : Step :=
  let dv := drift_vec c logL in
  if Rlt_dec (vmax logL + coarse_bound c) (ln (Rup c)) then
    Continue (euler logL dv (diffusion c U (xi rnd p k)))
  else if Rlt_dec (R_swap (map ln (L_pert c (map exp logL))) (delta c)) (Rup c) then
    Continue (euler logL dv (diffusion c U (xi rnd p k)))
  else
    match project_to_barrier2 lbfgsb logL (delta c) (Rup c) with
    | inl e => Raise e
    | inr logL_pi => Break logL_pi
    end.

(** [for k in range(M)]: [todo] turns are left, the next one is turn [k].
    An exception leaves the loop with the step at which it was raised. *)
Fixpoint path_from (body : nat -> list R -> Step) (todo k : nat)
    (logL : list R) : (nat * Exn) + PathEnd :=
  match todo with
  | O => inr (mkPathEnd logL false (M c))
  | S todo' =>
      match body k logL with
      | Continue logL' => path_from body todo' (S k) logL'
      | Break logL' => inr (mkPathEnd logL' true k)
      | Raise e => inl (k, e)
      end
  end.

(** One path: [logL = np.log(L0)], then the loop over the steps. *)
Definition run_path (body : nat -> nat -> list R -> Step) (p : nat)
  : (nat * Exn) + PathEnd :=
  path_from (body p) (M c) 0 (map ln (L0 c)).

(** The lines after the step loop, which write the path's results. *)
Definition payoff (logL : list R) : R :=
  delta c * Rmax (R_swap logL (delta c) - K c) 0.

Definition discount_sum (logL : list R) : R := vsum (discount_curve logL (delta c)).

Definition record_path (p : nat) (e : PathEnd) (s : Store) : Store :=
  let exit_times' := set_at p (INR (exit_step e) * h c) (exit_times s) in
  if knocked_out e then
    mkStore (payoffs s) exit_times' (discount_sums s) (prices s)
  else
    let pay := payoff (end_logL e) in
    let dsum := discount_sum (end_logL e) in
    mkStore (set_at p pay (payoffs s)) exit_times'
            (set_at p dsum (discount_sums s))
            (set_at p (P0_T0 c * (dsum * pay)) (prices s)).

(** [for p in range(n_paths)]: [todo] paths are left, the next one is [p].
    An exception ends the cell; it is returned with the path and the step
    at which it was raised. *)
Fixpoint paths_from (body : nat -> nat -> list R -> Step) (todo p : nat)
    (s : Store) : (nat * nat * Exn) + Store :=
  match todo with
  | O => inr s
  | S todo' =>
      match run_path body p with
      | inl (k, e) => inl (p, k, e)
      | inr pe => paths_from body todo' (S p) (record_path p pe s)
      end
  end.

Definition mc_loop (body : nat -> nat -> list R -> Step) (n_paths : nat)
    (s : Store) : (nat * nat * Exn) + Store :=
  paths_from body n_paths 0 s.

End PathLoop.

(** What Python shows of an exception that ended a cell: the exception. *)
Definition raised {A : Type} (r : (nat * nat * Exn) + A) : option Exn :=
  match r with
  | inl (_, _, e) => Some e
  | inr _ => None
  end.

(** The result cell: [price = np.mean(prices)],
    [mean_exit_time = np.mean(exit_times)]. *)
Definition price (s : Store) : R := mean (prices s).
Definition mean_exit_time (s : Store) : R := mean (exit_times s).

(** The notebook run from top to bottom: the arrays are created once, the
    first loop fills them, and the second loop (with later draws of the
    generator) writes into the same arrays. *)
Definition first_run (c : Params) (U : matrix) (lbfgsb : Lbfgsb)
    (rnd : Draws) (n_paths : nat) : (nat * nat * Exn) + Store :=
  mc_loop c (step c U lbfgsb rnd) n_paths (init_store n_paths).

Definition second_run (c : Params) (U : matrix) (lbfgsb : Lbfgsb)
    (rnd1 rnd2 : Draws) (n_paths : nat) : (nat * nat * Exn) + Store :=
  match first_run c U lbfgsb rnd1 n_paths with
  | inl err => inl err
  | inr s1 => mc_loop c (step_half c U lbfgsb rnd2) n_paths s1
  end.

(** ** Quantities named by the specification *)

(** The drift-coupling matrix as the specification words it: rho_ij *
    sigma_i * sigma_j for i >= j, else 0. *)
Definition DriftMatrix (c : Params) (i j : nat) : R :=
  if (j <=? i)%nat
  then entry (rho c) i j * (nth i (sigma c) 0 * nth j (sigma c) 0)
  else 0.

(** v_j = delta L_j / (1 + delta L_j) at the state [logL]. *)
Definition v_at (c : Params) (logL : list R) (j : nat) : R :=
  delta c * exp (nth j logL 0) / (1 + delta c * exp (nth j logL 0)).

(** What the specification has a path contribute to the price. *)
Definition contribution (c : Params) (e : PathEnd) : R :=
  if knocked_out e then 0
  else P0_T0 c * (discount_sum c (end_logL e) * payoff c (end_logL e)).

(** The invariants the specification puts on the parameters, the barrier
    condition apart. *)
Definition valid_market (c : Params) : Prop :=
  (1 <= N c)%nat /\ (1 <= M c)%nat /\ (0 < T0 c) /\ (0 < delta c) /\
  (List.length (L0 c) = N c) /\ Forall (fun l => 0 < l) (L0 c) /\
  (List.length (sigma c) = N c) /\ Forall (fun s => 0 <= s) (sigma c) /\
  (0 < Rup c).

(** The barrier is not breached at t = 0. *)
Definition valid_params (c : Params) : Prop :=
  valid_market c /\ R_swap (map ln (L0 c)) (delta c) < Rup c.


(** Every volatility is zero. *)
Definition zero_vol (c : Params) : Prop := forall i, nth i (sigma c) 0 = 0.

(** The arrays of a store all have [n] entries. *)
Definition store_ok (n : nat) (s : Store) : Prop :=
  List.length (payoffs s) = n /\ List.length (exit_times s) = n /\
  List.length (discount_sums s) = n /\ List.length (prices s) = n.

(** A square matrix of size [n]. *)
Definition square (n : nat) (A : matrix) : Prop :=
  List.length A = n /\ Forall (fun row => List.length row = n) A.

(** The state at the start of turn [k] of the step loop, while the path is
    still evolving. *)
Fixpoint state_at (body : nat -> list R -> Step) (k : nat) (logL0 : list R)
  : option (list R) :=
  match k with
  | O => Some logL0
  | S k' =>
      match state_at body k' logL0 with
      | Some logL =>
          match body k' logL with
          | Continue logL' => Some logL'
          | _ => None
          end
      | None => None
      end
  end.

(** ** Moments of the +/-1 shocks *)

(** The 2^n equiprobable outcomes of [np.random.choice([-1,1], size=n)]. *)
Fixpoint sign_vectors (n : nat) : list (list R) :=
  match n with
  | O => [[]]
  | S n' => map (cons (-1)) (sign_vectors n') ++ map (cons 1) (sign_vectors n')
  end.

Definition expectation (n : nat) (f : list R -> R) : R :=
  vsum (map f (sign_vectors n)) / 2 ^ n.

Definition covariance (n : nat) (f g : list R -> R) : R :=
  expectation n (fun x => f x * g x) - expectation n f * expectation n g.

(** The covariance of entries [i] and [j] of the diffusion increment of the
    path loop. *)
Definition diffusion_cov (c : Params) (U : matrix) (i j : nat) : R :=
  covariance (N c) (fun x => nth i (diffusion c U x) 0)
                   (fun x => nth j (diffusion c U x) 0).

(** The diffusion increment as the specification words it, with U^T. *)
Definition diffusion_spec (c : Params) (U : matrix) (xi_k : list R) : list R :=
  vmul (map (fun s => s * sqrt (h c)) (sigma c))
       (matvec (transpose (N c) U) xi_k).

Definition diffusion_spec_cov (c : Params) (U : matrix) (i j : nat) : R :=
  covariance (N c) (fun x => nth i (diffusion_spec c U x) 0)
                   (fun x => nth j (diffusion_spec c U x) 0).

(** ** Concrete inputs *)

(** The notebook's parameter values. *)
Definition notebook_params : Params :=
  mkParams 10 10 1 100 (1 / 100) (3 / 40)
           (repeat (1 / 20) 10) (repeat (1 / 10) 10) (1 / 10).

(** An L-BFGS-B that reports convergence at its starting point, and one
    that reports failure. *)
Definition lbfgsb_stay : Lbfgsb :=
  fun _ y0 => mkResult true y0 "CONVERGENCE: NORM_OF_PROJECTED_GRADIENT_<=_PGTOL".

Definition lbfgsb_fail : Lbfgsb :=
  fun _ y0 => mkResult false y0 "ABNORMAL_TERMINATION_IN_LNSRCH".

(** The exception the fast projector raises on [lbfgsb_fail]. *)
Definition projection2_failed : Exn :=
  RuntimeError "Projection2 failed: ABNORMAL_TERMINATION_IN_LNSRCH".

(** An SLSQP that reports success at the flat curve of rate 0.075, a point
    of the barrier surface. *)
Definition slsqp_flat : Slsqp :=
  fun _ _ _ =>
    mkResult true [ln (3 / 40); ln (3 / 40)]
             "Optimization terminated successfully".

(** Draws: every shock +1 with the uniform value 0.9, or with the uniform
    value 0; path 0 sent down and every other path up. *)
Definition all_up (n : nat) : Draws :=
  mkDraws (fun _ _ => repeat 1 n) (fun _ _ => 9 / 10).

Definition all_up_u0 (n : nat) : Draws :=
  mkDraws (fun _ _ => repeat 1 n) (fun _ _ => 0).

Definition down_then_up : Draws :=
  mkDraws (fun p _ => if (p =? 0)%nat then [-1; -1] else [1; 1])
          (fun _ _ => 9 / 10).

(** The upper Cholesky factor of the 2x2 correlation matrix with
    off-diagonal entry [r]. *)
Definition U2 (r : R) : matrix := [[1; r]; [0; sqrt (1 - r * r)]].

(** A small market close to its barrier with a zero strike: two forward
    rates, one time step (h = 1), volatilities 0.5. *)
Definition hot_params : Params :=
  mkParams 2 1 1 1 0 (3 / 40) [1 / 20; 1 / 20] [1 / 2; 1 / 2] (1 / 10).

Definition r_hot : R := exp (- (1 / 10)).

(** Its initial state; what the fast projector returns there when L-BFGS-B
    settles on the tail [y] (on its start for [hot_logL_pi]); the state of
    the first loop's path after its step 0. *)
Definition hot_logL0 : list R := [ln (1 / 20); ln (1 / 20)].

Definition hot_pi (y : R) : list R := logLpi_of_tail 1 (3 / 40) [y].


Definition hot_next (U : matrix) (y : R) : list R :=
  euler (pull hot_params (hot_pi y) hot_logL0)
        (drift_vec hot_params hot_logL0)
        (diffusion hot_params U (repeat 1 2)).

(** The market of [hot_params] with the barrier 0.04 below the initial swap
    rate 0.05: a configuration the specification calls invalid. *)
Definition breached_params : Params :=
  mkParams 2 1 1 1 0 (1 / 25) [1 / 20; 1 / 20] [1 / 2; 1 / 2] (1 / 10).

(** A market two steps away from trouble: N = 2, h = 1/2, volatilities
    0.2, barrier 0.065, correlation decay 10. *)
Definition warm_params : Params :=
  mkParams 2 1 1 2 (1 / 100) (13 / 200) [1 / 20; 1 / 20] [1 / 5; 1 / 5] 10.

Definition r_warm : R := exp (- (10)).

(** The state of a path of [warm_params] after step 0, on the draw
    (s, s). *)
Definition warm_next (s : R) : list R :=
  [ln (1 / 20)
   + (1 / 1050 - 1 / 100 + 1 / 5 * sqrt (1 / 2) * (s + r_warm * s));
   ln (1 / 20)
   + ((1 + r_warm) / 1050 - 1 / 100
      + 1 / 5 * sqrt (1 / 2) * (sqrt (1 - r_warm * r_warm) * s))].

(** ** 6. Analytic approximation (swap market model) *)

Module Analytic.

(** [R0 = R_swap(np.log(L0), delta)]. *)
Definition R0 (c : Params) : R := R_swap (map ln (L0 c)) (delta c).

(** [P0_T = np.concatenate(([1.0], np.cumprod(1.0 / (1 + delta * L0))))]. *)
Definition P0_T (c : Params) : list R :=
  1 :: cumprod (map (fun l => 1 / (1 + delta c * l)) (L0 c)).

(** [annuity = np.sum(P0_T[1:])]. *)
Definition annuity (c : Params) : R := vsum (tl (P0_T c)).

(** [prefix = np.cumprod(1 + delta * L0)]. *)
Definition prefix (c : Params) : list R := cumprod (one_plus (delta c) (L0 c)).

(** [denom_w = delta * np.sum(1.0 / prefix)]. *)
Definition denom_w (c : Params) : R :=
  delta c * vsum (map (fun q => 1 / q) (prefix c)).

(** [weights = (1.0 - 1.0 / prefix) / denom_w]. *)
Definition weights (c : Params) : list R :=
  map (fun q => (1 - 1 / q) / denom_w c) (prefix c).

(** [integrals = np.outer(sigma, sigma) * T0]. *)
Definition integrals (c : Params) : matrix :=
  map (map (fun a => a * T0 c)) (outer (sigma c) (sigma c)).

(** [wL = weights * L0]. *)
Definition wL (c : Params) : list R := vmul (weights c) (L0 c).

(** [num = np.outer(wL, wL) * rho * integrals]. *)
Definition num (c : Params) : matrix :=
  hadamard (hadamard (outer (wL c) (wL c)) (rho c)) (integrals c).

(** [num.sum()]: the sum of all entries. *)
Definition msum (A : matrix) : R := vsum (map vsum A).

(** [v2 = num.sum() / (R0**2)]; [v = np.sqrt(v2)]. *)
Definition v2 (c : Params) : R := msum (num c) / (R0 c) ^ 2.

Definition v (c : Params) : R := sqrt (v2 c).

(** [dplus] and [dminus]. *)
Definition dplus (c : Params) (x : R) : R :=
  (ln x + (1 / 2) * (v c) ^ 2) / v c.

Definition dminus (c : Params) (x : R) : R :=
  (ln x - (1 / 2) * (v c) ^ 2) / v c.

(** The closed formula, with [norm.cdf] of scipy as an argument. *)
Definition price_analytic (cdf : R -> R) (c : Params) : R :=
  let x1 := R0 c / K c in
  let x2 := R0 c / Rup c in
  let y1 := (Rup c) ^ 2 / (K c * R0 c) in
  let y2 := Rup c / R0 c in
  let term1 := R0 c * (cdf (dplus c x1) - cdf (dplus c x2)) in
  let term2 := - cdf (dplus c x2) in
  let term3 := - K c * (cdf (dminus c x1) - cdf (dminus c x2)) in
  let term4 := - Rup c * (cdf (dplus c y1) - cdf (dplus c y2)) in
  let term5 := K c * R0 c * (cdf (dminus c y1) - cdf (dminus c y2)) in
  delta c * annuity c * (term1 + term2 + term3 + term4 + term5).

End Analytic.

(** ** Further quantities of the path loops *)

(** What path [p] of a loop with body [body] is worth to the specification:
    its contribution when it ends, 0 when it raises. *)
Definition path_contribution (c : Params)
    (body : nat -> nat -> list R -> Step) (p : nat) : R :=
  match run_path c body p with
  | inr e => contribution c e
  | inl _ => 0
  end.

(** The price entry path [p] has after the second loop, [old] being the
    entry it had before. *)
Definition second_loop_price (c : Params)
    (body : nat -> nat -> list R -> Step) (old : list R) (p : nat) : R :=
  match run_path c body p with
  | inr e => if knocked_out e then nth p old 0 else contribution c e
  | inl _ => nth p old 0
  end.

(** The knock-out probability of the boundary zone. *)
Definition knock_out_probability (c : Params) (logL_pi logL : list R) : R :=
  lambda_k c / (dist logL_pi logL + lambda_k c).

(** Entry by entry, [prices] is [P0_T0 * discount_sums * payoffs]. *)
Definition arrays_consistent (c : Params) (s : Store) : Prop :=
  forall p,
    nth p (prices s) 0
    = P0_T0 c * (nth p (discount_sums s) 0 * nth p (payoffs s) 0).

(** ** Assumptions on the optimizer *)

(** What scipy documents of [minimize]: the solution has the shape of the
    starting point. *)
Definition shape_preserving (lbfgsb : Lbfgsb) : Prop :=
  forall f y0, List.length (res_x (lbfgsb f y0)) = List.length y0.

(** An optimizer that always reports success. *)
Definition always_converges (lbfgsb : Lbfgsb) : Prop :=
  forall f y0, res_success (lbfgsb f y0) = true.

(** ** Further concrete inputs *)

(** How the one path of [hot_params] ends in the first loop and in the
    second, when L-BFGS-B stays at its starting point. *)
Definition hot_end_first : PathEnd :=
  mkPathEnd (hot_next (U2 r_hot) (ln (1 / 20))) false 1.

Definition hot_end_second : PathEnd :=
  mkPathEnd (hot_pi (ln (1 / 20))) true 0.

(** How a path of [warm_params] ends that is sent down at both steps. *)
Definition warm_end_down : PathEnd :=
  mkPathEnd (euler (warm_next (- 1)) (drift_vec warm_params (warm_next (- 1)))
                   (diffusion warm_params (U2 r_warm) [-1; -1]))
            false 2.

(** A market without volatility: two forward rates at 5%, one time step. *)
Definition calm_params : Params :=
  mkParams 2 1 1 1 (1 / 100) (3 / 40) [1 / 20; 1 / 20] [0; 0] (1 / 10).






(** ** Auxiliary notions used in the proofs *)

(** Suffix products, by structural recursion. *)
Fixpoint sufp (w : list R) : list R :=
  match w with
  | [] => []
  | a :: t => (a * vprod t) :: sufp t
  end.

(** Every entry is positive. *)
Definition all_pos (w : list R) : Prop := Forall (fun a => 0 < a) w.

(** Sum over i of the products of the entries after position i. *)
Fixpoint after_prods (w : list R) : R :=
  match w with
  | [] => 0
  | _ :: t => vprod t + after_prods t
  end.

(** Pointwise order on vectors of equal length. *)
Definition vle (x x' : list R) : Prop := Forall2 Rle x x'.

(** Settles the two comparisons of a step at a state that fails the coarse
    check ([Hc]) and the fine check ([Hf]). *)
Ltac fail_both_checks Hc Hf :=
  let H := fresh "H" in
  destruct (Rlt_dec _ _) as [H|_]; [exfalso; exact (Hc H)|];
  let H' := fresh "H" in
  destruct (Rlt_dec _ _) as [H'|_]; [exfalso; exact (Hf H')|].

(** * Properties of the notebook *)

(** *** Elementary facts on the vector operations *)

Lemma vprod_repeat (q : R) (n : nat) : vprod (repeat q n) = q ^ n.
Proof.
  induction n as [|n IH]; [reflexivity|].
  change (vprod (repeat q (S n))) with (q * vprod (repeat q n)).
  now rewrite IH.
Qed.

Lemma map_repeat {A B} (f : A -> B) (a : A) (n : nat) :
  map f (repeat a n) = repeat (f a) n.
Proof. induction n; simpl; congruence. Qed.

(** Geometric sum of the reciprocal running products of a constant vector. *)
Lemma inv_cumprod_repeat (q : R) (n : nat) :
  1 < q ->
  forall a, a <> 0 ->
  vsum (map (fun c => 1 / c) (cumprod_from a (repeat q n)))
  = (1 - 1 / q ^ n) / (a * (q - 1)).
Proof.
  intros Hq. induction n as [|n IH]; intros a Ha.
  - simpl. field. split; [lra | exact Ha].
  - cbn [repeat cumprod_from map vsum fold_right].
    fold (vsum (map (fun c => 1 / c) (cumprod_from (a * q) (repeat q n)))).
    assert (Hq0 : q <> 0) by lra.
    assert (Hqn : q ^ n <> 0) by (apply pow_nonzero; exact Hq0).
    rewrite IH by (apply Rmult_integral_contrapositive_currified; assumption).
    simpl pow. field. repeat split; try assumption; lra.
Qed.

Lemma pow_gt_1 (q : R) (n : nat) : 1 < q -> (0 < n)%nat -> 1 < q ^ n.
Proof.
  intros Hq Hn. destruct n as [|n]; [lia|].
  clear Hn. induction n as [|n IH]; simpl in *; [lra|]. nra.
Qed.

(** ** Swap rate of a flat curve *)

(** A curve whose log-forwards all equal [x] has swap rate [exp x]. *)
Lemma R_swap_constant (n : nat) (delta x : R) :
  (1 <= n)%nat -> 0 < delta ->
  R_swap (repeat x n) delta = exp x.
Proof.
  intros HN Hd. unfold R_swap, one_plus, cumprod.
  rewrite !map_repeat.
  assert (Hc := exp_pos x).
  set (q := 1 + delta * exp x).
  assert (Hq : 1 < q) by (unfold q; nra).
  rewrite vprod_repeat, (inv_cumprod_repeat q n Hq 1) by lra.
  assert (Hqn : 1 < q ^ n) by (apply pow_gt_1; [exact Hq | lia]).
  assert (Hdc : q - 1 = delta * exp x) by (unfold q; ring).
  rewrite Hdc. field. repeat split; lra.
Qed.

(** C9. For N >= 1, delta > 0 and c > 0 the swap rate of the flat forward
    curve L0 = [c]*N, evaluated as the notebook does on [np.log(L0)], is
    exactly c. *)
Theorem R_swap_flat (n : nat) (delta c : R) :
  (1 <= n)%nat -> 0 < delta -> 0 < c ->
  R_swap (map ln (repeat c n)) delta = c.
Proof.
  intros HN Hd Hc. rewrite map_repeat.
  rewrite (R_swap_constant n delta (ln c) HN Hd).
  exact (exp_ln c Hc).
Qed.

Lemma R_swap_flat_witness :
  R_swap (map ln (repeat (5 / 100) 10)) 1 = 5 / 100.
Proof. apply (R_swap_flat 10 1 (5 / 100)); [lia | lra | lra]. Defined.
(** *** The swap rate in terms of the head and the tail *)

Lemma vprod_cons (a : R) (t : list R) : vprod (a :: t) = a * vprod t.
Proof. reflexivity. Qed.

Lemma vsum_cons (a : R) (t : list R) : vsum (a :: t) = a + vsum t.
Proof. reflexivity. Qed.

Lemma vsum_app (a b : list R) : vsum (a ++ b) = vsum a + vsum b.
Proof.
  induction a as [|h a IH]; simpl; [lra|].
  fold (vsum (a ++ b)) (vsum a). rewrite IH. lra.
Qed.

Lemma vprod_app (a b : list R) : vprod (a ++ b) = vprod a * vprod b.
Proof.
  induction a as [|h a IH]; simpl; [lra|].
  fold (vprod (a ++ b)) (vprod a). rewrite IH. lra.
Qed.

Lemma vprod_rev (w : list R) : vprod (rev w) = vprod w.
Proof.
  induction w as [|a t IH]; [reflexivity|].
  simpl rev. rewrite vprod_app, IH, vprod_cons. simpl. lra.
Qed.

Lemma vprod_pos (w : list R) : all_pos w -> 0 < vprod w.
Proof.
  induction 1 as [|a t Ha _ IH]; simpl; [lra|].
  fold (vprod t). now apply Rmult_lt_0_compat.
Qed.

Lemma cumprod_from_app (acc : R) (l : list R) (b : R) :
  cumprod_from acc (l ++ [b]) = cumprod_from acc l ++ [acc * vprod l * b].
Proof.
  revert acc. induction l as [|a t IH]; intros acc; simpl.
  - f_equal. lra.
  - rewrite IH. fold (vprod t). do 3 f_equal. lra.
Qed.

Lemma revcp_sufp (w : list R) : revcp w = sufp w.
Proof.
  unfold revcp, cumprod. induction w as [|a t IH]; [reflexivity|].
  simpl rev. rewrite cumprod_from_app, rev_app_distr. simpl.
  rewrite IH, vprod_rev. f_equal. lra.
Qed.

Lemma after_prods_sufp (w : list R) :
  after_prods w + vprod w = 1 + vsum (sufp w).
Proof.
  induction w as [|a t IH]; simpl; [lra|].
  fold (vprod t) (vsum (sufp t)). lra.
Qed.

Lemma inv_cumprod_sum (w : list R) :
  all_pos w ->
  forall acc, 0 < acc ->
  vsum (map (fun c => 1 / c) (cumprod_from acc w))
  = after_prods w / (acc * vprod w).
Proof.
  induction 1 as [|a t Ha Ht IH]; intros acc Hacc; simpl.
  - unfold Rdiv. lra.
  - fold (vprod t) (vsum (map (fun c => 1 / c) (cumprod_from (acc * a) t))).
    assert (Hp := vprod_pos t Ht).
    rewrite IH by (now apply Rmult_lt_0_compat).
    field. repeat split; lra.
Qed.

Lemma after_prods_pos (w : list R) : all_pos w -> w <> [] -> 0 < after_prods w.
Proof.
  induction 1 as [|a t Ha Ht IH]; intros Hne; [congruence|].
  simpl. assert (Hp := vprod_pos t Ht).
  destruct t as [|b t']; [simpl; lra|].
  assert (0 < after_prods (b :: t')) by (apply IH; discriminate). lra.
Qed.

Lemma one_plus_pos (delta : R) (y : list R) :
  0 < delta -> all_pos (one_plus delta (map exp y)).
Proof.
  intros Hd. unfold all_pos, one_plus. rewrite !Forall_map.
  apply Forall_forall. intros a _. assert (H := exp_pos a). nra.
Qed.

(** The swap rate of a curve with head [z0] and tail [y], through the
    quantities of the tail that the fast projector computes. *)
Lemma R_swap_cons (delta z0 : R) (y : list R) :
  0 < delta ->
  let w := one_plus delta (map exp y) in
  R_swap (z0 :: y) delta
  = ((1 + delta * exp z0) * vprod w - 1) / (delta * (1 + vsum (revcp w))).
Proof.
  intros Hd w. unfold R_swap, cumprod.
  assert (Hw : all_pos w) by (apply one_plus_pos; exact Hd).
  assert (Hfull : all_pos (one_plus delta (map exp (z0 :: y)))).
  { apply one_plus_pos; exact Hd. }
  rewrite (inv_cumprod_sum _ Hfull 1) by lra.
  change (one_plus delta (map exp (z0 :: y))) with ((1 + delta * exp z0) :: w).
  rewrite vprod_cons. cbn [after_prods].
  rewrite revcp_sufp, <- after_prods_sufp.
  assert (Hp := vprod_pos w Hw).
  assert (Hz := exp_pos z0).
  assert (Ha : 0 <= after_prods w).
  { destruct w as [|b t]; [simpl; lra|].
    left. apply after_prods_pos; [exact Hw | discriminate]. }
  assert (0 < 1 + delta * exp z0) by nra.
  field. repeat split; nra.
Qed.

(** *** What the fast projector returns *)

Lemma inv_e_bounds : 1 / 3 <= / exp 1 <= 1 / 2.
Proof.
  assert (H3 := exp_le_3).
  assert (H2 : 2 < exp 1) by (generalize (exp_ineq1 1); lra).
  split.
  - apply Rmult_le_reg_r with (exp 1); [lra|].
    rewrite Rinv_l by lra. lra.
  - apply Rmult_le_reg_r with (exp 1); [lra|].
    rewrite Rinv_l by lra. lra.
Qed.

Lemma vsum_sufp_nonneg (w : list R) : all_pos w -> 0 <= vsum (sufp w).
Proof.
  induction 1 as [|a t Ha Ht IH]; simpl; [lra|].
  fold (vprod t) (vsum (sufp t)).
  assert (Hp := vprod_pos t Ht). nra.
Qed.

Lemma tail_sum_pos (delta : R) (y : list R) :
  0 < delta -> 1 <= 1 + vsum (revcp (one_plus delta (map exp y))).
Proof.
  intros Hd. rewrite revcp_sufp.
  assert (H := vsum_sufp_nonneg _ (one_plus_pos delta y Hd)). lra.
Qed.

(** The swap rate of the vector the fast projector rebuilds from a tail
    [y]: with the subtraction outside the logarithm the head is
    (numerator/denominator) * exp(-1/delta). *)
Lemma R_swap_logLpi_of_tail (delta Rup : R) (y : list R) :
  0 < delta -> 0 < Rup ->
  let w := one_plus delta (map exp y) in
  let S := 1 + vsum (revcp w) in
  R_swap (logLpi_of_tail delta Rup y) delta
  = (vprod w - 1 + delta * exp (- (1 / delta)) * (Rup * S + 1)) / (delta * S).
Proof.
  intros Hd HR w S. unfold logLpi_of_tail.
  rewrite R_swap_cons by exact Hd. fold w S.
  unfold logL0_of_tail. fold w S.
  assert (Hw := one_plus_pos delta y Hd). fold w in Hw.
  assert (Hp := vprod_pos w Hw).
  assert (HS : 1 <= S) by (apply tail_sum_pos; exact Hd).
  assert (Hnum : 0 < Rup * S + 1) by nra.
  assert (Hq : 0 < (Rup * S + 1) / vprod w) by (apply Rdiv_lt_0_compat; lra).
  unfold Rminus at 2. rewrite exp_plus, (exp_ln _ Hq).
  field. repeat split; lra.
Qed.

(** The closed form of the specification does lie on the barrier when
    delta = 1 (the notebook's value) and the argument of its logarithm is
    positive. *)
Lemma closed_form_on_barrier (Rup : R) (y : list R) :
  let w := one_plus 1 (map exp y) in
  0 < (Rup * (1 + vsum (revcp w)) + 1) / vprod w - 1 / 1 ->
  R_swap (logL0_closed_form 1 Rup y :: y) 1 = Rup.
Proof.
  intros w Harg. rewrite R_swap_cons by lra. fold w.
  unfold logL0_closed_form. fold w. rewrite (exp_ln _ Harg).
  assert (Hw := one_plus_pos 1 y Rlt_0_1). fold w in Hw.
  assert (Hp := vprod_pos w Hw).
  assert (HS : 1 <= 1 + vsum (revcp w)) by (apply tail_sum_pos; lra).
  field. split; lra.
Qed.

(** With N = 2, delta = 1 and the notebook's barrier 0.075, whatever tail
    coordinate the optimizer settles on, the rebuilt vector lies above the
    barrier by more than 0.1. *)
Lemma fast_form_gap_N2 (y : R) :
  R_swap (logLpi_of_tail 1 (3 / 40) [y]) 1 > 3 / 40 + 1 / 10.
Proof.
  rewrite R_swap_logLpi_of_tail by lra.
  unfold revcp, cumprod. cbn [one_plus map rev app cumprod_from vsum vprod fold_right].
  replace (1 / 1) with 1 by lra. rewrite exp_Ropp.
  assert (He := inv_e_bounds). assert (Hy := exp_pos y).
  set (t := exp y) in *. set (e := / exp 1) in *.
  apply Rlt_gt. apply Rmult_lt_reg_r with (1 * (1 + (1 * (1 + 1 * t) + 0))); [lra|].
  unfold Rdiv at 3. rewrite Rmult_assoc, Rinv_l by lra.
  nra.
Qed.

(** ** Indexing lemmas for the vector and matrix operations *)

Lemma zipWith_length (f : R -> R -> R) (a b : list R) :
  List.length (zipWith f a b) = Nat.min (List.length a) (List.length b).
Proof.
  revert b. induction a as [|x a IH]; intros [|y b]; simpl; auto.
Qed.

Lemma nth_zipWith (f : R -> R -> R) (a b : list R) (i : nat) :
  (i < List.length a)%nat -> (i < List.length b)%nat ->
  nth i (zipWith f a b) 0 = f (nth i a 0) (nth i b 0).
Proof.
  revert b i. induction a as [|x a IH]; intros [|y b] [|i]; simpl; intros Ha Hb;
    try lia; auto.
  apply IH; lia.
Qed.

Lemma nth_map_R (f : R -> R) (a : list R) (i : nat) :
  (i < List.length a)%nat -> nth i (map f a) 0 = f (nth i a 0).
Proof.
  intros Hi. rewrite (nth_indep _ 0 (f 0)) by (rewrite length_map; exact Hi).
  apply map_nth.
Qed.

Lemma map_seq_shift (f : nat -> R) (n : nat) :
  map f (seq 1 n) = map (fun j => f (S j)) (seq 0 n).
Proof. rewrite <- seq_shift, map_map. reflexivity. Qed.

(** A dot product of two vectors of length [n], as a sum over the indices. *)
Lemma dot_as_sum (a b : list R) (n : nat) :
  List.length a = n -> List.length b = n ->
  dot a b = vsum (map (fun j => nth j a 0 * nth j b 0) (seq 0 n)).
Proof.
  revert b n. induction a as [|x a IH]; intros [|y b] [|n]; simpl;
    intros Ha Hb; try discriminate; [reflexivity|].
  unfold dot, vmul. cbn [zipWith]. rewrite vsum_cons.
  rewrite map_seq_shift. cbn [nth].
  fold (vsum (map (fun j => nth j a 0 * nth j b 0) (seq 0 n))).
  f_equal. apply (IH b n); lia.
Qed.

Lemma set_at_length (p : nat) (v : R) (a : list R) :
  List.length (set_at p v a) = List.length a.
Proof.
  revert p. induction a as [|b a IH]; intros [|p]; simpl; auto.
Qed.

Lemma nth_set_at_same (p : nat) (v : R) (a : list R) :
  (p < List.length a)%nat -> nth p (set_at p v a) 0 = v.
Proof.
  revert p. induction a as [|b a IH]; intros [|p]; simpl; intros H;
    try lia; auto. apply IH. lia.
Qed.

Lemma nth_set_at_other (p q : nat) (v : R) (a : list R) :
  p <> q -> nth q (set_at p v a) 0 = nth q a 0.
Proof.
  revert p q. induction a as [|b a IH]; intros [|p] [|q]; simpl; intros H;
    try congruence; auto.
Qed.

Lemma nth_repeat_0 (i n : nat) : nth i (repeat 0 n) 0 = 0.
Proof.
  revert i. induction n as [|n IH]; intros [|i]; simpl; auto.
Qed.

(** *** The entries of [np.tril], [np.outer] and of the elementwise product *)

Lemma nth_tril_row (k j : nat) (r : list R) :
  nth j (firstn (S k) r ++ repeat 0 (List.length r - S k)) 0
  = if (j <=? k)%nat then nth j r 0 else 0.
Proof.
  destruct (Nat.leb_spec j k) as [Hle|Hgt].
  - destruct (Nat.lt_ge_cases j (List.length r)) as [Hj|Hj].
    + rewrite app_nth1 by (rewrite length_firstn; lia).
      rewrite nth_firstn.
      destruct (Nat.ltb_spec j (S k)); [reflexivity | lia].
    + rewrite (nth_overflow r) by lia.
      apply nth_overflow.
      rewrite length_app, length_firstn, repeat_length. lia.
  - destruct (Nat.lt_ge_cases (List.length r) (S k)) as [Hs|Hs].
    + apply nth_overflow.
      rewrite length_app, length_firstn, repeat_length. lia.
    + rewrite app_nth2 by (rewrite length_firstn; lia).
      apply nth_repeat_0.
Qed.

(** ** The drift of the log-Euler step *)

Lemma arange_length (n : nat) : List.length (arange n) = n.
Proof. unfold arange. now rewrite length_map, length_seq. Qed.

Lemma times_length (c : Params) : List.length (times c) = N c.
Proof. unfold times. now rewrite length_map, arange_length. Qed.

Lemma rho_length (c : Params) : List.length (rho c) = N c.
Proof. unfold rho. now rewrite length_map, times_length. Qed.

Lemma nth_map_row {A} (f : A -> list R) (l : list A) (i : nat) (d : A) :
  (i < List.length l)%nat -> nth i (map f l) [] = f (nth i l d).
Proof.
  intros Hi. rewrite (nth_indep _ [] (f d)) by (rewrite length_map; exact Hi).
  apply map_nth.
Qed.

Lemma rho_row_length (c : Params) (i : nat) :
  (i < N c)%nat -> List.length (nth i (rho c) []) = N c.
Proof.
  intros Hi. unfold rho.
  rewrite (nth_map_row _ _ i 0) by (rewrite times_length; exact Hi).
  now rewrite length_map, times_length.
Qed.

Lemma outer_row (a b : list R) (i : nat) :
  (i < List.length a)%nat ->
  nth i (outer a b) [] = map (fun bj => nth i a 0 * bj) b.
Proof. intros Hi. unfold outer. now rewrite (nth_map_row _ _ i 0). Qed.

Lemma hadamard_row (A B : matrix) (i : nat) :
  nth i (hadamard A B) [] = vmul (nth i A []) (nth i B []).
Proof.
  revert B i. induction A as [|r A IH]; intros [|s B] [|i]; simpl; auto.
  - now destruct r.
  - now destruct (nth i A []).
Qed.

Lemma tril_from_entry (A : matrix) (k i j : nat) :
  entry (tril_from k A) i j
  = if (j <=? k + i)%nat then entry A i j else 0.
Proof.
  unfold entry. revert k i.
  induction A as [|r A IH]; intros k [|i]; cbn [tril_from nth].
  - destruct j; now destruct (_ <=? _)%nat.
  - destruct j; now destruct (_ <=? _)%nat.
  - rewrite nth_tril_row. now rewrite Nat.add_0_r.
  - rewrite IH. now replace (S k + i)%nat with (k + S i)%nat by lia.
Qed.

Lemma tril_from_row_length (A : matrix) (k i : nat) :
  List.length (nth i (tril_from k A) []) = List.length (nth i A []).
Proof.
  revert k i. induction A as [|r A IH]; intros k [|i]; cbn [tril_from nth]; auto.
  rewrite length_app, length_firstn, repeat_length. lia.
Qed.

Lemma full_mat_entry (c : Params) (i j : nat) :
  List.length (sigma c) = N c -> (i < N c)%nat -> (j < N c)%nat ->
  entry (full_mat c) i j
  = entry (rho c) i j * (nth i (sigma c) 0 * nth j (sigma c) 0).
Proof.
  intros Hs Hi Hj. unfold entry, full_mat.
  rewrite hadamard_row, outer_row by lia.
  unfold vmul. rewrite nth_zipWith.
  - now rewrite nth_map_R by lia.
  - now rewrite rho_row_length.
  - rewrite length_map. lia.
Qed.

Lemma full_mat_row_length (c : Params) (i : nat) :
  List.length (sigma c) = N c -> (i < N c)%nat ->
  List.length (nth i (full_mat c) []) = N c.
Proof.
  intros Hs Hi. unfold full_mat.
  rewrite hadamard_row, outer_row by lia.
  unfold vmul. rewrite zipWith_length, rho_row_length, length_map by exact Hi.
  lia.
Qed.

Lemma full_mat_length (c : Params) :
  List.length (sigma c) = N c -> List.length (full_mat c) = N c.
Proof.
  intros Hs. unfold full_mat.
  assert (Hr := rho_length c).
  assert (Ho : List.length (outer (sigma c) (sigma c)) = N c).
  { unfold outer. now rewrite length_map. }
  revert Hr Ho. generalize (rho c) (outer (sigma c) (sigma c)) (N c).
  induction m as [|r A IH]; intros [|s B] [|n]; simpl; intros; try lia.
  f_equal. apply IH; lia.
Qed.

Lemma tril_from_length (A : matrix) (k : nat) :
  List.length (tril_from k A) = List.length A.
Proof. revert k. induction A as [|r A IH]; intros k; simpl; auto. Qed.

(** The code's [np.tril(rho * np.outer(sigma, sigma))] is the matrix the
    specification describes. *)
Lemma drift_mat_entry (c : Params) (i j : nat) :
  List.length (sigma c) = N c -> (i < N c)%nat -> (j < N c)%nat ->
  entry (drift_mat c) i j = DriftMatrix c i j.
Proof.
  intros Hs Hi Hj. unfold drift_mat, tril, DriftMatrix.
  rewrite tril_from_entry. simpl Nat.add.
  destruct (j <=? i)%nat; [|reflexivity].
  now apply full_mat_entry.
Qed.

(** Entry [i] of the drift vector, as a sum over the forward rates. *)
Lemma drift_vec_entry (c : Params) (logL : list R) (i : nat) :
  List.length (sigma c) = N c -> List.length logL = N c -> (i < N c)%nat ->
  nth i (drift_vec c logL) 0
  = h c * vsum (map (fun j => DriftMatrix c i j * v_at c logL j) (seq 0 (N c)))
    - (1 / 2) * (nth i (sigma c) 0) ^ 2 * h c.
Proof.
  intros Hs Hl Hi. unfold drift_vec, vsub.
  assert (Hdm : List.length (drift_mat c) = N c).
  { unfold drift_mat, tril. now rewrite tril_from_length, full_mat_length. }
  rewrite nth_zipWith.
  2: { unfold matvec. rewrite !length_map. lia. }
  2: { rewrite length_map. lia. }
  rewrite !nth_map_R by (unfold matvec; rewrite ?length_map; lia).
  f_equal. unfold matvec.
  rewrite (nth_indep _ 0 (dot [] (v_of c (map exp logL))))
    by (rewrite length_map; lia).
  rewrite (map_nth (fun row => dot row (v_of c (map exp logL)))).
  rewrite (dot_as_sum _ _ (N c)).
  - rewrite Rmult_comm. f_equal. apply (f_equal vsum).
    apply map_ext_in. intros j Hj.
    apply in_seq in Hj.
    change (nth j (nth i (drift_mat c) []) 0) with (entry (drift_mat c) i j).
    rewrite drift_mat_entry by lia. f_equal.
    unfold v_of, v_at. rewrite nth_map_R by (rewrite length_map; lia).
    now rewrite nth_map_R by lia.
  - unfold drift_mat, tril.
    now rewrite tril_from_row_length, full_mat_row_length.
  - unfold v_of. now rewrite !length_map.
Qed.

(** *** Bounds on logarithms used at concrete inputs *)

Lemma ln_le_minus_1 (y : R) : 0 < y -> ln y <= y - 1.
Proof.
  intros Hy. assert (H := exp_ineq1_le (ln y)).
  rewrite (exp_ln y Hy) in H. lra.
Qed.

Lemma ln_3_2_bounds : 1 / 3 <= ln (3 / 2) <= 1 / 2.
Proof.
  split.
  - assert (H := ln_le_minus_1 (2 / 3)).
    replace (2 / 3) with (/ (3 / 2)) in H by lra.
    rewrite ln_Rinv in H by lra. lra.
  - assert (H := ln_le_minus_1 (3 / 2)). lra.
Qed.

Lemma vmax_repeat (a : R) (n : nat) : vmax (repeat a (S n)) = a.
Proof.
  simpl. induction n as [|n IH]; simpl; [reflexivity|].
  rewrite Rmax_left by lra. exact IH.
Qed.

Lemma INR_10 : INR 10 = 10.
Proof. rewrite INR_IZR_INZ. reflexivity. Qed.

Lemma INR_100 : INR 100 = 100.
Proof. rewrite INR_IZR_INZ. reflexivity. Qed.

Lemma notebook_h : h notebook_params = 1 / 10.
Proof. unfold h. cbn [T0 M notebook_params]. rewrite INR_100. lra. Qed.

Lemma notebook_coarse_bound : coarse_bound notebook_params = 219 / 2000.
Proof.
  unfold coarse_bound, sigma_max. rewrite notebook_h.
  cbn [sigma N notebook_params]. rewrite (vmax_repeat (1 / 10) 9), INR_10.
  replace (1 / 10 * 10) with 1 by lra. rewrite sqrt_1. lra.
Qed.

(** At the notebook's initial state the coarse check passes. *)
Lemma notebook_coarse_safe_at_start :
  coarse_safe notebook_params (map ln (L0 notebook_params)).
Proof.
  unfold coarse_safe. rewrite notebook_coarse_bound.
  cbn [L0 Rup notebook_params]. rewrite map_repeat, (vmax_repeat _ 9).
  assert (H := ln_3_2_bounds).
  replace (3 / 40) with ((3 / 2) * (1 / 20)) by lra.
  rewrite ln_mult by lra. lra.
Qed.

(** ** The fast projector against equation (6.13) *)

Lemma tail_N2 (y : R) :
  let w := one_plus 1 (map exp [y]) in
  vprod w = 1 + exp y /\ 1 + vsum (revcp w) = 2 + exp y.
Proof.
  unfold revcp, cumprod.
  cbn [one_plus map rev app cumprod_from vsum vprod fold_right].
  split; ring.
Qed.

(** C1. At delta = 1, Rup = 0.075 and the tail [ln 0.05] (N = 2) the
    notebook's head coordinate is ln(923/840) - 1, the subtraction standing
    outside the logarithm, where equation (6.13) gives ln(923/840 - 1); the
    vector rebuilt by the notebook has a swap rate above 0.175, while the
    one rebuilt with (6.13) has swap rate Rup exactly. *)
Theorem fast_form_subtraction_outside_log :
  logL0_of_tail 1 (3 / 40) [ln (1 / 20)] = ln (923 / 840) - 1 /\
  logL0_closed_form 1 (3 / 40) [ln (1 / 20)] = ln (923 / 840 - 1) /\
  R_swap (logLpi_of_tail 1 (3 / 40) [ln (1 / 20)]) 1 > 3 / 40 + 1 / 10 /\
  R_swap (logL0_closed_form 1 (3 / 40) [ln (1 / 20)] :: [ln (1 / 20)]) 1
  = 3 / 40.
Proof.
  assert (He : exp (ln (1 / 20)) = 1 / 20) by (apply exp_ln; lra).
  destruct (tail_N2 (ln (1 / 20))) as [Hp HS]. rewrite He in Hp, HS.
  repeat split.
  - unfold logL0_of_tail. cbv zeta. rewrite Hp, HS. f_equal; [f_equal|]; lra.
  - unfold logL0_closed_form. cbv zeta. rewrite Hp, HS. f_equal. lra.
  - apply fast_form_gap_N2.
  - apply closed_form_on_barrier. cbv zeta. rewrite Hp, HS. lra.
Qed.

(** C2. With N = 2, delta = 1 and Rup = 0.075, whatever L-BFGS-B returns
    (a tail of the shape it was started from), the point the fast projector
    returns misses the barrier by more than 0.1 in swap rate. *)
Theorem fast_projection_misses_barrier (lbfgsb : Lbfgsb) (x0 x1 : R)
    (xs : list R) :
  List.length (res_x (lbfgsb (objective [x0; x1] 1 (3 / 40)) [x1])) = 1%nat ->
  project_to_barrier2 lbfgsb [x0; x1] 1 (3 / 40) = inr xs ->
  Rabs (R_swap xs 1 - 3 / 40) > 1 / 10.
Proof.
  intros Hlen H. unfold project_to_barrier2 in H. cbv zeta in H.
  destruct (res_success _); [|discriminate].
  injection H as <-.
  destruct (res_x _) as [|y [|? ?]]; try discriminate.
  assert (Hg := fast_form_gap_N2 y).
  rewrite Rabs_right by lra. lra.
Qed.

Lemma fast_projection_misses_barrier_witness :
  Rabs (R_swap (logLpi_of_tail 1 (3 / 40) [ln (1 / 20)]) 1 - 3 / 40) > 1 / 10.
Proof.
  apply (fast_projection_misses_barrier lbfgsb_stay (ln (1 / 20)) (ln (1 / 20)));
    reflexivity.
Defined.

(** ** Monotonicity and bounds of the swap rate *)

Lemma vprod_gt_1 (w : list R) :
  Forall (fun a => 1 < a) w -> w <> [] -> 1 < vprod w.
Proof.
  induction 1 as [|a t Ha Ht IH]; intros Hne; [congruence|].
  rewrite vprod_cons. destruct t as [|b t'].
  - simpl. lra.
  - assert (1 < vprod (b :: t')) by (apply IH; discriminate). nra.
Qed.

Lemma one_plus_gt_1 (delta : R) (x : list R) :
  0 < delta -> Forall (fun a => 1 < a) (one_plus delta (map exp x)).
Proof.
  intros Hd. unfold one_plus. rewrite !Forall_map.
  apply Forall_forall. intros a _. assert (H := exp_pos a). nra.
Qed.

Lemma inv_cumprod_pos (w : list R) :
  all_pos w -> w <> [] -> forall acc, 0 < acc ->
  0 < vsum (map (fun c => 1 / c) (cumprod_from acc w)).
Proof.
  intros Hw Hne acc Hacc. rewrite (inv_cumprod_sum w Hw acc Hacc).
  apply Rdiv_lt_0_compat.
  - now apply after_prods_pos.
  - apply Rmult_lt_0_compat; [exact Hacc | now apply vprod_pos].
Qed.

(** The swap rate of a non-empty curve is positive. *)
Lemma R_swap_pos (x : list R) (delta : R) :
  0 < delta -> x <> [] -> 0 < R_swap x delta.
Proof.
  intros Hd Hne. unfold R_swap, cumprod.
  set (w := one_plus delta (map exp x)).
  assert (Hw1 : Forall (fun a => 1 < a) w) by (apply one_plus_gt_1; exact Hd).
  assert (Hw : all_pos w) by (apply one_plus_pos; exact Hd).
  assert (Hwne : w <> []).
  { unfold w, one_plus. destruct x; [congruence | discriminate]. }
  assert (Hp := vprod_gt_1 w Hw1 Hwne).
  assert (HD := inv_cumprod_pos w Hw Hwne 1 Rlt_0_1).
  apply Rdiv_lt_0_compat.
  - assert (1 / vprod w < 1); [|lra].
    apply Rmult_lt_reg_r with (vprod w); [lra|].
    unfold Rdiv. rewrite Rmult_assoc, Rinv_l by lra. lra.
  - now apply Rmult_lt_0_compat.
Qed.

Lemma vprod_mono (w w' : list R) :
  Forall2 (fun a b => 0 < a <= b) w w' -> 0 < vprod w <= vprod w'.
Proof.
  induction 1 as [|a b t t' Hab _ IH]; simpl; [lra|].
  fold (vprod t) (vprod t'). nra.
Qed.

Lemma inv_cumprod_antimono (w w' : list R) :
  Forall2 (fun a b => 0 < a <= b) w w' ->
  forall acc acc', 0 < acc <= acc' ->
  vsum (map (fun c => 1 / c) (cumprod_from acc' w'))
  <= vsum (map (fun c => 1 / c) (cumprod_from acc w)).
Proof.
  induction 1 as [|a b t t' Hab _ IH]; intros acc acc' Hacc; simpl; [lra|].
  fold (vsum (map (fun c => 1 / c) (cumprod_from (acc' * b) t')))
       (vsum (map (fun c => 1 / c) (cumprod_from (acc * a) t))).
  assert (Hm : 0 < acc * a <= acc' * b) by nra.
  specialize (IH _ _ Hm).
  assert (1 / (acc' * b) <= 1 / (acc * a)); [|lra].
  unfold Rdiv. rewrite !Rmult_1_l. apply Rinv_le_contravar; lra.
Qed.

Lemma one_plus_mono (delta : R) (x x' : list R) :
  0 < delta -> vle x x' ->
  Forall2 (fun a b => 0 < a <= b)
          (one_plus delta (map exp x)) (one_plus delta (map exp x')).
Proof.
  intros Hd. induction 1 as [|a b t t' Hab _ IH]; simpl; constructor; auto.
  assert (Ha := exp_pos a).
  assert (exp a <= exp b).
  { destruct Hab as [Hlt | ->]; [left; now apply exp_increasing | lra]. }
  nra.
Qed.

(** The swap rate is nondecreasing in every log-forward. *)
Lemma R_swap_mono (x x' : list R) (delta : R) :
  0 < delta -> vle x x' -> R_swap x delta <= R_swap x' delta.
Proof.
  intros Hd Hle.
  destruct x as [|a t].
  { inversion Hle. lra. }
  assert (Hne : a :: t <> []) by discriminate.
  assert (Hne' : x' <> []) by (inversion Hle; discriminate).
  revert Hne Hle. generalize (a :: t). clear a t. intros x Hne Hle.
  assert (HF := one_plus_mono delta x x' Hd Hle).
  unfold R_swap, cumprod.
  set (w := one_plus delta (map exp x)) in *.
  set (w' := one_plus delta (map exp x')) in *.
  assert (Hw : all_pos w) by (apply one_plus_pos; exact Hd).
  assert (Hw' : all_pos w') by (apply one_plus_pos; exact Hd).
  assert (Hwne : w <> []) by (unfold w, one_plus; destruct x; [congruence | discriminate]).
  assert (Hwne' : w' <> []) by (unfold w', one_plus; destruct x'; [congruence | discriminate]).
  assert (Hp := vprod_mono w w' HF).
  assert (Hp1 := vprod_gt_1 w (one_plus_gt_1 delta x Hd) Hwne).
  assert (HD := inv_cumprod_antimono w w' HF 1 1 (conj Rlt_0_1 (Rle_refl 1))).
  assert (HD' := inv_cumprod_pos w' Hw' Hwne' 1 Rlt_0_1).
  set (D := vsum (map (fun c => 1 / c) (cumprod_from 1 w))) in *.
  set (D' := vsum (map (fun c => 1 / c) (cumprod_from 1 w'))) in *.
  assert (Hn : 0 < 1 - 1 / vprod w <= 1 - 1 / vprod w').
  { assert (/ vprod w' <= / vprod w) by (apply Rinv_le_contravar; lra).
    assert (/ vprod w < 1).
    { rewrite <- Rinv_1. apply Rinv_lt_contravar; lra. }
    unfold Rdiv. rewrite !Rmult_1_l. lra. }
  apply Rle_trans with ((1 - 1 / vprod w') / (delta * D)).
  - unfold Rdiv at 1 3. apply Rmult_le_compat_r; [|lra].
    left. apply Rinv_0_lt_compat. nra.
  - unfold Rdiv at 1 3. apply Rmult_le_compat_l; [lra|].
    apply Rinv_le_contravar; nra.
Qed.

Lemma vle_repeat_l (m : R) (x : list R) :
  Forall (fun a => m <= a) x -> vle (repeat m (List.length x)) x.
Proof. induction 1; simpl; constructor; auto. Qed.

Lemma vle_repeat_r (m : R) (x : list R) :
  Forall (fun a => a <= m) x -> vle x (repeat m (List.length x)).
Proof. induction 1; simpl; constructor; auto. Qed.

(** A curve whose log-forwards are all at least [m] has swap rate at
    least [exp m]; likewise from above. *)
Lemma R_swap_ge_flat (x : list R) (delta m : R) :
  0 < delta -> x <> [] -> Forall (fun a => m <= a) x ->
  exp m <= R_swap x delta.
Proof.
  intros Hd Hne Hall.
  rewrite <- (R_swap_constant (List.length x) delta m).
  - apply R_swap_mono; [exact Hd | now apply vle_repeat_l].
  - destruct x; [congruence | simpl; lia].
  - exact Hd.
Qed.

Lemma R_swap_le_flat (x : list R) (delta m : R) :
  0 < delta -> x <> [] -> Forall (fun a => a <= m) x ->
  R_swap x delta <= exp m.
Proof.
  intros Hd Hne Hall.
  rewrite <- (R_swap_constant (List.length x) delta m).
  - apply R_swap_mono; [exact Hd | now apply vle_repeat_r].
  - destruct x; [congruence | simpl; lia].
  - exact Hd.
Qed.

(** [np.max] bounds every entry. *)
Lemma fold_left_Rmax_ge (t : list R) (a : R) :
  a <= fold_left Rmax t a /\ Forall (fun b => b <= fold_left Rmax t a) t.
Proof.
  revert a. induction t as [|b t IH]; intros a; simpl; [split; [lra | constructor]|].
  destruct (IH (Rmax a b)) as [H1 H2].
  assert (Ha := Rmax_l a b). assert (Hb := Rmax_r a b).
  split; [lra|]. constructor; [lra | exact H2].
Qed.

Lemma vmax_upper (x : list R) : Forall (fun a => a <= vmax x) x.
Proof.
  destruct x as [|a t]; [constructor|]. simpl.
  destruct (fold_left_Rmax_ge t a) as [H1 H2]. now constructor.
Qed.

Lemma R_swap_le_vmax (x : list R) (delta : R) :
  0 < delta -> x <> [] -> R_swap x delta <= exp (vmax x).
Proof.
  intros Hd Hne. apply R_swap_le_flat; [exact Hd | exact Hne | apply vmax_upper].
Qed.

(** ** A market at its barrier: the first step of [hot_params] *)

Lemma sqrt_lower (a x : R) : 0 <= a -> a * a <= x -> a <= sqrt x.
Proof.
  intros Ha Hx. rewrite <- (sqrt_square a Ha). now apply sqrt_le_1_alt.
Qed.

Lemma sqrt_upper (b x : R) : 0 <= b -> x <= b * b -> sqrt x <= b.
Proof.
  intros Hb Hx. rewrite <- (sqrt_square b Hb). now apply sqrt_le_1_alt.
Qed.

Lemma sqrt_2_bounds : 1 <= sqrt 2 <= 3 / 2.
Proof. split; [apply sqrt_lower | apply sqrt_upper]; lra. Qed.

Lemma hot_h : h hot_params = 1.
Proof. unfold h. cbn [T0 M hot_params INR]. lra. Qed.

Lemma hot_sigma_max : sigma_max hot_params = 1 / 2.
Proof.
  unfold sigma_max. cbn [sigma hot_params vmax fold_left].
  apply Rmax_left. lra.
Qed.

Lemma hot_coarse_bound : coarse_bound hot_params = 3 / 8 + sqrt 2 / 2.
Proof.
  unfold coarse_bound. rewrite hot_sigma_max, hot_h. cbn [N hot_params INR].
  replace (1 * (1 + 1)) with 2 by lra. lra.
Qed.

Lemma ln_3_40 : ln (3 / 40) = ln (3 / 2) + ln (1 / 20).
Proof. rewrite <- ln_mult by lra. f_equal. lra. Qed.

Lemma hot_not_coarse_safe : ~ coarse_safe hot_params hot_logL0.
Proof.
  unfold coarse_safe. rewrite hot_coarse_bound.
  cbn [hot_logL0 vmax fold_left Rup hot_params].
  rewrite Rmax_left by lra. rewrite ln_3_40.
  assert (H := ln_3_2_bounds). assert (H2 := sqrt_2_bounds). lra.
Qed.

Lemma hot_L_pert :
  L_pert hot_params (map exp hot_logL0)
  = [1 / 20 * (1 + (1 / 4 + sqrt 2 / 2)); 1 / 10].
Proof.
  unfold L_pert, drift_worst, diff_worst, arange, vmul, vadd.
  rewrite hot_sigma_max, hot_h.
  cbn [zipWith map seq sigma N hot_params INR hot_logL0].
  rewrite exp_ln by lra.
  replace ((1 + 1 - 1) * 1) with 1 by lra. rewrite sqrt_1.
  replace ((1 + 1 - 0) * 1) with 2 by lra.
  f_equal; [|f_equal]; lra.
Qed.

Lemma hot_not_fine_safe : ~ fine_safe hot_params hot_logL0.
Proof.
  unfold fine_safe. rewrite hot_L_pert. cbn [delta Rup hot_params].
  assert (H2 := sqrt_2_bounds).
  apply Rle_not_lt.
  rewrite <- (exp_ln (3 / 40)) at 1 by lra.
  apply R_swap_ge_flat; [lra | discriminate |].
  constructor; [|constructor; [|constructor]];
    left; apply ln_increasing; lra.
Qed.


Lemma ln_20_ge_2 : 2 <= - ln (1 / 20).
Proof.
  replace (1 / 20) with (/ 20) by lra. rewrite ln_Rinv by lra.
  rewrite Ropp_involutive.
  rewrite <- (ln_exp 2). left. apply ln_increasing; [apply exp_pos|].
  replace 2 with (1 + 1) at 1 by lra. rewrite exp_plus.
  assert (H3 := exp_le_3). assert (H0 := exp_pos 1). nra.
Qed.



Lemma hot_lambda_bounds : 1 <= lambda_k hot_params <= 25 / 16.
Proof.
  unfold lambda_k. rewrite hot_coarse_bound. cbn [N hot_params INR].
  replace (1 + 1) with 2 by lra.
  assert (H2 := sqrt_2_bounds).
  assert (Hs : sqrt 2 * sqrt 2 = 2) by (apply sqrt_sqrt; lra).
  split; nra.
Qed.


(** ** The result arrays across the path loop *)

Lemma record_path_ok (c : Params) (n p : nat) (e : PathEnd) (s : Store) :
  store_ok n s -> store_ok n (record_path c p e s).
Proof.
  intros (H1 & H2 & H3 & H4). unfold record_path, store_ok.
  destruct (knocked_out e); cbn [payoffs exit_times discount_sums prices];
    rewrite ?set_at_length; auto.
Qed.

Lemma record_path_here (c : Params) (n p : nat) (e : PathEnd) (s : Store) :
  store_ok n s -> (p < n)%nat ->
  nth p (exit_times (record_path c p e s)) 0 = INR (exit_step e) * h c /\
  nth p (prices (record_path c p e s)) 0
  = if knocked_out e then nth p (prices s) 0
    else P0_T0 c * (discount_sum c (end_logL e) * payoff c (end_logL e)).
Proof.
  intros (H1 & H2 & H3 & H4) Hp. unfold record_path.
  destruct (knocked_out e); cbn [exit_times prices];
    rewrite ?nth_set_at_same by lia; auto.
Qed.

Lemma record_path_elsewhere (c : Params) (p q : nat) (e : PathEnd) (s : Store) :
  p <> q ->
  nth q (exit_times (record_path c p e s)) 0 = nth q (exit_times s) 0 /\
  nth q (prices (record_path c p e s)) 0 = nth q (prices s) 0.
Proof.
  intros Hpq. unfold record_path.
  destruct (knocked_out e); cbn [exit_times prices];
    rewrite ?nth_set_at_other by exact Hpq; auto.
Qed.

(** What the loop over the paths [p, p + todo) leaves in the arrays. *)
Lemma paths_from_inv (c : Params) (body : nat -> nat -> list R -> Step)
    (n todo : nat) :
  forall p s s',
  store_ok n s -> (p + todo <= n)%nat ->
  paths_from c body todo p s = inr s' ->
  store_ok n s' /\
  (forall q, (p <= q < p + todo)%nat ->
     exists e, run_path c body q = inr e /\
       nth q (exit_times s') 0 = INR (exit_step e) * h c /\
       nth q (prices s') 0
       = if knocked_out e then nth q (prices s) 0
         else P0_T0 c * (discount_sum c (end_logL e) * payoff c (end_logL e))) /\
  (forall q, ~ (p <= q < p + todo)%nat ->
     nth q (exit_times s') 0 = nth q (exit_times s) 0 /\
     nth q (prices s') 0 = nth q (prices s) 0).
Proof.
  induction todo as [|todo IH]; intros p s s' Hok Hle Hrun.
  - injection Hrun as <-. split; [exact Hok|].
    split; [intros q Hq; lia | intros q _; split; reflexivity].
  - cbn [paths_from] in Hrun.
    destruct (run_path c body p) as [[k e]|e] eqn:Hp; [discriminate|].
    destruct (IH (S p) _ s' (record_path_ok c n p e s Hok) ltac:(lia) Hrun)
      as (Hok' & Hin & Hout).
    split; [exact Hok'|]. split.
    + intros q Hq. destruct (Nat.eq_dec q p) as [->|Hne].
      * exists e. split; [exact Hp|].
        destruct (Hout p ltac:(lia)) as [-> ->].
        apply (record_path_here c n); [exact Hok | lia].
      * destruct (Hin q ltac:(lia)) as (e' & He' & Ht & Hpr).
        exists e'. split; [exact He'|]. split; [exact Ht|].
        destruct (record_path_elsewhere c p q e s ltac:(lia)) as [_ Heq].
        now rewrite Heq in Hpr.
    + intros q Hq. destruct (Hout q ltac:(lia)) as [-> ->].
      apply record_path_elsewhere. lia.
Qed.

Lemma init_store_ok (n : nat) : store_ok n (init_store n).
Proof. unfold store_ok, init_store, zeros; cbn; now rewrite repeat_length. Qed.

(** A run of the first loop on freshly created arrays: every path
    contributes what the specification says, a knocked-out path 0. *)
Lemma first_run_contributions (c : Params) (U : matrix) (lbfgsb : Lbfgsb)
    (rnd : Draws) (n_paths : nat) (s : Store) :
  first_run c U lbfgsb rnd n_paths = inr s ->
  store_ok n_paths s /\
  forall p, (p < n_paths)%nat ->
    exists e, run_path c (step c U lbfgsb rnd) p = inr e /\
      nth p (exit_times s) 0 = INR (exit_step e) * h c /\
      nth p (prices s) 0 = contribution c e.
Proof.
  intros Hrun. unfold first_run, mc_loop in Hrun.
  destruct (paths_from_inv c _ n_paths n_paths 0 _ s
              (init_store_ok n_paths) ltac:(lia) Hrun) as (Hok & Hin & _).
  split; [exact Hok|]. intros p Hp.
  destruct (Hin p ltac:(lia)) as (e & He & Ht & Hpr).
  exists e. repeat split; auto. rewrite Hpr. unfold contribution.
  destruct (knocked_out e); [|reflexivity].
  unfold init_store, zeros. cbn [prices]. apply nth_repeat_0.
Qed.

(** The second loop writes into the arrays the first loop left: a path it
    knocks out keeps the price the first loop gave to that path index. *)
Lemma second_run_contributions (c : Params) (U : matrix) (lbfgsb : Lbfgsb)
    (rnd1 rnd2 : Draws) (n_paths : nat) (s2 : Store) :
  second_run c U lbfgsb rnd1 rnd2 n_paths = inr s2 ->
  exists s1, first_run c U lbfgsb rnd1 n_paths = inr s1 /\
  forall p, (p < n_paths)%nat ->
    exists e, run_path c (step_half c U lbfgsb rnd2) p = inr e /\
      nth p (exit_times s2) 0 = INR (exit_step e) * h c /\
      nth p (prices s2) 0
      = if knocked_out e then nth p (prices s1) 0 else contribution c e.
Proof.
  intros Hrun. unfold second_run in Hrun.
  destruct (first_run c U lbfgsb rnd1 n_paths) as [err|s1] eqn:H1;
    [discriminate|].
  exists s1. split; [reflexivity|].
  destruct (first_run_contributions c U lbfgsb rnd1 n_paths s1 H1) as [Hok _].
  unfold mc_loop in Hrun.
  destruct (paths_from_inv c _ n_paths n_paths 0 _ s2 Hok ltac:(lia) Hrun)
    as (_ & Hin & _).
  intros p Hp. destruct (Hin p ltac:(lia)) as (e & He & Ht & Hpr).
  exists e. repeat split; auto. rewrite Hpr. unfold contribution.
  now destruct (knocked_out e).
Qed.

(** ** Positive prices *)

Lemma cumprod_from_pos (l : list R) :
  all_pos l -> forall acc, 0 < acc -> all_pos (cumprod_from acc l).
Proof.
  induction 1 as [|a t Ha _ IH]; intros acc Hacc; simpl; constructor.
  - now apply Rmult_lt_0_compat.
  - apply IH. now apply Rmult_lt_0_compat.
Qed.

Lemma vsum_pos (l : list R) : all_pos l -> l <> [] -> 0 < vsum l.
Proof.
  induction 1 as [|a t Ha Ht IH]; intros Hne; [congruence|].
  rewrite vsum_cons. destruct t as [|b t']; [simpl; lra|].
  assert (0 < vsum (b :: t')) by (apply IH; discriminate). lra.
Qed.

Lemma discount_sum_pos (c : Params) (x : list R) :
  0 < delta c -> x <> [] -> 0 < discount_sum c x.
Proof.
  intros Hd Hne. unfold discount_sum, discount_curve, cumprod.
  apply vsum_pos.
  - apply cumprod_from_pos; [|lra].
    unfold all_pos. rewrite !Forall_map. apply Forall_forall. intros a _.
    assert (H := exp_pos a). apply Rdiv_lt_0_compat; nra.
  - destruct x; [congruence | discriminate].
Qed.

(** With a strike K <= 0 every surviving path has a positive price. *)
Lemma contribution_pos (c : Params) (e : PathEnd) :
  0 < delta c -> 0 <= nth 0 (L0 c) 0 -> K c <= 0 ->
  knocked_out e = false -> end_logL e <> [] ->
  0 < contribution c e.
Proof.
  intros Hd HL HK Hko Hne. unfold contribution. rewrite Hko.
  assert (Hs := R_swap_pos (end_logL e) (delta c) Hd Hne).
  assert (Hds := discount_sum_pos c (end_logL e) Hd Hne).
  assert (Hp : 0 < P0_T0 c).
  { unfold P0_T0. apply Rdiv_lt_0_compat; nra. }
  assert (Hpay : 0 < payoff c (end_logL e)).
  { unfold payoff. apply Rmult_lt_0_compat; [exact Hd|].
    apply Rlt_le_trans with (R_swap (end_logL e) (delta c) - K c); [lra|].
    apply Rmax_l. }
  apply Rmult_lt_0_compat; [exact Hp|]. now apply Rmult_lt_0_compat.
Qed.

(** ** The divisor of the boundary zone *)

(** [state_at] lists the states the step loop goes through. *)
Lemma path_from_state_at (c : Params) (body : nat -> list R -> Step)
    (logL0 : list R) (k : nat) :
  forall logL todo,
  state_at body k logL0 = Some logL ->
  path_from c body (k + todo) 0 logL0 = path_from c body todo k logL.
Proof.
  induction k as [|k IH]; intros logL todo Hs.
  - injection Hs as <-. reflexivity.
  - cbn [state_at] in Hs.
    destruct (state_at body k logL0) as [x|] eqn:Hk; [|discriminate].
    destruct (body k x) as [x'| |] eqn:Hb; try discriminate.
    injection Hs as <-.
    replace (S k + todo)%nat with (k + S todo)%nat by lia.
    rewrite (IH x (S todo) eq_refl). cbn [path_from]. now rewrite Hb.
Qed.

Lemma h_pos (c : Params) : valid_market c -> 0 < h c.
Proof.
  intros (HN & HM & HT & _). unfold h. apply Rdiv_lt_0_compat; [exact HT|].
  apply lt_0_INR. lia.
Qed.

Lemma dist_nonneg (a b : list R) : 0 <= dist a b.
Proof. unfold dist, norm. apply sqrt_pos. Qed.


Lemma sigma_max_nonneg (c : Params) : valid_market c -> 0 <= sigma_max c.
Proof.
  intros (HN & _ & _ & _ & _ & _ & Hls & Hs & _). unfold sigma_max.
  assert (Hu := vmax_upper (sigma c)).
  destruct (sigma c) as [|s t]; [simpl in Hls; lia|].
  apply Forall_inv in Hs. apply Forall_inv in Hu. cbv beta in Hu.
  exact (Rle_trans _ _ _ Hs Hu).
Qed.

Lemma coarse_bound_pos (c : Params) :
  valid_market c -> 0 < sigma_max c -> 0 < coarse_bound c.
Proof.
  intros Hv Hs. assert (Hh := h_pos c Hv).
  destruct Hv as (HN & _). unfold coarse_bound.
  assert (H1 : 1 <= INR (N c)) by (change 1 with (INR 1); apply le_INR; lia).
  assert (Hq := sqrt_pos (h c * INR (N c))).
  assert (HA : 0 < sigma_max c ^ 2 * h c).
  { apply Rmult_lt_0_compat; [apply pow_lt; exact Hs | exact Hh]. }
  set (A := sigma_max c ^ 2 * h c) in *.
  assert (0 <= A * (INR (N c) - 1)) by (apply Rmult_le_pos; lra).
  assert (0 <= sigma_max c * sqrt (h c * INR (N c)))
    by (apply Rmult_le_pos; lra).
  replace (1 / 2 * sigma_max c ^ 2 * h c) with (1 / 2 * A) by (unfold A; ring).
  lra.
Qed.

Lemma lambda_k_pos (c : Params) :
  valid_market c -> 0 < sigma_max c -> 0 < lambda_k c.
Proof.
  intros Hv Hs. unfold lambda_k. apply Rmult_lt_0_compat.
  - apply sqrt_lt_R0. apply lt_0_INR. destruct Hv as (HN & _). lia.
  - now apply coarse_bound_pos.
Qed.


(** *** Zero volatility: the state never moves *)

Lemma vec_ext (a b : list R) :
  List.length a = List.length b ->
  (forall i, (i < List.length a)%nat -> nth i a 0 = nth i b 0) -> a = b.
Proof. intros Hl Hn. now apply (nth_ext a b 0 0). Qed.

Lemma drift_mat_length (c : Params) :
  List.length (sigma c) = N c -> List.length (drift_mat c) = N c.
Proof.
  intros Hs. unfold drift_mat, tril.
  now rewrite tril_from_length, full_mat_length.
Qed.

Lemma drift_vec_length (c : Params) (logL : list R) :
  List.length (sigma c) = N c -> List.length (drift_vec c logL) = N c.
Proof.
  intros Hs. unfold drift_vec, vsub, matvec.
  rewrite zipWith_length, !length_map, drift_mat_length by exact Hs. lia.
Qed.

Lemma diffusion_length (c : Params) (U : matrix) (x : list R) :
  List.length (sigma c) = N c -> List.length U = N c ->
  List.length (diffusion c U x) = N c.
Proof.
  intros Hs HU. unfold diffusion, vmul, matvec.
  rewrite zipWith_length, !length_map. lia.
Qed.


Lemma vsum_zero (f : nat -> R) (l : list nat) :
  (forall j, f j = 0) -> vsum (map f l) = 0.
Proof.
  intros Hf. induction l as [|a t IH]; simpl; [reflexivity|].
  fold (vsum (map f t)). rewrite IH, Hf. lra.
Qed.

Lemma zero_vol_drift (c : Params) (logL : list R) (i : nat) :
  zero_vol c -> List.length (sigma c) = N c -> List.length logL = N c ->
  (i < N c)%nat -> nth i (drift_vec c logL) 0 = 0.
Proof.
  intros Hz Hs Hl Hi. rewrite drift_vec_entry by assumption.
  rewrite (Hz i), vsum_zero.
  - ring.
  - intros j. unfold DriftMatrix. rewrite (Hz i).
    destruct (j <=? i)%nat; ring.
Qed.

Lemma zero_vol_diffusion (c : Params) (U : matrix) (x : list R) (i : nat) :
  zero_vol c -> List.length (sigma c) = N c -> List.length U = N c ->
  (i < N c)%nat -> nth i (diffusion c U x) 0 = 0.
Proof.
  intros Hz Hs HU Hi. unfold diffusion, vmul.
  rewrite nth_zipWith by (unfold matvec; rewrite ?length_map; lia).
  rewrite nth_map_R by lia. rewrite (Hz i). ring.
Qed.

Lemma zero_vol_euler (c : Params) (U : matrix) (logL x : list R) :
  zero_vol c -> List.length (sigma c) = N c -> List.length U = N c ->
  List.length logL = N c ->
  euler logL (drift_vec c logL) (diffusion c U x) = logL.
Proof.
  intros Hz Hs HU Hl.
  assert (Hdv := drift_vec_length c logL Hs).
  assert (Hdf := diffusion_length c U x Hs HU).
  assert (Hin : List.length (vadd (drift_vec c logL) (diffusion c U x)) = N c).
  { unfold vadd. rewrite zipWith_length. lia. }
  apply vec_ext.
  - unfold euler, vadd at 1. rewrite zipWith_length. lia.
  - intros i Hi. unfold euler, vadd at 1 in Hi. rewrite zipWith_length in Hi.
    unfold euler, vadd at 1. rewrite nth_zipWith by lia.
    unfold vadd. rewrite nth_zipWith by lia.
    rewrite zero_vol_drift, zero_vol_diffusion by (assumption || lia). ring.
Qed.

Lemma zero_vol_L_pert (c : Params) (L : list R) :
  zero_vol c -> List.length (sigma c) = N c -> List.length L = N c ->
  L_pert c L = L.
Proof.
  intros Hz Hs Hl.
  assert (Hdw : List.length (drift_worst c) = N c).
  { unfold drift_worst. rewrite zipWith_length, arange_length. lia. }
  assert (Hfw : List.length (diff_worst c) = N c).
  { unfold diff_worst. rewrite zipWith_length, arange_length. lia. }
  assert (Hin : List.length (vadd (drift_worst c) (diff_worst c)) = N c).
  { unfold vadd. rewrite zipWith_length. lia. }
  apply vec_ext.
  - unfold L_pert, vmul. rewrite zipWith_length, length_map. lia.
  - intros i Hi. unfold L_pert, vmul in Hi.
    rewrite zipWith_length, length_map in Hi.
    unfold L_pert, vmul. rewrite nth_zipWith by (rewrite ?length_map; lia).
    rewrite nth_map_R by lia. unfold vadd. rewrite nth_zipWith by lia.
    unfold drift_worst, diff_worst.
    rewrite !nth_zipWith by (rewrite ?arange_length; lia).
    rewrite (Hz i). ring.
Qed.

Lemma map_exp_ln (l : list R) :
  Forall (fun a => 0 < a) l -> map exp (map ln l) = l.
Proof.
  induction 1 as [|a t Ha _ IH]; simpl; [reflexivity|].
  now rewrite IH, exp_ln.
Qed.

Lemma zero_vol_fine_safe (c : Params) :
  valid_params c -> zero_vol c -> fine_safe c (map ln (L0 c)).
Proof.
  intros ((_ & _ & _ & _ & HlL & HL & Hls & _ & _) & Hbar) Hz.
  unfold fine_safe. rewrite map_exp_ln by exact HL.
  now rewrite zero_vol_L_pert.
Qed.


Lemma hot_valid : valid_params hot_params.
Proof.
  unfold valid_params, valid_market. cbn [N M T0 delta L0 sigma Rup hot_params].
  repeat split; try lia; try lra; try reflexivity.
  - repeat constructor; lra.
  - repeat constructor; lra.
  - change (map ln [1 / 20; 1 / 20]) with (repeat (ln (1 / 20)) 2).
    rewrite R_swap_constant by (lia || lra).
    rewrite exp_ln by lra. lra.
Qed.



(** ** A barrier breached at t = 0 *)

Lemma vle_intro (a b : list R) :
  List.length a = List.length b ->
  (forall i, (i < List.length a)%nat -> nth i a 0 <= nth i b 0) -> vle a b.
Proof.
  revert b. induction a as [|x a IH]; intros [|y b] Hl Hn; try discriminate.
  - constructor.
  - constructor.
    + apply (Hn 0%nat). simpl. lia.
    + apply IH; [simpl in Hl; lia|].
      intros i Hi. apply (Hn (S i)). simpl. lia.
Qed.

Lemma coarse_bound_nonneg (c : Params) : valid_market c -> 0 <= coarse_bound c.
Proof.
  intros Hv. destruct (sigma_max_nonneg c Hv) as [Hs|Hs].
  - left. now apply coarse_bound_pos.
  - unfold coarse_bound. rewrite <- Hs. simpl. lra.
Qed.

Lemma nth_nonneg (l : list R) (i : nat) :
  Forall (fun s => 0 <= s) l -> 0 <= nth i l 0.
Proof.
  intros H. destruct (Nat.lt_ge_cases i (List.length l)) as [Hi|Hi].
  - rewrite Forall_forall in H. apply H. now apply nth_In.
  - rewrite nth_overflow by lia. lra.
Qed.

Lemma nth_pos (l : list R) (i : nat) :
  Forall (fun s => 0 < s) l -> (i < List.length l)%nat -> 0 < nth i l 0.
Proof.
  intros H Hi. rewrite Forall_forall in H. apply H. now apply nth_In.
Qed.

(** The worst-case perturbed curve lies above the curve. *)
Lemma L_pert_above (c : Params) :
  valid_market c -> vle (map ln (L0 c)) (map ln (L_pert c (L0 c))).
Proof.
  intros Hv. assert (Hh := h_pos c Hv). assert (Hm := sigma_max_nonneg c Hv).
  destruct Hv as (HN & _ & _ & _ & HlL & HL & Hls & Hs & _).
  assert (Hdw : List.length (drift_worst c) = N c).
  { unfold drift_worst. rewrite zipWith_length, arange_length. lia. }
  assert (Hfw : List.length (diff_worst c) = N c).
  { unfold diff_worst. rewrite zipWith_length, arange_length. lia. }
  assert (Hin : List.length (vadd (drift_worst c) (diff_worst c)) = N c).
  { unfold vadd. rewrite zipWith_length. lia. }
  assert (Hlp : List.length (L_pert c (L0 c)) = N c).
  { unfold L_pert, vmul. rewrite zipWith_length, length_map. lia. }
  apply vle_intro; [now rewrite !length_map, Hlp|].
  intros i Hi. rewrite length_map, HlL in Hi.
  rewrite (nth_indep _ 0 (ln 0)) by (rewrite length_map; lia).
  rewrite (nth_indep (map ln (L_pert c (L0 c))) 0 (ln 0))
    by (rewrite length_map; lia).
  rewrite !map_nth.
  assert (Hli : 0 < nth i (L0 c) 0) by (apply nth_pos; [exact HL | lia]).
  assert (Hsi := nth_nonneg (sigma c) i Hs).
  unfold L_pert, vmul. rewrite nth_zipWith by (rewrite ?length_map; lia).
  rewrite nth_map_R by lia. unfold vadd. rewrite nth_zipWith by lia.
  unfold drift_worst, diff_worst.
  rewrite !nth_zipWith by (rewrite ?arange_length; lia).
  set (a := nth i (arange (N c)) 0).
  assert (Ha : 0 <= a).
  { unfold a, arange.
    rewrite (nth_indep _ 0 (INR 0)) by (rewrite length_map, length_seq; lia).
    rewrite map_nth. apply pos_INR. }
  assert (Hq := sqrt_pos ((INR (N c) - a) * h c)).
  assert (0 <= (a + 1) * nth i (sigma c) 0 * sigma_max c * h c).
  { apply Rmult_le_pos; [apply Rmult_le_pos; [apply Rmult_le_pos|]|]; lra. }
  assert (0 <= nth i (sigma c) 0 * sqrt ((INR (N c) - a) * h c))
    by (apply Rmult_le_pos; lra).
  set (t := (a + 1) * nth i (sigma c) 0 * sigma_max c * h c
            + nth i (sigma c) 0 * sqrt ((INR (N c) - a) * h c)) in *.
  assert (Ht : 0 <= t) by (unfold t; lra).
  destruct Ht as [Ht|<-].
  - left. apply ln_increasing; [exact Hli | nra].
  - right. f_equal. ring.
Qed.

(** When the barrier does not exceed the initial swap rate, the initial
    state fails both checks. *)
Lemma breached_start_unsafe (c : Params) :
  valid_market c -> Rup c <= R_swap (map ln (L0 c)) (delta c) ->
  ~ coarse_safe c (map ln (L0 c)) /\ ~ fine_safe c (map ln (L0 c)).
Proof.
  intros Hv Hb. assert (Hcb := coarse_bound_nonneg c Hv).
  assert (Hlp := L_pert_above c Hv).
  destruct Hv as (HN & _ & _ & Hd & HlL & HL & _ & _ & HR).
  assert (Hne : map ln (L0 c) <> []).
  { destruct (L0 c); [simpl in HlL; lia | discriminate]. }
  split.
  - unfold coarse_safe. apply Rle_not_lt.
    assert (Hm := R_swap_le_vmax (map ln (L0 c)) (delta c) Hd Hne).
    assert (ln (Rup c) <= vmax (map ln (L0 c))); [|lra].
    rewrite <- (ln_exp (vmax (map ln (L0 c)))).
    assert (Hle : Rup c <= exp (vmax (map ln (L0 c)))) by lra.
    destruct Hle as [Hlt|Heq]; [left; now apply ln_increasing | right; now rewrite Heq].
  - unfold fine_safe. apply Rle_not_lt.
    rewrite (map_exp_ln _ HL).
    apply Rle_trans with (R_swap (map ln (L0 c)) (delta c)); [exact Hb|].
    now apply R_swap_mono.
Qed.

(** C5, as amended. When Rup <= swapRate(L0, delta) nothing is raised at
    set-up: each path enters the step loop, fails both checks at step 0 and
    goes to the boundary-zone branch, where the projector is called; the
    path raises what the projector raises, is knocked out at step 0 when
    the uniform draw is below lambda_k/(dist + lambda_k), and goes on from
    the pulled state otherwise. *)
Theorem breached_barrier_enters_loop (c : Params) (U : matrix)
    (lbfgsb : Lbfgsb) (rnd : Draws) (p : nat) :
  valid_market c -> Rup c <= R_swap (map ln (L0 c)) (delta c) ->
  let logL := map ln (L0 c) in
  run_path c (step c U lbfgsb rnd) p
  = match project_to_barrier2 lbfgsb logL (delta c) (Rup c) with
    | inl e => inl (0%nat, e)
    | inr logL_pi =>
        if Rlt_dec (rand rnd p 0) (lambda_k c / (dist logL_pi logL + lambda_k c))
        then inr (mkPathEnd logL true 0)
        else path_from c (step c U lbfgsb rnd p) (M c - 1) 1
               (euler (pull c logL_pi logL) (drift_vec c logL)
                      (diffusion c U (xi rnd p 0)))
    end.
Proof.
  intros Hv Hb logL.
  destruct (breached_start_unsafe c Hv Hb) as [Hc Hf]. fold logL in Hc, Hf.
  destruct Hv as (_ & HM & _).
  unfold run_path. fold logL.
  destruct (M c) as [|m]; [lia|]. cbn [path_from].
  replace (S m - 1)%nat with m by lia.
  unfold step at 1. cbv zeta.
  fail_both_checks Hc Hf.
  destruct (project_to_barrier2 _ _ _ _) as [e|logL_pi]; [reflexivity|].
  destruct (Rlt_dec _ _); reflexivity.
Qed.

Lemma breached_valid_market : valid_market breached_params.
Proof.
  unfold valid_market. cbn [N M T0 delta L0 sigma Rup breached_params].
  repeat split; try lia; try lra; try reflexivity; repeat constructor; lra.
Qed.

Lemma breached_is_breached :
  Rup breached_params
  <= R_swap (map ln (L0 breached_params)) (delta breached_params).
Proof.
  cbn [Rup L0 delta breached_params].
  change (map ln [1 / 20; 1 / 20]) with (repeat (ln (1 / 20)) 2).
  rewrite R_swap_constant by (lia || lra). rewrite exp_ln by lra. lra.
Qed.

Lemma breached_barrier_enters_loop_witness :
  run_path breached_params
    (step breached_params (U2 r_hot) lbfgsb_fail (all_up 2)) 0
  = inl (0%nat, projection2_failed).
Proof.
  rewrite (breached_barrier_enters_loop breached_params (U2 r_hot) lbfgsb_fail
             (all_up 2) 0 breached_valid_market breached_is_breached).
  reflexivity.
Defined.

(** C5, as stated, fails on the code: with the barrier 0.04 below the
    initial swap rate 0.05, no error is raised at set-up.  With a failing
    optimizer the run ends with the projector's RuntimeError, raised inside
    the loop by path 0 at step 0; with a converging one and the draw u = 0
    the run completes and records path 0 as knocked out at step 0. *)
Lemma breached_config_runs :
  Rup breached_params
  <= R_swap (map ln (L0 breached_params)) (delta breached_params) /\
  first_run breached_params (U2 r_hot) lbfgsb_fail (all_up 2) 1
  = inl (0%nat, 0%nat, projection2_failed) /\
  exists s,
    first_run breached_params (U2 r_hot) lbfgsb_stay (all_up_u0 2) 1 = inr s /\
    run_path breached_params
      (step breached_params (U2 r_hot) lbfgsb_stay (all_up_u0 2)) 0
    = inr (mkPathEnd (map ln (L0 breached_params)) true 0) /\
    exit_times s = [0].
Proof.
  assert (Hv := breached_valid_market). assert (Hb := breached_is_breached).
  destruct (breached_start_unsafe _ Hv Hb) as [Hc Hf].
  split; [exact Hb|]. split.
  - unfold first_run, mc_loop. cbn [paths_from].
    unfold run_path. cbn [M breached_params path_from].
    unfold step. cbv zeta.
    fail_both_checks Hc Hf.
    reflexivity.
  - assert (Hp : run_path breached_params
             (step breached_params (U2 r_hot) lbfgsb_stay (all_up_u0 2)) 0
           = inr (mkPathEnd (map ln (L0 breached_params)) true 0)).
    { unfold run_path. cbn [M breached_params path_from].
      unfold step. cbv zeta.
      fail_both_checks Hc Hf.
      cbn [project_to_barrier2 map L0 breached_params lbfgsb_stay
           res_success res_x].
      destruct (Rlt_dec _ _) as [_|Hn]; [reflexivity|].
      exfalso. apply Hn. cbn [rand all_up_u0].
      assert (Hl : 0 < lambda_k breached_params).
      { apply lambda_k_pos; [exact Hv|].
        unfold sigma_max. cbn [sigma breached_params vmax fold_left].
        rewrite Rmax_left; lra. }
      apply Rdiv_lt_0_compat; [exact Hl|].
      assert (Hd := dist_nonneg
        (logLpi_of_tail (delta breached_params) (Rup breached_params)
           [ln (1 / 20)]) [ln (1 / 20); ln (1 / 20)]).
      lra. }
    exists (record_path breached_params 0
              (mkPathEnd (map ln (L0 breached_params)) true 0) (init_store 1)).
    split; [|split; [exact Hp|]].
    + unfold first_run, mc_loop. cbn [paths_from]. rewrite Hp. reflexivity.
    + cbn. f_equal. lra.
Qed.

(** ** First and second moments of the diffusion increment *)

Lemma vsum_map_plus {A} (f g : A -> R) (l : list A) :
  vsum (map (fun x => f x + g x) l) = vsum (map f l) + vsum (map g l).
Proof.
  induction l as [|a t IH]; simpl; [lra|].
  fold (vsum (map (fun x => f x + g x) t)) (vsum (map f t)) (vsum (map g t)).
  rewrite IH. lra.
Qed.

Lemma vsum_map_scale {A} (k : R) (f : A -> R) (l : list A) :
  vsum (map (fun x => k * f x) l) = k * vsum (map f l).
Proof.
  induction l as [|a t IH]; simpl; [lra|].
  fold (vsum (map (fun x => k * f x) t)) (vsum (map f t)).
  rewrite IH. lra.
Qed.

Lemma vsum_map_const {A} (k : R) (l : list A) :
  vsum (map (fun _ => k) l) = k * INR (List.length l).
Proof.
  induction l as [|a t IH]; [simpl; lra|].
  cbn [map List.length]. rewrite vsum_cons, IH, S_INR. lra.
Qed.

Lemma sign_vectors_count (n : nat) :
  INR (List.length (sign_vectors n)) = 2 ^ n.
Proof.
  induction n as [|n IH]; [simpl; lra|].
  cbn [sign_vectors]. rewrite length_app, !length_map, plus_INR, IH.
  simpl. lra.
Qed.

Lemma vsum_sign_split (f : list R -> R) (n : nat) :
  vsum (map f (sign_vectors (S n)))
  = vsum (map (fun x => f (-1 :: x) + f (1 :: x)) (sign_vectors n)).
Proof.
  cbn [sign_vectors]. rewrite map_app, vsum_app, !map_map.
  now rewrite <- vsum_map_plus.
Qed.

Lemma dot_cons (a x : R) (u v : list R) :
  dot (a :: u) (x :: v) = a * x + dot u v.
Proof. reflexivity. Qed.

(** The shocks have mean zero... *)
Lemma sum_dot_signs (n : nat) :
  forall a, List.length a = n ->
  vsum (map (fun x => dot a x) (sign_vectors n)) = 0.
Proof.
  induction n as [|n IH]; intros [|a0 a] Ha; try discriminate.
  - simpl. unfold dot. simpl. lra.
  - rewrite vsum_sign_split.
    rewrite (map_ext _ (fun x => 2 * dot a x))
      by (intros x; rewrite !dot_cons; ring).
    rewrite vsum_map_scale, IH by (simpl in Ha; lia). ring.
Qed.

(** ... and are uncorrelated with unit variance. *)
Lemma sum_dot2_signs (n : nat) :
  forall a b, List.length a = n -> List.length b = n ->
  vsum (map (fun x => dot a x * dot b x) (sign_vectors n)) = 2 ^ n * dot a b.
Proof.
  induction n as [|n IH]; intros [|a0 a] [|b0 b] Ha Hb; try discriminate.
  - simpl. unfold dot. simpl. lra.
  - rewrite vsum_sign_split.
    rewrite (map_ext _ (fun x => 2 * (a0 * b0) + 2 * (dot a x * dot b x)))
      by (intros x; rewrite !dot_cons; ring).
    rewrite vsum_map_plus, vsum_map_const, vsum_map_scale, sign_vectors_count.
    rewrite IH by (simpl in Ha, Hb; lia).
    rewrite dot_cons. simpl. ring.
Qed.

Lemma pow2_pos (n : nat) : 0 < 2 ^ n.
Proof. apply pow_lt. lra. Qed.

Lemma expectation_dot (n : nat) (k : R) (a : list R) :
  List.length a = n -> expectation n (fun x => k * dot a x) = 0.
Proof.
  intros Ha. unfold expectation.
  rewrite vsum_map_scale, sum_dot_signs by exact Ha.
  unfold Rdiv. ring.
Qed.

Lemma expectation_dot2 (n : nat) (k l : R) (a b : list R) :
  List.length a = n -> List.length b = n ->
  expectation n (fun x => k * dot a x * (l * dot b x)) = k * l * dot a b.
Proof.
  intros Ha Hb. unfold expectation.
  rewrite (map_ext _ (fun x => k * l * (dot a x * dot b x)))
    by (intros x; ring).
  rewrite vsum_map_scale, sum_dot2_signs by assumption.
  assert (H := pow2_pos n). field. lra.
Qed.

Lemma covariance_dot (n : nat) (k l : R) (a b : list R) :
  List.length a = n -> List.length b = n ->
  covariance n (fun x => k * dot a x) (fun x => l * dot b x) = k * l * dot a b.
Proof.
  intros Ha Hb. unfold covariance.
  rewrite expectation_dot2, !expectation_dot by assumption. ring.
Qed.

Lemma nth_matvec (A : matrix) (x : list R) (i : nat) :
  (i < List.length A)%nat -> nth i (matvec A x) 0 = dot (nth i A []) x.
Proof.
  intros Hi. unfold matvec.
  rewrite (nth_indep _ 0 (dot [] x)) by (rewrite length_map; exact Hi).
  apply (map_nth (fun row => dot row x)).
Qed.

Lemma square_row_length (n : nat) (A : matrix) (i : nat) :
  square n A -> (i < n)%nat -> List.length (nth i A []) = n.
Proof.
  intros [Hl Hr] Hi. rewrite Forall_forall in Hr. apply Hr.
  apply nth_In. lia.
Qed.

Lemma covariance_ext (n : nat) (f f' g g' : list R -> R) :
  (forall x, f x = f' x) -> (forall x, g x = g' x) ->
  covariance n f g = covariance n f' g'.
Proof.
  intros Hf Hg. unfold covariance, expectation.
  rewrite (map_ext f f' Hf), (map_ext g g' Hg).
  now rewrite (map_ext (fun x => f x * g x) (fun x => f' x * g' x))
    by (intros x; now rewrite Hf, Hg).
Qed.

(** The covariance of the increment the path loop applies: rows of U are
    contracted, so it is h sigma_i sigma_j (U U^T)_ij. *)
Lemma diffusion_cov_rows (c : Params) (U : matrix) (i j : nat) :
  0 <= h c -> List.length (sigma c) = N c -> square (N c) U ->
  (i < N c)%nat -> (j < N c)%nat ->
  diffusion_cov c U i j
  = h c * nth i (sigma c) 0 * nth j (sigma c) 0
    * dot (nth i U []) (nth j U []).
Proof.
  intros Hh Hs HU Hi Hj. unfold diffusion_cov.
  assert (Hd : forall m, (m < N c)%nat -> forall x,
             nth m (diffusion c U x) 0
             = nth m (sigma c) 0 * sqrt (h c) * dot (nth m U []) x).
  { intros m Hm x. unfold diffusion, vmul. destruct HU as [HlU _].
    rewrite nth_zipWith by (unfold matvec; rewrite ?length_map; lia).
    rewrite nth_map_R, nth_matvec by lia. reflexivity. }
  rewrite (covariance_ext _ _ _ _ _ (Hd i Hi) (Hd j Hj)).
  rewrite covariance_dot by (apply square_row_length; assumption).
  assert (Hq : sqrt (h c) * sqrt (h c) = h c) by (apply sqrt_sqrt; exact Hh).
  rewrite <- Hq at 3. ring.
Qed.

Lemma transpose_row (n : nat) (A : matrix) (i : nat) :
  (i < n)%nat -> nth i (transpose n A) [] = column A i.
Proof.
  intros Hi. unfold transpose.
  rewrite (nth_map_row _ _ i 0%nat) by (rewrite length_seq; exact Hi).
  now rewrite seq_nth.
Qed.

Lemma transpose_square (n : nat) (A : matrix) :
  List.length A = n -> square n (transpose n A).
Proof.
  intros Hl. unfold square, transpose. rewrite length_map, length_seq.
  split; [reflexivity|]. rewrite Forall_map. apply Forall_forall.
  intros j _. unfold column. now rewrite length_map.
Qed.

(** With U^T, as the specification has it, the covariance is
    h sigma_i sigma_j rho_ij for the upper Cholesky factor of rho. *)
Lemma diffusion_spec_cov_rho (c : Params) (U : matrix) (i j : nat) :
  0 <= h c -> List.length (sigma c) = N c ->
  cholesky_upper (N c) (rho c) U ->
  (i < N c)%nat -> (j < N c)%nat ->
  diffusion_spec_cov c U i j
  = h c * nth i (sigma c) 0 * nth j (sigma c) 0 * entry (rho c) i j.
Proof.
  intros Hh Hs (HlU & HrU & _ & _ & Hfac) Hi Hj.
  assert (Hsq := transpose_square (N c) U HlU).
  change (diffusion_spec_cov c U i j)
    with (diffusion_cov c (transpose (N c) U) i j).
  rewrite diffusion_cov_rows by assumption.
  rewrite !transpose_row by assumption.
  now rewrite Hfac.
Qed.

Lemma r_hot_bounds : 0 < r_hot < 1.
Proof.
  unfold r_hot. split; [apply exp_pos|].
  apply Rlt_le_trans with (exp 0); [apply exp_increasing; lra|].
  rewrite exp_0. lra.
Qed.

Lemma decay_0 (b x : R) : x = 0 -> exp (- b * Rabs x) = 1.
Proof. intros ->. rewrite Rabs_R0, Rmult_0_r. apply exp_0. Qed.

Lemma decay_1 (x : R) : x = 1 \/ x = - (1) -> exp (- (1 / 10) * Rabs x) = r_hot.
Proof.
  intros [-> | ->]; unfold r_hot; f_equal.
  - rewrite Rabs_R1. ring.
  - rewrite Rabs_Ropp, Rabs_R1. ring.
Qed.

Lemma hot_rho : rho hot_params = [[1; r_hot]; [r_hot; 1]].
Proof.
  unfold rho, times, arange. cbn [N hot_params seq map T0 delta beta INR].
  rewrite (decay_0 _ (0 * 1 + 1 - (1 + 1) * 1 - (0 * 1 + 1 - (1 + 1) * 1)))
    by ring.
  rewrite (decay_0 _ (1 * 1 + 1 - (1 + 1) * 1 - (1 * 1 + 1 - (1 + 1) * 1)))
    by ring.
  rewrite (decay_1 (0 * 1 + 1 - (1 + 1) * 1 - (1 * 1 + 1 - (1 + 1) * 1)))
    by (right; ring).
  rewrite (decay_1 (1 * 1 + 1 - (1 + 1) * 1 - (0 * 1 + 1 - (1 + 1) * 1)))
    by (left; ring).
  reflexivity.
Qed.

Lemma hot_cholesky : cholesky_upper 2 (rho hot_params) (U2 r_hot).
Proof.
  assert (Hr := r_hot_bounds).
  assert (Hpos : 0 < 1 - r_hot * r_hot) by nra.
  assert (Hq : sqrt (1 - r_hot * r_hot) * sqrt (1 - r_hot * r_hot)
               = 1 - r_hot * r_hot) by (apply sqrt_sqrt; lra).
  rewrite hot_rho. unfold cholesky_upper, U2.
  split; [reflexivity|]. split; [repeat constructor|]. split; [|split].
  - intros i j Hij. assert (i = 1%nat /\ j = 0%nat) as [-> ->] by lia.
    reflexivity.
  - intros i Hi. assert (i = 0%nat \/ i = 1%nat) as [-> | ->] by lia;
      unfold entry; cbn [nth]; [lra | now apply sqrt_lt_R0].
  - intros i j Hi Hj.
    assert (i = 0%nat \/ i = 1%nat) as [-> | ->] by lia;
    assert (j = 0%nat \/ j = 1%nat) as [-> | ->] by lia;
    unfold column, entry, dot, vmul; cbn [map nth zipWith vsum fold_right];
    try rewrite Hq; ring.
Qed.

Lemma hot_square : square 2 (U2 r_hot).
Proof. split; [reflexivity | repeat constructor]. Qed.

(** C3. For N = 2, delta = 1, beta = 0.1, sigma = (0.5, 0.5) and h = 1,
    with U the upper Cholesky factor of rho (rho = U^T U): on the draw
    xi = (1, 1) the path loop's increment, built from U xi, has first entry
    0.5 (1 + r) where sigma sqrt(h) (U^T xi) has 0.5; the variance of the
    first entry of the loop's increment is h sigma_0^2 (1 + r^2), above
    h sigma_0^2 rho_00; the increment with U^T has covariance
    h sigma_i sigma_j rho_ij for every pair (i, j). *)
Theorem diffusion_contracts_rows_of_U :
  cholesky_upper 2 (rho hot_params) (U2 r_hot) /\
  nth 0 (diffusion hot_params (U2 r_hot) [1; 1]) 0 = 1 / 2 * (1 + r_hot) /\
  nth 0 (diffusion_spec hot_params (U2 r_hot) [1; 1]) 0 = 1 / 2 /\
  diffusion_cov hot_params (U2 r_hot) 0 0
  = h hot_params * (1 / 2) * (1 / 2) * (1 + r_hot * r_hot) /\
  diffusion_cov hot_params (U2 r_hot) 0 0
  > h hot_params * nth 0 (sigma hot_params) 0 * nth 0 (sigma hot_params) 0
    * entry (rho hot_params) 0 0 /\
  forall i j, (i < 2)%nat -> (j < 2)%nat ->
    diffusion_spec_cov hot_params (U2 r_hot) i j
    = h hot_params * nth i (sigma hot_params) 0 * nth j (sigma hot_params) 0
      * entry (rho hot_params) i j.
Proof.
  assert (Hr := r_hot_bounds). assert (Hh := hot_h).
  assert (Hcov : diffusion_cov hot_params (U2 r_hot) 0 0
                 = h hot_params * (1 / 2) * (1 / 2) * (1 + r_hot * r_hot)).
  { rewrite diffusion_cov_rows;
      [| rewrite Hh; lra | reflexivity | exact hot_square
       | cbn; lia | cbn; lia].
    cbn [sigma hot_params nth U2]. unfold dot, vmul.
    cbn [zipWith vsum fold_right]. ring. }
  split; [exact hot_cholesky|]. split; [|split; [|split; [exact Hcov|split]]].
  - unfold diffusion, vmul, matvec, dot, U2. rewrite Hh, sqrt_1.
    cbn [sigma hot_params map zipWith vsum fold_right nth].
    unfold vmul. cbn [zipWith vsum fold_right]. ring.
  - unfold diffusion_spec, vmul, matvec, transpose, column, dot, U2.
    rewrite Hh, sqrt_1.
    cbn [N sigma hot_params seq map zipWith vsum fold_right nth].
    unfold vmul. cbn [zipWith vsum fold_right]. ring.
  - rewrite Hcov, hot_rho, Hh. unfold entry.
    cbn [sigma hot_params nth]. nra.
  - intros i j Hi Hj. apply diffusion_spec_cov_rho.
    + rewrite Hh. lra.
    + reflexivity.
    + exact hot_cholesky.
    + exact Hi.
    + exact Hj.
Qed.

(** ** A projection failure at a later site: [warm_params] *)

Lemma warm_h : h warm_params = 1 / 2.
Proof. unfold h. cbn [T0 M warm_params INR]. lra. Qed.

Lemma warm_sigma_max : sigma_max warm_params = 1 / 5.
Proof.
  unfold sigma_max. cbn [sigma warm_params vmax fold_left].
  apply Rmax_left. lra.
Qed.

Lemma warm_coarse_bound : coarse_bound warm_params = 23 / 100.
Proof.
  unfold coarse_bound. rewrite warm_sigma_max, warm_h. cbn [N warm_params INR].
  replace (1 / 2 * (1 + 1)) with 1 by lra. rewrite sqrt_1. lra.
Qed.

Lemma r_warm_bounds : 0 < r_warm <= 1 / 11.
Proof.
  unfold r_warm. split; [apply exp_pos|].
  rewrite exp_Ropp. assert (H := exp_ineq1_le 10).
  assert (Hp := exp_pos 10).
  apply Rmult_le_reg_r with (exp 10); [exact Hp|].
  rewrite Rinv_l by lra. lra.
Qed.

Lemma sqrt_half_bounds : 7 / 10 <= sqrt (1 / 2) <= 71 / 100.
Proof. split; [apply sqrt_lower | apply sqrt_upper]; lra. Qed.

Lemma sqrt_r_warm_bounds : 99 / 100 <= sqrt (1 - r_warm * r_warm) <= 1.
Proof.
  assert (Hr := r_warm_bounds).
  split; [apply sqrt_lower | apply sqrt_upper]; nra.
Qed.

Lemma decay_10 (x : R) : x = 1 \/ x = - (1) -> exp (- (10) * Rabs x) = r_warm.
Proof.
  intros [-> | ->]; unfold r_warm; f_equal.
  - rewrite Rabs_R1. ring.
  - rewrite Rabs_Ropp, Rabs_R1. ring.
Qed.

Lemma warm_rho : rho warm_params = [[1; r_warm]; [r_warm; 1]].
Proof.
  unfold rho, times, arange. cbn [N warm_params seq map T0 delta beta INR].
  rewrite (decay_0 _ (0 * 1 + 1 - (1 + 1) * 1 - (0 * 1 + 1 - (1 + 1) * 1)))
    by ring.
  rewrite (decay_0 _ (1 * 1 + 1 - (1 + 1) * 1 - (1 * 1 + 1 - (1 + 1) * 1)))
    by ring.
  rewrite (decay_10 (0 * 1 + 1 - (1 + 1) * 1 - (1 * 1 + 1 - (1 + 1) * 1)))
    by (right; ring).
  rewrite (decay_10 (1 * 1 + 1 - (1 + 1) * 1 - (0 * 1 + 1 - (1 + 1) * 1)))
    by (left; ring).
  reflexivity.
Qed.

Lemma list2 (l : list R) :
  List.length l = 2%nat -> l = [nth 0 l 0; nth 1 l 0].
Proof.
  destruct l as [|a [|b [|? ?]]]; simpl; intros H; try discriminate.
  reflexivity.
Qed.

Lemma warm_drift :
  drift_vec warm_params hot_logL0
  = [1 / 1050 - 1 / 100; (1 + r_warm) / 1050 - 1 / 100].
Proof.
  assert (He : exp (ln (1 / 20)) = 1 / 20) by (apply exp_ln; lra).
  assert (Hv : forall j, (j < 2)%nat -> v_at warm_params hot_logL0 j = 1 / 21).
  { intros j Hj. unfold v_at, hot_logL0. cbn [delta warm_params].
    assert (j = 0%nat \/ j = 1%nat) as [-> | ->] by lia;
      cbn [nth]; rewrite He; field. }
  rewrite (list2 (drift_vec warm_params hot_logL0))
    by (now rewrite drift_vec_length).
  rewrite !drift_vec_entry by (reflexivity || (cbn; lia)).
  cbn [N warm_params seq map vsum fold_right].
  rewrite !Hv by lia. unfold DriftMatrix. rewrite warm_rho, warm_h.
  unfold entry. cbn [Nat.leb nth sigma warm_params].
  f_equal; [|f_equal]; field.
Qed.

Lemma warm_diffusion (s0 s1 : R) :
  diffusion warm_params (U2 r_warm) [s0; s1]
  = [1 / 5 * sqrt (1 / 2) * (s0 + r_warm * s1);
     1 / 5 * sqrt (1 / 2) * (sqrt (1 - r_warm * r_warm) * s1)].
Proof.
  unfold diffusion, matvec, U2, dot. rewrite warm_h.
  cbn [sigma warm_params map]. unfold vmul. cbn [zipWith vsum fold_right].
  f_equal; [|f_equal]; ring.
Qed.

Lemma warm_logL0 : map ln (L0 warm_params) = hot_logL0.
Proof. reflexivity. Qed.

(** States at or below the initial one pass the coarse check. *)
Lemma warm_coarse_safe_below (y0 y1 : R) :
  y0 <= ln (1 / 20) -> y1 <= ln (1 / 20) -> coarse_safe warm_params [y0; y1].
Proof.
  intros H0 H1. unfold coarse_safe. rewrite warm_coarse_bound.
  cbn [vmax fold_left Rup warm_params].
  assert (Hm : Rmax y0 y1 <= ln (1 / 20)) by (apply Rmax_lub; assumption).
  replace (13 / 200) with ((13 / 10) * (1 / 20)) by lra.
  rewrite ln_mult by lra.
  assert (H := ln_le_minus_1 (10 / 13)).
  replace (10 / 13) with (/ (13 / 10)) in H by lra.
  rewrite ln_Rinv in H by lra. lra.
Qed.

(** States 0.128 above the initial one in every coordinate fail both
    checks. *)
Lemma warm_unsafe_above (y0 y1 : R) :
  ln (1 / 20) + 16 / 125 <= y0 -> ln (1 / 20) + 16 / 125 <= y1 ->
  ~ coarse_safe warm_params [y0; y1] /\ ~ fine_safe warm_params [y0; y1].
Proof.
  intros H0 H1. split.
  - unfold coarse_safe. rewrite warm_coarse_bound.
    cbn [vmax fold_left Rup warm_params].
    assert (Hm := Rmax_l y0 y1).
    replace (13 / 200) with ((13 / 10) * (1 / 20)) by lra.
    rewrite ln_mult by lra.
    assert (H := ln_le_minus_1 (13 / 10)). lra.
  - unfold fine_safe. apply Rle_not_lt. cbn [Rup delta warm_params].
    rewrite <- (exp_ln (13 / 200)) at 1 by lra.
    assert (Hq := sqrt_half_bounds).
    assert (He : forall y, ln (1 / 20) + 16 / 125 <= y ->
                 1 / 20 * (1 + 16 / 125) <= exp y).
    { intros y Hy.
      apply Rle_trans with (exp (ln (1 / 20) + 16 / 125)).
      - rewrite exp_plus, exp_ln by lra.
        assert (Hx := exp_ineq1_le (16 / 125)). nra.
      - destruct Hy as [Hy | <-]; [left; now apply exp_increasing | lra]. }
    assert (He0 := He y0 H0). assert (He1 := He y1 H1).
    unfold L_pert, drift_worst, diff_worst, arange, vmul, vadd.
    rewrite warm_sigma_max, warm_h.
    cbn [zipWith map seq sigma N warm_params INR].
    replace ((1 + 1 - 0) * (1 / 2)) with 1 by lra. rewrite sqrt_1.
    replace ((1 + 1 - 1) * (1 / 2)) with (1 / 2) by lra.
    apply R_swap_ge_flat; [lra | discriminate |].
    constructor; [|constructor; [|constructor]].
    + left. apply ln_increasing; nra.
    + left. apply ln_increasing; nra.
Qed.

(** *** How an exception leaves the loops *)

Lemma step_coarse (c : Params) (U : matrix) (lbfgsb : Lbfgsb) (rnd : Draws)
    (p k : nat) (logL : list R) :
  coarse_safe c logL ->
  step c U lbfgsb rnd p k logL
  = Continue (euler logL (drift_vec c logL) (diffusion c U (xi rnd p k))).
Proof.
  intros Hc. unfold step. cbv zeta.
  destruct (Rlt_dec _ _) as [_|Hn]; [reflexivity | exfalso; exact (Hn Hc)].
Qed.

Lemma project2_failure (lbfgsb : Lbfgsb) (logL : list R) (delta Rup : R) :
  logL <> [] ->
  res_success (lbfgsb (objective logL delta Rup) (tl logL)) = false ->
  project_to_barrier2 lbfgsb logL delta Rup
  = inl (RuntimeError
           ("Projection2 failed: "
            ++ res_message (lbfgsb (objective logL delta Rup) (tl logL)))).
Proof.
  intros Hne Hf. destruct logL as [|a y]; [congruence|].
  unfold project_to_barrier2. cbn [tl] in Hf. now rewrite Hf.
Qed.

Lemma step_raise (c : Params) (U : matrix) (lbfgsb : Lbfgsb) (rnd : Draws)
    (p k : nat) (logL : list R) (e : Exn) :
  ~ coarse_safe c logL -> ~ fine_safe c logL ->
  project_to_barrier2 lbfgsb logL (delta c) (Rup c) = inl e ->
  step c U lbfgsb rnd p k logL = Raise e /\
  step_half c U lbfgsb rnd p k logL = Raise e.
Proof.
  intros Hc Hf Hp. unfold step, step_half. cbv zeta.
  fail_both_checks Hc Hf.
  now rewrite Hp.
Qed.

(** An exception raised by the body at step [k] ends the path there... *)
Lemma run_path_raise (c : Params) (body : nat -> nat -> list R -> Step)
    (p k : nat) (logL : list R) (e : Exn) :
  (k < M c)%nat ->
  state_at (body p) k (map ln (L0 c)) = Some logL ->
  body p k logL = Raise e ->
  run_path c body p = inl (k, e).
Proof.
  intros Hk Hs Hb. unfold run_path.
  replace (M c) with (k + S (M c - S k))%nat by lia.
  rewrite (path_from_state_at c (body p) _ k logL _ Hs).
  cbn [path_from]. now rewrite Hb.
Qed.

(** ... and ends the loop over the paths: no later path runs and no store
    is returned. *)
Lemma paths_from_raise (c : Params) (body : nat -> nat -> list R -> Step)
    (p k : nat) (e : Exn) :
  run_path c body p = inl (k, e) ->
  forall todo q s,
  (q <= p < q + todo)%nat ->
  (forall q', (q <= q' < p)%nat -> exists pe, run_path c body q' = inr pe) ->
  paths_from c body todo q s = inl (p, k, e).
Proof.
  intros Hp. induction todo as [|todo IH]; intros q s Hq Hprev; [lia|].
  cbn [paths_from]. destruct (Nat.eq_dec q p) as [->|Hne].
  - now rewrite Hp.
  - destruct (Hprev q ltac:(lia)) as [pe ->].
    apply IH; [lia|]. intros q' Hq'. apply Hprev. lia.
Qed.

(** C8, as amended. Whenever a path of either loop is at a state where both
    checks are inconclusive and L-BFGS-B reports failure there, while the
    paths before it ended without an exception, the loop over the paths
    ends at once with the projector's exception: no store, hence no price,
    is returned.  The exception is RuntimeError with the message
    "Projection2 failed: " followed by the optimizer's message; it holds
    neither the path index nor the step index (the pair returned with it
    below only records where the loop stood). *)
Theorem projection_failure_is_fatal (c : Params) (U : matrix)
    (lbfgsb : Lbfgsb) (rnd : Draws) (n_paths : nat) (s0 : Store)
    (p k : nat) (logL : list R) :
  let res := lbfgsb (objective logL (delta c) (Rup c)) (tl logL) in
  let e := RuntimeError ("Projection2 failed: " ++ res_message res) in
  (p < n_paths)%nat -> (k < M c)%nat -> logL <> [] ->
  ~ coarse_safe c logL -> ~ fine_safe c logL ->
  res_success res = false ->
  (state_at (step c U lbfgsb rnd p) k (map ln (L0 c)) = Some logL ->
   (forall q, (q < p)%nat ->
      exists pe, run_path c (step c U lbfgsb rnd) q = inr pe) ->
   mc_loop c (step c U lbfgsb rnd) n_paths s0 = inl (p, k, e)) /\
  (state_at (step_half c U lbfgsb rnd p) k (map ln (L0 c)) = Some logL ->
   (forall q, (q < p)%nat ->
      exists pe, run_path c (step_half c U lbfgsb rnd) q = inr pe) ->
   mc_loop c (step_half c U lbfgsb rnd) n_paths s0 = inl (p, k, e)).
Proof.
  intros res e Hp Hk Hne Hc Hf Hfail.
  assert (Hproj := project2_failure lbfgsb logL (delta c) (Rup c) Hne Hfail).
  destruct (step_raise c U lbfgsb rnd p k logL _ Hc Hf Hproj) as [H1 H2].
  split; intros Hst Hprev; unfold mc_loop;
    apply paths_from_raise; try lia;
    try (apply (run_path_raise c _ p k logL); assumption);
    intros q' Hq'; apply Hprev; lia.
Qed.

Lemma hot_project_fail :
  project_to_barrier2 lbfgsb_fail hot_logL0 (delta hot_params) (Rup hot_params)
  = inl projection2_failed.
Proof. reflexivity. Qed.

Lemma projection_failure_is_fatal_witness :
  mc_loop hot_params (step hot_params (U2 r_hot) lbfgsb_fail (all_up 2)) 1
    (init_store 1)
  = inl (0%nat, 0%nat,
         RuntimeError ("Projection2 failed: " ++ "ABNORMAL_TERMINATION_IN_LNSRCH")).
Proof.
  apply (projection_failure_is_fatal hot_params (U2 r_hot) lbfgsb_fail
           (all_up 2) 1 (init_store 1) 0 0 hot_logL0).
  - lia.
  - cbn. lia.
  - discriminate.
  - exact hot_not_coarse_safe.
  - exact hot_not_fine_safe.
  - reflexivity.
  - reflexivity.
  - intros q Hq. lia.
Defined.

(** *** Two failures, one exception *)

Lemma warm_project_fail (y0 y1 : R) :
  project_to_barrier2 lbfgsb_fail [y0; y1] (delta warm_params) (Rup warm_params)
  = inl projection2_failed.
Proof. reflexivity. Qed.

Lemma warm_start_safe : coarse_safe warm_params hot_logL0.
Proof. apply warm_coarse_safe_below; lra. Qed.

Lemma warm_step0 (lbfgsb : Lbfgsb) (rnd : Draws) (p : nat) (s : R) :
  xi rnd p 0%nat = [s; s] ->
  step warm_params (U2 r_warm) lbfgsb rnd p 0 hot_logL0
  = Continue (warm_next s).
Proof.
  intros Hxi. rewrite step_coarse by exact warm_start_safe.
  rewrite Hxi, warm_drift, warm_diffusion. reflexivity.
Qed.

Lemma warm_up_unsafe :
  ~ coarse_safe warm_params (warm_next 1) /\
  ~ fine_safe warm_params (warm_next 1).
Proof.
  assert (Hr := r_warm_bounds). assert (Hq := sqrt_half_bounds).
  assert (Hs := sqrt_r_warm_bounds).
  apply warm_unsafe_above; nra.
Qed.

Lemma warm_down_safe : coarse_safe warm_params (warm_next (- 1)).
Proof.
  assert (Hr := r_warm_bounds). assert (Hq := sqrt_half_bounds).
  assert (Hs := sqrt_r_warm_bounds).
  apply warm_coarse_safe_below; nra.
Qed.

(** A path sent up fails at step 1; a path sent down survives. *)
Lemma warm_path_up (rnd : Draws) (p : nat) :
  xi rnd p 0%nat = [1; 1] ->
  run_path warm_params (step warm_params (U2 r_warm) lbfgsb_fail rnd) p
  = inl (1%nat, projection2_failed).
Proof.
  intros Hxi. destruct warm_up_unsafe as [Hc Hf].
  apply (run_path_raise _ _ p 1 (warm_next 1)).
  - cbn. lia.
  - cbn [state_at]. rewrite warm_logL0, (warm_step0 _ _ _ 1 Hxi). reflexivity.
  - apply step_raise; [exact Hc | exact Hf | apply warm_project_fail].
Qed.

Lemma warm_path_down (rnd : Draws) (p : nat) :
  xi rnd p 0%nat = [-1; -1] ->
  exists pe,
    run_path warm_params (step warm_params (U2 r_warm) lbfgsb_fail rnd) p
    = inr pe.
Proof.
  intros Hxi. unfold run_path. rewrite warm_logL0.
  cbn [M warm_params path_from].
  rewrite (warm_step0 _ _ _ (-1) Hxi).
  rewrite step_coarse by exact warm_down_safe.
  eexists. reflexivity.
Qed.

(** C8, as stated, fails on the code: a run that fails at path 0, step 0
    and a run that fails at path 1, step 1 end with the very same
    exception, RuntimeError("Projection2 failed:
    ABNORMAL_TERMINATION_IN_LNSRCH"), so the exception tells neither the
    path nor the step. *)
Lemma failure_sites_share_exception :
  first_run hot_params (U2 r_hot) lbfgsb_fail (all_up 2) 1
  = inl (0%nat, 0%nat, projection2_failed) /\
  first_run warm_params (U2 r_warm) lbfgsb_fail down_then_up 2
  = inl (1%nat, 1%nat, projection2_failed) /\
  raised (first_run hot_params (U2 r_hot) lbfgsb_fail (all_up 2) 1)
  = raised (first_run warm_params (U2 r_warm) lbfgsb_fail down_then_up 2).
Proof.
  assert (H1 : first_run hot_params (U2 r_hot) lbfgsb_fail (all_up 2) 1
               = inl (0%nat, 0%nat, projection2_failed)).
  { unfold first_run, mc_loop. apply paths_from_raise.
    - apply (run_path_raise _ _ 0 0 hot_logL0).
      + cbn. lia.
      + reflexivity.
      + apply step_raise;
          [exact hot_not_coarse_safe | exact hot_not_fine_safe
          | exact hot_project_fail].
    - lia.
    - intros q Hq. lia. }
  assert (H2 : first_run warm_params (U2 r_warm) lbfgsb_fail down_then_up 2
               = inl (1%nat, 1%nat, projection2_failed)).
  { unfold first_run, mc_loop. apply paths_from_raise.
    - apply warm_path_up. reflexivity.
    - lia.
    - intros q Hq. assert (q = 0%nat) as -> by lia.
      apply warm_path_down. reflexivity. }
  split; [exact H1|]. split; [exact H2|]. now rewrite H1, H2.
Qed.

(** ** The two projectors against each other *)

Lemma R_swap_N2 (y0 y1 : R) :
  R_swap [y0; y1] 1 = (exp y0 + exp y1 + exp y0 * exp y1) / (2 + exp y1).
Proof.
  rewrite R_swap_cons by lra.
  destruct (tail_N2 y1) as [Hp HS]. cbv zeta. rewrite Hp, HS.
  assert (H := exp_pos y1). field. lra.
Qed.

(** Lowering both log-forwards by [t >= 0] lowers the swap rate by the
    factor exp(-2t) at most. *)
Lemma R_swap_N2_shift (y0 y1 t : R) :
  0 <= t ->
  exp (- (2 * t)) * R_swap [y0; y1] 1 <= R_swap [y0 - t; y1 - t] 1.
Proof.
  intros Ht. rewrite !R_swap_N2.
  unfold Rminus. rewrite !exp_plus.
  replace (- (2 * t)) with (- t + - t) by ring. rewrite exp_plus.
  assert (H0 := exp_pos y0). assert (H1 := exp_pos y1).
  assert (Hc := exp_pos (- t)).
  assert (Hc1 : exp (- t) <= 1).
  { rewrite <- exp_0. destruct Ht as [Ht | <-].
    - left. apply exp_increasing. lra.
    - rewrite Ropp_0. lra. }
  set (c := exp (- t)) in *. set (a := exp y0) in *. set (b := exp y1) in *.
  apply Rmult_le_reg_r with ((2 + b) * (2 + b * c)); [nra|].
  replace (c * c * ((a + b + a * b) / (2 + b)) * ((2 + b) * (2 + b * c)))
    with (c * c * (a + b + a * b) * (2 + b * c)) by (field; lra).
  replace ((a * c + b * c + a * c * (b * c)) / (2 + b * c)
           * ((2 + b) * (2 + b * c)))
    with ((a * c + b * c + a * c * (b * c)) * (2 + b)) by (field; nra).
  assert (0 <= a * c) by nra. assert (0 <= b * c) by nra.
  assert (0 <= a * b) by nra. assert (0 <= c * c) by nra.
  assert (c * c <= c) by nra.
  assert (Hnum : c * c * (a + b + a * b) <= a * c + b * c + a * c * (b * c))
    by nra.
  assert (Hden : 2 + b * c <= 2 + b) by nra.
  assert (0 <= c * c * (a + b + a * b)) by nra.
  apply Rle_trans with (c * c * (a + b + a * b) * (2 + b)).
  - apply Rmult_le_compat_l; lra.
  - apply Rmult_le_compat_r; lra.
Qed.

Lemma norm2_bounds (d0 d1 : R) :
  Rabs d0 <= norm [d0; d1] /\ Rabs d1 <= norm [d0; d1].
Proof.
  unfold norm, sumsq. cbn [map vsum fold_right].
  split; rewrite <- sqrt_Rsqr_abs; apply sqrt_le_1_alt; unfold Rsqr; nra.
Qed.

Lemma Rabs_le_elim (a b : R) : Rabs a <= b -> - b <= a <= b.
Proof. unfold Rabs. destruct (Rcase_abs a); lra. Qed.

(** C4. With N = 2, delta = 1 and Rup = 0.075: whenever both projectors
    return, the general one with its constraint ln swapRate = ln Rup met to
    1e-6, their outputs lie more than 0.25 apart in Euclidean norm. *)
Theorem projectors_disagree (slsqp : Slsqp) (lbfgsb : Lbfgsb) (x0 x1 : R)
    (zg zf : list R) :
  project_to_barrier slsqp [x0; x1] 1 (3 / 40) = inr zg ->
  project_to_barrier2 lbfgsb [x0; x1] 1 (3 / 40) = inr zf ->
  List.length zg = 2%nat -> List.length zf = 2%nat ->
  Rabs (ln (R_swap zg 1) - ln (3 / 40)) <= 1 / 1000000 ->
  dist zg zf > 1 / 4.
Proof.
  intros _ Hf Hlg Hlf Htol.
  unfold project_to_barrier2 in Hf. cbv zeta in Hf.
  destruct (res_success _); [|discriminate]. injection Hf as <-.
  unfold logLpi_of_tail in Hlf |- *.
  destruct (res_x _) as [|b1 [|? ?]]; try discriminate. clear Hlf.
  assert (Hgap := fast_form_gap_N2 b1). unfold logLpi_of_tail in Hgap.
  set (b0 := logL0_of_tail 1 (3 / 40) [b1]) in *.
  destruct zg as [|a0 [|a1 [|? ?]]]; try discriminate. clear Hlg.
  apply Rnot_le_gt. intros Hd.
  unfold dist, vsub in Hd. cbn [zipWith] in Hd.
  destruct (norm2_bounds (a0 - b0) (a1 - b1)) as [N0 N1].
  assert (A0 : b0 - 1 / 4 <= a0).
  { assert (H := Rle_trans _ _ _ N0 Hd). apply Rabs_le_elim in H. lra. }
  assert (A1 : b1 - 1 / 4 <= a1).
  { assert (H := Rle_trans _ _ _ N1 Hd). apply Rabs_le_elim in H. lra. }
  assert (Hmono : R_swap [b0 - 1 / 4; b1 - 1 / 4] 1 <= R_swap [a0; a1] 1).
  { apply R_swap_mono; [lra|].
    constructor; [exact A0|]. constructor; [exact A1|]. constructor. }
  assert (Hshift := R_swap_N2_shift b0 b1 (1 / 4) ltac:(lra)).
  assert (Hexp := exp_ineq1_le (- (2 * (1 / 4)))).
  assert (Hlow : 7 / 80 <= R_swap [a0; a1] 1) by nra.
  assert (Hpos : 0 < R_swap [a0; a1] 1) by lra.
  apply Rabs_le_elim in Htol.
  assert (Hup : R_swap [a0; a1] 1 <= 3 / 40 * exp (1 / 1000000)).
  { rewrite <- (exp_ln _ Hpos).
    replace (3 / 40 * exp (1 / 1000000))
      with (exp (ln (3 / 40) + 1 / 1000000))
      by (rewrite exp_plus, exp_ln by lra; reflexivity).
    destruct (Rle_lt_or_eq_dec _ _ (proj2 Htol)) as [Hlt|Heq].
    - left. apply exp_increasing. lra.
    - right. f_equal. lra. }
  assert (Het : exp (1 / 1000000) <= 8 / 7).
  { assert (H := exp_ineq1_le (- (1 / 1000000))).
    rewrite exp_Ropp in H. assert (Hp := exp_pos (1 / 1000000)).
    apply Rmult_le_reg_r with (/ exp (1 / 1000000));
      [now apply Rinv_0_lt_compat|].
    rewrite Rinv_r by lra. lra. }
  nra.
Qed.

Lemma projectors_disagree_witness :
  dist [ln (3 / 40); ln (3 / 40)] (logLpi_of_tail 1 (3 / 40) [ln (1 / 20)])
  > 1 / 4.
Proof.
  apply (projectors_disagree slsqp_flat lbfgsb_stay (ln (1 / 20)) (ln (1 / 20))).
  - reflexivity.
  - reflexivity.
  - reflexivity.
  - reflexivity.
  - change [ln (3 / 40); ln (3 / 40)] with (repeat (ln (3 / 40)) 2).
    rewrite R_swap_constant by (lia || lra). rewrite exp_ln by lra.
    rewrite Rminus_diag, Rabs_R0. lra.
Defined.

(** ** A knocked-out path that keeps a price *)

Lemma hot_projection_any (lbfgsb : Lbfgsb) (y : R) :
  res_success (lbfgsb (objective hot_logL0 1 (3 / 40)) [ln (1 / 20)]) = true ->
  res_x (lbfgsb (objective hot_logL0 1 (3 / 40)) [ln (1 / 20)]) = [y] ->
  project_to_barrier2 lbfgsb hot_logL0 (delta hot_params) (Rup hot_params)
  = inr (hot_pi y).
Proof.
  intros Hs Hx. unfold project_to_barrier2, hot_logL0.
  cbn [delta Rup hot_params]. unfold hot_logL0 in Hs, Hx.
  now rewrite Hs, Hx.
Qed.

(** Whatever tail the optimizer settles on, the point rebuilt from it is
    at distance 1 at least from the initial state. *)
Lemma hot_pi_dist (y : R) : 1 <= dist (hot_pi y) hot_logL0.
Proof.
  unfold dist, vsub, hot_pi, logLpi_of_tail, hot_logL0. cbn [zipWith].
  set (z0 := logL0_of_tail 1 (3 / 40) [y]).
  destruct (norm2_bounds (z0 - ln (1 / 20)) (y - ln (1 / 20))) as [N0 N1].
  assert (H20 := ln_20_ge_2).
  destruct (Rle_lt_dec (ln (1 / 20) + 1) y) as [Hy|Hy].
  - apply Rle_trans with (Rabs (y - ln (1 / 20))); [|exact N1].
    rewrite Rabs_right by lra. lra.
  - apply Rle_trans with (Rabs (z0 - ln (1 / 20))); [|exact N0].
    assert (Ht : exp y < 3 / 20).
    { apply Rlt_le_trans with (exp (ln (1 / 20) + 1)).
      - now apply exp_increasing.
      - rewrite exp_plus, exp_ln by lra. assert (H3 := exp_le_3). lra. }
    assert (Hp := exp_pos y).
    assert (Hz : - 1 <= z0).
    { unfold z0, logL0_of_tail. cbv zeta.
      destruct (tail_N2 y) as [HP HS]. cbv zeta in HP, HS. rewrite HP, HS.
      assert (0 <= ln ((3 / 40 * (2 + exp y) + 1) / (1 + exp y))); [|lra].
      rewrite <- ln_1.
      assert (Hq : 1 <= (3 / 40 * (2 + exp y) + 1) / (1 + exp y)).
      { apply Rmult_le_reg_r with (1 + exp y); [lra|].
        unfold Rdiv. rewrite Rmult_assoc, Rinv_l by lra. lra. }
      destruct Hq as [Hq | <-]; [left; apply ln_increasing; lra | lra]. }
    rewrite Rabs_right by lra. lra.
Qed.

Lemma hot_not_knocked_any (y : R) :
  ~ 9 / 10 < lambda_k hot_params
             / (dist (hot_pi y) hot_logL0 + lambda_k hot_params).
Proof.
  assert (Hd := hot_pi_dist y). assert (Hl := hot_lambda_bounds).
  apply Rle_not_lt.
  apply Rmult_le_reg_r with (dist (hot_pi y) hot_logL0 + lambda_k hot_params);
    [lra|].
  unfold Rdiv. rewrite Rmult_assoc, Rinv_l by lra. lra.
Qed.

(** The first loop lets the path survive; the second loop stops it. *)
Lemma hot_path_first (U : matrix) (lbfgsb : Lbfgsb) (y : R) :
  project_to_barrier2 lbfgsb hot_logL0 (delta hot_params) (Rup hot_params)
  = inr (hot_pi y) ->
  run_path hot_params (step hot_params U lbfgsb (all_up 2)) 0
  = inr (mkPathEnd (hot_next U y) false 1).
Proof.
  intros Hp. unfold run_path. cbn [M L0 hot_params map path_from].
  fold hot_logL0. unfold step. cbv zeta.
  fail_both_checks hot_not_coarse_safe hot_not_fine_safe.
  rewrite Hp. cbn [rand xi all_up].
  destruct (Rlt_dec _ _) as [H|_]; [exfalso; exact (hot_not_knocked_any y H)|].
  reflexivity.
Qed.

Lemma hot_path_second (U : matrix) (lbfgsb : Lbfgsb) (rnd : Draws) (y : R) :
  project_to_barrier2 lbfgsb hot_logL0 (delta hot_params) (Rup hot_params)
  = inr (hot_pi y) ->
  run_path hot_params (step_half hot_params U lbfgsb rnd) 0
  = inr (mkPathEnd (hot_pi y) true 0).
Proof.
  intros Hp. unfold run_path. cbn [M L0 hot_params map path_from].
  fold hot_logL0. unfold step_half. cbv zeta.
  fail_both_checks hot_not_coarse_safe hot_not_fine_safe.
  now rewrite Hp.
Qed.

(** C7. The notebook run from top to bottom on [hot_params] (N = 2, M = 1,
    K = 0, Rup = 0.075) with one path, the draws xi = (1, 1) and u = 0.9,
    whatever tail L-BFGS-B converges to: the first loop lets path 0 survive
    and gives it a positive price; the second loop knocks path 0 out at
    step 0, and its entry of [prices] still holds the price of the first
    loop, so the price reported after the second loop is positive although
    its only path was knocked out and should contribute 0. *)
Theorem knocked_out_path_keeps_stale_price (lbfgsb : Lbfgsb) (y : R) :
  res_success (lbfgsb (objective hot_logL0 1 (3 / 40)) [ln (1 / 20)]) = true ->
  res_x (lbfgsb (objective hot_logL0 1 (3 / 40)) [ln (1 / 20)]) = [y] ->
  exists s1 s2 e2,
    first_run hot_params (U2 r_hot) lbfgsb (all_up 2) 1 = inr s1 /\
    second_run hot_params (U2 r_hot) lbfgsb (all_up 2) (all_up 2) 1
    = inr s2 /\
    run_path hot_params
      (step_half hot_params (U2 r_hot) lbfgsb (all_up 2)) 0 = inr e2 /\
    knocked_out e2 = true /\
    contribution hot_params e2 = 0 /\
    nth 0 (exit_times s2) 0 = 0 /\
    nth 0 (prices s2) 0 = nth 0 (prices s1) 0 /\
    0 < nth 0 (prices s2) 0 /\
    0 < price s2.
Proof.
  intros Hs Hx. assert (Hp := hot_projection_any lbfgsb y Hs Hx).
  pose (e1 := mkPathEnd (hot_next (U2 r_hot) y) false 1).
  pose (s1 := record_path hot_params 0 e1 (init_store 1)).
  pose (e2 := mkPathEnd (hot_pi y) true 0).
  pose (s2 := record_path hot_params 0 e2 s1).
  assert (H1 : first_run hot_params (U2 r_hot) lbfgsb (all_up 2) 1 = inr s1).
  { unfold first_run, mc_loop. cbn [paths_from].
    now rewrite (hot_path_first _ _ y Hp). }
  assert (Hpos : 0 < contribution hot_params e1).
  { apply contribution_pos;
      cbn [delta K L0 hot_params nth knocked_out end_logL e1];
      try lra; try reflexivity.
    intros Hnil.
    assert (H : List.length (hot_next (U2 r_hot) y) = 2%nat) by reflexivity.
    rewrite Hnil in H. discriminate. }
  assert (Hp1 : nth 0 (prices s1) 0 = contribution hot_params e1) by reflexivity.
  assert (Hp2 : prices s2 = prices s1) by reflexivity.
  exists s1, s2, e2. split; [exact H1|]. split.
  { unfold second_run. rewrite H1. unfold mc_loop. cbn [paths_from].
    now rewrite (hot_path_second _ _ _ y Hp). }
  split; [now apply hot_path_second|]. split; [reflexivity|].
  split; [reflexivity|]. split.
  { cbn. rewrite hot_h. lra. }
  split; [now rewrite Hp2|]. split; [rewrite Hp2, Hp1; exact Hpos|].
  unfold price, mean. rewrite Hp2.
  change (prices s1) with [contribution hot_params e1].
  cbn [vsum fold_right List.length INR]. lra.
Qed.

Lemma knocked_out_path_keeps_stale_price_witness :
  exists s1 s2 e2,
    first_run hot_params (U2 r_hot) lbfgsb_stay (all_up 2) 1 = inr s1 /\
    second_run hot_params (U2 r_hot) lbfgsb_stay (all_up 2) (all_up 2) 1
    = inr s2 /\
    run_path hot_params
      (step_half hot_params (U2 r_hot) lbfgsb_stay (all_up 2)) 0 = inr e2 /\
    knocked_out e2 = true /\
    contribution hot_params e2 = 0 /\
    nth 0 (exit_times s2) 0 = 0 /\
    nth 0 (prices s2) 0 = nth 0 (prices s1) 0 /\
    0 < nth 0 (prices s2) 0 /\
    0 < price s2.
Proof.
  apply (knocked_out_path_keeps_stale_price lbfgsb_stay (ln (1 / 20)));
    reflexivity.
Defined.

(** ** The notebook's own parameters *)

Lemma notebook_valid : valid_params notebook_params.
Proof.
  unfold valid_params, valid_market.
  cbn [N M T0 delta L0 sigma Rup notebook_params].
  repeat split; try lia; try lra; try reflexivity.
  - apply Forall_forall. intros l Hl. apply repeat_spec in Hl. lra.
  - apply Forall_forall. intros s Hs. apply repeat_spec in Hs. lra.
  - rewrite map_repeat, R_swap_constant by (lia || lra).
    rewrite exp_ln by lra. lra.
Qed.

(** With the notebook's values the first step of every path passes the
    coarse check: it is a plain log-Euler step. *)
Lemma notebook_first_step (U : matrix) (lbfgsb : Lbfgsb) (rnd : Draws)
    (p : nat) :
  step notebook_params U lbfgsb rnd p 0 (map ln (L0 notebook_params))
  = Continue (euler (map ln (L0 notebook_params))
                    (drift_vec notebook_params (map ln (L0 notebook_params)))
                    (diffusion notebook_params U (xi rnd p 0%nat))).
Proof. apply step_coarse. exact notebook_coarse_safe_at_start. Qed.
(** * Further properties of the notebook *)

(** ** The swap rate *)

(** X1. For delta > 0 and a non-empty curve the swap rate is positive and
    lies between the smallest and the largest forward rate: if every
    log-forward is at least [lo], then exp lo <= R_swap <= exp (max logL). *)
Theorem swap_rate_between_forwards (x : list R) (delta lo : R) :
  0 < delta -> x <> [] -> Forall (fun a => lo <= a) x ->
  0 < R_swap x delta /\ exp lo <= R_swap x delta <= exp (vmax x).
Proof.
  intros Hd Hne Hlo. split; [now apply R_swap_pos|]. split.
  - now apply R_swap_ge_flat.
  - now apply R_swap_le_vmax.
Qed.

Lemma swap_rate_between_forwards_witness :
  0 < R_swap [ln (1 / 20); ln (1 / 10)] 1 /\
  exp (ln (1 / 20)) <= R_swap [ln (1 / 20); ln (1 / 10)] 1
  <= exp (vmax [ln (1 / 20); ln (1 / 10)]).
Proof.
  apply (swap_rate_between_forwards [ln (1 / 20); ln (1 / 10)] 1 (ln (1 / 20))).
  - lra.
  - discriminate.
  - constructor; [lra|]. constructor; [|constructor].
    left. apply ln_increasing; lra.
Defined.

(** X2. The swap rate is nondecreasing in every log-forward: raising some
    entries of the curve, the others kept, does not lower it. *)
Theorem swap_rate_monotone (x x' : list R) (delta : R) :
  0 < delta -> List.length x = List.length x' ->
  (forall i, (i < List.length x)%nat -> nth i x 0 <= nth i x' 0) ->
  R_swap x delta <= R_swap x' delta.
Proof.
  intros Hd Hl Hn. apply R_swap_mono; [exact Hd|]. now apply vle_intro.
Qed.

Lemma swap_rate_monotone_witness :
  R_swap [ln (1 / 20); ln (1 / 20)] 1 <= R_swap [ln (1 / 20); ln (1 / 10)] 1.
Proof.
  apply swap_rate_monotone; [lra | reflexivity |].
  intros i Hi. cbn in Hi.
  assert (i = 0%nat \/ i = 1%nat) as [-> | ->] by lia; cbn [nth]; [lra|].
  left. apply ln_increasing; lra.
Defined.

(** X3. For delta > 0 and Rup > 0 the equality constraint handed to SLSQP,
    ln(R_swap(logL)) - ln(Rup), vanishes exactly on the barrier surface
    R_swap = Rup, and that surface is the one of equation (6.12):
    prod_j (1 + delta L_j) - 1 = Rup delta (1 + sum of the suffix products
    of the tail). *)
Theorem constraint_zero_set (delta Rup z0 : R) (y : list R) :
  0 < delta -> 0 < Rup ->
  (ln (R_swap (z0 :: y) delta) - ln Rup = 0 <-> R_swap (z0 :: y) delta = Rup) /\
  (R_swap (z0 :: y) delta = Rup <->
   vprod (one_plus delta (map exp (z0 :: y))) - 1
   = Rup * (delta * (1 + vsum (revcp (one_plus delta (map exp y)))))).
Proof.
  intros Hd HR.
  assert (Hpos : 0 < R_swap (z0 :: y) delta)
    by (apply R_swap_pos; [exact Hd | discriminate]).
  split.
  - split; intros H.
    + apply ln_inv; [exact Hpos | exact HR | lra].
    + rewrite H. lra.
  - rewrite R_swap_cons by exact Hd.
    change ((1 + delta * exp z0) * vprod (one_plus delta (map exp y)))
      with (vprod (one_plus delta (map exp (z0 :: y)))).
    assert (HS := tail_sum_pos delta y Hd).
    set (S := 1 + vsum (revcp (one_plus delta (map exp y)))) in *.
    set (P := vprod (one_plus delta (map exp (z0 :: y)))).
    assert (HdS : 0 < delta * S) by nra.
    split; intros H.
    + rewrite <- H. field. lra.
    + rewrite H. field. lra.
Qed.

Lemma constraint_zero_set_witness :
  (ln (R_swap (ln (1 / 20) :: [ln (1 / 20)]) 1) - ln (3 / 40) = 0
   <-> R_swap (ln (1 / 20) :: [ln (1 / 20)]) 1 = 3 / 40) /\
  (R_swap (ln (1 / 20) :: [ln (1 / 20)]) 1 = 3 / 40 <->
   vprod (one_plus 1 (map exp (ln (1 / 20) :: [ln (1 / 20)]))) - 1
   = 3 / 40 * (1 * (1 + vsum (revcp (one_plus 1 (map exp [ln (1 / 20)])))))).
Proof. apply constraint_zero_set; lra. Defined.

(** *** Discount factors *)

Lemma cumprod_from_inv (w : list R) :
  all_pos w -> forall a, 0 < a ->
  cumprod_from (1 / a) (map (fun q => 1 / q) w)
  = map (fun q => 1 / q) (cumprod_from a w).
Proof.
  induction 1 as [|b t Hb _ IH]; intros a Ha; [reflexivity|].
  cbn [map cumprod_from].
  replace (1 / a * (1 / b)) with (1 / (a * b)) by (field; lra).
  rewrite IH by (now apply Rmult_lt_0_compat). reflexivity.
Qed.

(** The discount curve is the list of the reciprocals of the running
    products of 1 + delta L. *)
Lemma discount_curve_inv (x : list R) (delta : R) :
  0 < delta ->
  discount_curve x delta
  = map (fun q => 1 / q) (cumprod (one_plus delta (map exp x))).
Proof.
  intros Hd. unfold discount_curve, cumprod.
  assert (H := cumprod_from_inv _ (one_plus_pos delta x Hd) 1 Rlt_0_1).
  replace (1 / 1) with 1 in H by lra. rewrite <- H.
  unfold one_plus. now rewrite (map_map (fun l => 1 + delta * l)).
Qed.

Lemma last_cumprod_from (w : list R) (a d : R) :
  w <> [] -> last (cumprod_from a w) d = a * vprod w.
Proof.
  revert a. induction w as [|b t IH]; intros a Hne; [congruence|].
  destruct t as [|b' t'].
  - simpl. ring.
  - change (cumprod_from a (b :: b' :: t'))
      with ((a * b) :: cumprod_from (a * b) (b' :: t')).
    change (last (a * b :: cumprod_from (a * b) (b' :: t')) d)
      with (last (cumprod_from (a * b) (b' :: t')) d).
    rewrite IH by discriminate. rewrite (vprod_cons b). ring.
Qed.

Lemma vprod_inv (w : list R) :
  all_pos w -> vprod (map (fun q => 1 / q) w) = 1 / vprod w.
Proof.
  induction 1 as [|b t Hb Ht IH].
  - cbn. lra.
  - cbn [map]. rewrite !vprod_cons, IH.
    assert (Hp : 0 < vprod t) by (apply vprod_pos; exact Ht).
    field. split; lra.
Qed.

Lemma last_discount_curve (x : list R) (delta : R) :
  0 < delta -> x <> [] ->
  last (discount_curve x delta) 0 = 1 / vprod (one_plus delta (map exp x)).
Proof.
  intros Hd Hne. rewrite (discount_curve_inv x delta Hd).
  assert (Hw := one_plus_pos delta x Hd).
  set (w := one_plus delta (map exp x)) in *.
  assert (Hwne : w <> []).
  { unfold w, one_plus. destruct x; [congruence | discriminate]. }
  rewrite <- (vprod_inv w Hw).
  unfold cumprod. rewrite <- (cumprod_from_inv w Hw 1 Rlt_0_1).
  rewrite last_cumprod_from by (destruct w; [congruence | discriminate]).
  field.
Qed.

Lemma annuity_identity (x : list R) (delta : R) :
  0 < delta -> x <> [] ->
  delta * R_swap x delta * vsum (discount_curve x delta)
  = 1 - 1 / vprod (one_plus delta (map exp x)).
Proof.
  intros Hd Hne. rewrite (discount_curve_inv x delta Hd).
  set (w := one_plus delta (map exp x)).
  assert (Hw : all_pos w) by (apply one_plus_pos; exact Hd).
  assert (Hwne : w <> []).
  { unfold w, one_plus. destruct x; [congruence | discriminate]. }
  assert (HD := inv_cumprod_pos w Hw Hwne 1 Rlt_0_1).
  unfold R_swap. fold w. unfold cumprod in *.
  set (D := vsum (map (fun q => 1 / q) (cumprod_from 1 w))) in *.
  assert (Hp : 0 < vprod w) by (apply vprod_pos; exact Hw).
  field. repeat split; lra.
Qed.

(** X4. For delta > 0 and a non-empty state, delta times the swap rate
    times the sum of the discount factors of the payoff lines equals one
    minus the last discount factor: the fixed leg at the swap rate is worth
    the floating leg. *)
Theorem swap_rate_times_annuity (c : Params) (x : list R) :
  0 < delta c -> x <> [] ->
  delta c * R_swap x (delta c) * discount_sum c x
  = 1 - last (discount_curve x (delta c)) 0.
Proof.
  intros Hd Hne. rewrite (last_discount_curve x (delta c) Hd Hne).
  now apply annuity_identity.
Qed.

Lemma swap_rate_times_annuity_witness :
  delta notebook_params
  * R_swap (map ln (L0 notebook_params)) (delta notebook_params)
  * discount_sum notebook_params (map ln (L0 notebook_params))
  = 1 - last (discount_curve (map ln (L0 notebook_params))
                             (delta notebook_params)) 0.
Proof.
  apply swap_rate_times_annuity.
  - cbn. lra.
  - discriminate.
Defined.

(** ** Discount factors *)

Lemma cumprod_from_decreasing (v : list R) :
  Forall (fun q => 0 < q < 1) v ->
  forall a, 0 < a ->
  Forall (fun d => 0 < d < a) (cumprod_from a v) /\
  StronglySorted Rgt (cumprod_from a v).
Proof.
  induction 1 as [|q t Hq Ht IH]; intros a Ha; cbn [cumprod_from].
  - split; constructor.
  - assert (Haq : 0 < a * q) by (apply Rmult_lt_0_compat; lra).
    assert (Hlt : a * q < a) by nra.
    destruct (IH (a * q) Haq) as [Hb Hs]. split.
    + constructor; [lra|].
      eapply Forall_impl; [|exact Hb]. cbn. intros d Hd. lra.
    + constructor; [exact Hs|].
      eapply Forall_impl; [|exact Hb]. cbn. intros d Hd. unfold Rgt. lra.
Qed.

Lemma cumprod_from_length (w : list R) (a : R) :
  List.length (cumprod_from a w) = List.length w.
Proof.
  revert a. induction w as [|b t IH]; intros a; cbn; [reflexivity|].
  now rewrite IH.
Qed.

Lemma vsum_bounds (l : list R) :
  Forall (fun d => 0 < d < 1) l -> l <> [] ->
  0 < vsum l < INR (List.length l).
Proof.
  induction 1 as [|d t Hd Ht IH]; intros Hne; [congruence|].
  rewrite vsum_cons. change (List.length (d :: t)) with (S (List.length t)).
  rewrite S_INR. destruct t as [|d' t'].
  - cbn. lra.
  - assert (H := IH ltac:(discriminate)). lra.
Qed.

(** X5. For delta > 0 the discount factors P(T0,T_{j+1}) computed at the end
    of a path are as many as the forward rates, lie strictly between 0 and
    1 and strictly decrease with the maturity; so their sum (the
    [discount_sum] a surviving path records) lies strictly between 0 and
    the number of rates. *)
Theorem discount_curve_decreasing (c : Params) (x : list R) :
  0 < delta c -> x <> [] ->
  List.length (discount_curve x (delta c)) = List.length x /\
  Forall (fun d => 0 < d < 1) (discount_curve x (delta c)) /\
  StronglySorted Rgt (discount_curve x (delta c)) /\
  0 < discount_sum c x < INR (List.length x).
Proof.
  intros Hd Hne.
  assert (Hq : Forall (fun q => 0 < q < 1)
                 (map (fun l => 1 / (1 + delta c * l)) (map exp x))).
  { rewrite map_map. apply Forall_forall. intros q Hin.
    apply in_map_iff in Hin. destruct Hin as (a & <- & _).
    assert (He := exp_pos a).
    assert (Hp : 0 < delta c * exp a) by (now apply Rmult_lt_0_compat).
    split.
    - apply Rdiv_lt_0_compat; lra.
    - apply (Rmult_lt_reg_r (1 + delta c * exp a)); [lra|].
      replace (1 / (1 + delta c * exp a) * (1 + delta c * exp a)) with 1
        by (field; lra). lra. }
  destruct (cumprod_from_decreasing _ Hq 1 Rlt_0_1) as [Hb Hs].
  assert (Hlen : List.length (discount_curve x (delta c)) = List.length x).
  { unfold discount_curve, cumprod.
    now rewrite cumprod_from_length, !length_map. }
  split; [exact Hlen|]. split; [exact Hb|]. split; [exact Hs|].
  unfold discount_sum. rewrite <- Hlen. apply vsum_bounds; [exact Hb|].
  intros E. rewrite E in Hlen. destruct x; [congruence | discriminate].
Qed.

Lemma discount_curve_decreasing_witness :
  List.length (discount_curve [ln (1 / 20); ln (1 / 10)] (delta notebook_params)) = 2%nat /\
  Forall (fun d => 0 < d < 1)
         (discount_curve [ln (1 / 20); ln (1 / 10)] (delta notebook_params)) /\
  StronglySorted Rgt
         (discount_curve [ln (1 / 20); ln (1 / 10)] (delta notebook_params)) /\
  0 < discount_sum notebook_params [ln (1 / 20); ln (1 / 10)] < INR 2.
Proof.
  apply (discount_curve_decreasing notebook_params [ln (1 / 20); ln (1 / 10)]).
  - cbn. lra.
  - discriminate.
Defined.

(** ** The correlation matrix *)

Lemma nth_times (c : Params) (i : nat) :
  (i < N c)%nat ->
  nth i (times c) 0 = INR i * delta c + T0 c - INR (N c) * delta c.
Proof.
  intros Hi. unfold times.
  rewrite nth_map_R by (rewrite arange_length; exact Hi).
  unfold arange.
  rewrite (nth_indep _ 0 (INR 0)) by (rewrite length_map, length_seq; exact Hi).
  rewrite (map_nth INR), seq_nth by exact Hi. reflexivity.
Qed.

Lemma rho_entry (c : Params) (i j : nat) :
  (i < N c)%nat -> (j < N c)%nat ->
  entry (rho c) i j
  = exp (- beta c * Rabs (nth i (times c) 0 - nth j (times c) 0)).
Proof.
  intros Hi Hj. unfold entry, rho.
  rewrite (nth_map_row _ _ i 0) by (rewrite times_length; exact Hi).
  rewrite nth_map_R by (rewrite times_length; exact Hj). reflexivity.
Qed.

(** X6. The entries of [rho] depend on the tenor and on the distance of the
    indices only, not on T0: rho_ij = exp(-beta |delta| |i - j|) for
    i, j < N.  The matrix is symmetric with a unit diagonal and positive
    entries, which are at most 1 when beta >= 0. *)
Theorem rho_decay (c : Params) (i j : nat) :
  (i < N c)%nat -> (j < N c)%nat ->
  entry (rho c) i j = exp (- beta c * (Rabs (delta c) * Rabs (INR i - INR j))) /\
  entry (rho c) i j = entry (rho c) j i /\
  entry (rho c) i i = 1 /\
  0 < entry (rho c) i j /\
  (0 <= beta c -> entry (rho c) i j <= 1).
Proof.
  intros Hi Hj.
  assert (E : forall a b, (a < N c)%nat -> (b < N c)%nat ->
            entry (rho c) a b
            = exp (- beta c * (Rabs (delta c) * Rabs (INR a - INR b)))).
  { intros a b Ha Hb. rewrite rho_entry by assumption.
    rewrite !nth_times by assumption.
    replace (INR a * delta c + T0 c - INR (N c) * delta c
             - (INR b * delta c + T0 c - INR (N c) * delta c))
      with (delta c * (INR a - INR b)) by ring.
    now rewrite Rabs_mult. }
  split; [now apply E|]. split; [|split; [|split]].
  - rewrite !E by assumption. now rewrite (Rabs_minus_sym (INR i) (INR j)).
  - rewrite E by assumption.
    replace (INR i - INR i) with 0 by ring.
    rewrite Rabs_R0, !Rmult_0_r. apply exp_0.
  - rewrite E by assumption. apply exp_pos.
  - intros Hb. rewrite E by assumption.
    assert (H1 := Rabs_pos (delta c)). assert (H2 := Rabs_pos (INR i - INR j)).
    assert (H3 : 0 <= Rabs (delta c) * Rabs (INR i - INR j))
      by (now apply Rmult_le_pos).
    destruct (Req_dec (- beta c * (Rabs (delta c) * Rabs (INR i - INR j))) 0)
      as [-> | Hne].
    + rewrite exp_0. lra.
    + left. rewrite <- exp_0. apply exp_increasing. nra.
Qed.

Lemma rho_decay_witness :
  entry (rho notebook_params) 0 1
  = exp (- beta notebook_params
         * (Rabs (delta notebook_params) * Rabs (INR 0 - INR 1))) /\
  entry (rho notebook_params) 0 1 = entry (rho notebook_params) 1 0 /\
  entry (rho notebook_params) 0 0 = 1 /\
  0 < entry (rho notebook_params) 0 1 /\
  (0 <= beta notebook_params -> entry (rho notebook_params) 0 1 <= 1).
Proof. apply (rho_decay notebook_params 0 1); cbn; lia. Defined.

(** ** The path loops *)

(** How a path can end: alive at step M, or knocked out at a step of the
    loop. *)
Lemma path_from_end (c : Params) (body : nat -> list R -> Step) :
  forall todo k logL e,
  path_from c body todo k logL = inr e ->
  (knocked_out e = false /\ exit_step e = M c) \/
  (knocked_out e = true /\ (k <= exit_step e < k + todo)%nat).
Proof.
  induction todo as [|todo IH]; intros k logL e H; cbn [path_from] in H.
  - injection H as <-. left. split; reflexivity.
  - destruct (body k logL) as [x'|x'|err]; [| |discriminate].
    + destruct (IH _ _ _ H) as [Ha|[Ha Hb]]; [left; exact Ha|].
      right. split; [exact Ha | lia].
    + injection H as <-. right. cbn. split; [reflexivity | lia].
Qed.

Lemma M_h (c : Params) : (1 <= M c)%nat -> INR (M c) * h c = T0 c.
Proof.
  intros HM. unfold h. field. apply not_0_INR. lia.
Qed.

Lemma exit_time_bounds (c : Params) (body : nat -> nat -> list R -> Step)
    (p : nat) (e : PathEnd) :
  (1 <= M c)%nat -> 0 < T0 c ->
  run_path c body p = inr e ->
  0 <= INR (exit_step e) * h c <= T0 c /\
  (INR (exit_step e) * h c = T0 c <-> knocked_out e = false).
Proof.
  intros HM HT H. unfold run_path in H.
  assert (Hh : 0 < h c).
  { unfold h. apply Rdiv_lt_0_compat; [exact HT | apply lt_0_INR; lia]. }
  assert (HMh := M_h c HM).
  destruct (path_from_end c _ _ _ _ _ H) as [[Hk Hs]|[Hk Hs]].
  - rewrite Hs, HMh. split; [lra|]. split; auto.
  - assert (Hlt : INR (exit_step e) < INR (M c)) by (apply lt_INR; lia).
    assert (H0 : 0 <= INR (exit_step e)) by apply pos_INR.
    split; [nra|]. rewrite Hk. split; [intros E; nra | discriminate].
Qed.

Lemma vsum_nth_bounds (a b : R) (l : list R) :
  (forall i, (i < List.length l)%nat -> a <= nth i l 0 <= b) ->
  a * INR (List.length l) <= vsum l <= b * INR (List.length l).
Proof.
  induction l as [|x t IH]; intros H.
  - cbn. lra.
  - change (List.length (x :: t)) with (S (List.length t)).
    rewrite S_INR, vsum_cons.
    assert (Hx := H 0%nat ltac:(cbn; lia)). cbn [nth] in Hx.
    assert (Ht := IH (fun i Hi => H (S i) ltac:(cbn; lia))). lra.
Qed.

Lemma mean_bounds (a b : R) (l : list R) :
  l <> [] ->
  (forall i, (i < List.length l)%nat -> a <= nth i l 0 <= b) ->
  a <= mean l <= b.
Proof.
  intros Hne H. unfold mean.
  assert (Hn : 0 < INR (List.length l)).
  { apply lt_0_INR. destruct l; [congruence | cbn; lia]. }
  assert (Hs := vsum_nth_bounds a b l H).
  split.
  - apply (Rmult_le_reg_r (INR (List.length l))); [exact Hn|].
    unfold Rdiv. rewrite Rmult_assoc, Rinv_l by lra. lra.
  - apply (Rmult_le_reg_r (INR (List.length l))); [exact Hn|].
    unfold Rdiv. rewrite Rmult_assoc, Rinv_l by lra. lra.
Qed.

(** X7. Either path loop, started on arrays of [n_paths] entries and run to
    its end with M >= 1 and T0 > 0, leaves in [exit_times] one time per
    path, each between 0 and T0, and equal to T0 exactly for the paths that
    were not knocked out; with at least one path the reported mean exit
    time lies between 0 and T0. *)
Theorem exit_times_within_horizon (c : Params)
    (body : nat -> nat -> list R -> Step) (n_paths : nat) (s0 s : Store) :
  (1 <= M c)%nat -> 0 < T0 c -> store_ok n_paths s0 ->
  mc_loop c body n_paths s0 = inr s ->
  List.length (exit_times s) = n_paths /\
  (forall p, (p < n_paths)%nat ->
     0 <= nth p (exit_times s) 0 <= T0 c /\
     exists e, run_path c body p = inr e /\
       (nth p (exit_times s) 0 = T0 c <-> knocked_out e = false)) /\
  ((1 <= n_paths)%nat -> 0 <= mean_exit_time s <= T0 c).
Proof.
  intros HM HT Hok Hrun. unfold mc_loop in Hrun.
  destruct (paths_from_inv c body n_paths n_paths 0 s0 s Hok ltac:(lia) Hrun)
    as ((_ & Hlen & _ & _) & Hin & _).
  assert (Hall : forall p, (p < n_paths)%nat ->
     0 <= nth p (exit_times s) 0 <= T0 c /\
     exists e, run_path c body p = inr e /\
       (nth p (exit_times s) 0 = T0 c <-> knocked_out e = false)).
  { intros p Hp. destruct (Hin p ltac:(lia)) as (e & He & Ht & _).
    destruct (exit_time_bounds c body p e HM HT He) as [Hb Hiff].
    rewrite Ht. split; [exact Hb|]. exists e. split; [exact He | exact Hiff]. }
  split; [exact Hlen|]. split; [exact Hall|].
  intros Hn. unfold mean_exit_time. apply mean_bounds.
  - intros E. rewrite E in Hlen. cbn in Hlen. lia.
  - intros i Hi. rewrite Hlen in Hi. apply (Hall i Hi).
Qed.

Lemma hot_project_stay :
  project_to_barrier2 lbfgsb_stay hot_logL0 (delta hot_params) (Rup hot_params)
  = inr (hot_pi (ln (1 / 20))).
Proof. reflexivity. Qed.

Lemma hot_first_run :
  first_run hot_params (U2 r_hot) lbfgsb_stay (all_up 2) 1
  = inr (record_path hot_params 0 hot_end_first (init_store 1)).
Proof.
  unfold first_run, mc_loop. cbn [paths_from].
  now rewrite (hot_path_first (U2 r_hot) lbfgsb_stay _ hot_project_stay).
Qed.

Lemma hot_second_loop (s : Store) :
  mc_loop hot_params (step_half hot_params (U2 r_hot) lbfgsb_stay (all_up 2))
          1 s
  = inr (record_path hot_params 0 hot_end_second s).
Proof.
  unfold mc_loop. cbn [paths_from].
  now rewrite (hot_path_second (U2 r_hot) lbfgsb_stay _ _ hot_project_stay).
Qed.

Lemma hot_second_run :
  second_run hot_params (U2 r_hot) lbfgsb_stay (all_up 2) (all_up 2) 1
  = inr (record_path hot_params 0 hot_end_second
           (record_path hot_params 0 hot_end_first (init_store 1))).
Proof. unfold second_run. rewrite hot_first_run. apply hot_second_loop. Qed.

Lemma exit_times_within_horizon_witness :
  let body := step_half hot_params (U2 r_hot) lbfgsb_stay (all_up 2) in
  let s := record_path hot_params 0 hot_end_second (init_store 1) in
  List.length (exit_times s) = 1%nat /\
  (forall p, (p < 1)%nat ->
     0 <= nth p (exit_times s) 0 <= T0 hot_params /\
     exists e, run_path hot_params body p = inr e /\
       (nth p (exit_times s) 0 = T0 hot_params <-> knocked_out e = false)) /\
  ((1 <= 1)%nat -> 0 <= mean_exit_time s <= T0 hot_params).
Proof.
  apply (exit_times_within_horizon hot_params _ 1 (init_store 1)).
  - cbn. lia.
  - cbn. lra.
  - apply init_store_ok.
  - apply hot_second_loop.
Defined.

(** ** The price arrays *)

Lemma list_of_nth (l : list R) (f : nat -> R) (n : nat) :
  List.length l = n ->
  (forall p, (p < n)%nat -> nth p l 0 = f p) ->
  l = map f (seq 0 n).
Proof.
  intros Hl Hn. apply (nth_ext _ _ 0 (f 0%nat)).
  - now rewrite length_map, length_seq.
  - intros p Hp. rewrite Hl in Hp. rewrite (map_nth f), seq_nth by exact Hp.
    now apply Hn.
Qed.

Lemma payoff_nonneg (c : Params) (x : list R) : 0 <= delta c -> 0 <= payoff c x.
Proof.
  intros Hd. unfold payoff. apply Rmult_le_pos; [exact Hd | apply Rmax_r].
Qed.

Lemma discount_sum_nonneg (c : Params) (x : list R) :
  0 < delta c -> 0 <= discount_sum c x.
Proof.
  intros Hd. destruct x as [|a t].
  - unfold discount_sum, discount_curve, cumprod. cbn. lra.
  - left. apply discount_sum_pos; [exact Hd | discriminate].
Qed.

Lemma P0_T0_pos (c : Params) : valid_market c -> 0 < P0_T0 c < 1.
Proof.
  intros (HN & _ & _ & Hd & HlL & HL & _). unfold P0_T0.
  assert (H0 : 0 < nth 0 (L0 c) 0).
  { destruct (L0 c) as [|l t]; [cbn in HlL; lia|]. now apply Forall_inv in HL. }
  assert (Hp : 0 < delta c * nth 0 (L0 c) 0) by (now apply Rmult_lt_0_compat).
  split.
  - apply Rdiv_lt_0_compat; lra.
  - apply (Rmult_lt_reg_r (1 + delta c * nth 0 (L0 c) 0)); [lra|].
    unfold Rdiv. rewrite Rmult_assoc, Rinv_l by lra. lra.
Qed.

Lemma contribution_nonneg (c : Params) (e : PathEnd) :
  valid_market c -> 0 <= contribution c e.
Proof.
  intros Hv. assert (HP := P0_T0_pos c Hv).
  destruct Hv as (_ & _ & _ & Hd & _).
  unfold contribution. destruct (knocked_out e); [lra|].
  apply Rmult_le_pos; [lra|]. apply Rmult_le_pos.
  - now apply discount_sum_nonneg.
  - apply payoff_nonneg. lra.
Qed.

Lemma first_run_prices_list (c : Params) (U : matrix) (lbfgsb : Lbfgsb)
    (rnd : Draws) (n_paths : nat) (s : Store) :
  first_run c U lbfgsb rnd n_paths = inr s ->
  prices s = map (path_contribution c (step c U lbfgsb rnd)) (seq 0 n_paths).
Proof.
  intros Hrun.
  destruct (first_run_contributions c U lbfgsb rnd n_paths s Hrun)
    as ((_ & _ & _ & Hlen) & Hin).
  apply list_of_nth; [exact Hlen|].
  intros p Hp. destruct (Hin p Hp) as (e & He & _ & Hpr).
  unfold path_contribution. now rewrite He.
Qed.

(** X8. When the first loop, run on the freshly created arrays, reaches its
    end, [prices] holds for every path exactly its contribution, in the
    order of the paths: P0_T0 * discount_sum * payoff at the final state of
    a path that survived and 0 for a knocked-out path; the reported price
    is their mean. *)
Theorem first_run_prices (c : Params) (U : matrix) (lbfgsb : Lbfgsb)
    (rnd : Draws) (n_paths : nat) (s : Store) :
  first_run c U lbfgsb rnd n_paths = inr s ->
  prices s = map (path_contribution c (step c U lbfgsb rnd)) (seq 0 n_paths) /\
  price s
  = vsum (map (path_contribution c (step c U lbfgsb rnd)) (seq 0 n_paths))
    / INR n_paths.
Proof.
  intros Hrun.
  assert (H := first_run_prices_list c U lbfgsb rnd n_paths s Hrun).
  split; [exact H|]. unfold price, mean. rewrite H.
  now rewrite length_map, length_seq.
Qed.

Lemma first_run_prices_witness :
  prices (record_path hot_params 0 hot_end_first (init_store 1))
  = map (path_contribution hot_params
           (step hot_params (U2 r_hot) lbfgsb_stay (all_up 2))) (seq 0 1) /\
  price (record_path hot_params 0 hot_end_first (init_store 1))
  = vsum (map (path_contribution hot_params
                 (step hot_params (U2 r_hot) lbfgsb_stay (all_up 2))) (seq 0 1))
    / INR 1.
Proof. apply first_run_prices. exact hot_first_run. Defined.

Lemma vsum_nonneg (l : list R) :
  Forall (fun a => 0 <= a) l -> 0 <= vsum l.
Proof.
  induction 1 as [|a t Ha _ IH]; [cbn; lra|]. rewrite vsum_cons. lra.
Qed.

Lemma mean_nonneg (l : list R) :
  l <> [] -> Forall (fun a => 0 <= a) l -> 0 <= mean l.
Proof.
  intros Hne H. unfold mean.
  apply Rmult_le_pos; [now apply vsum_nonneg|]. left. apply Rinv_0_lt_compat.
  apply lt_0_INR. destruct l; [congruence | cbn; lia].
Qed.

(** X9. Under the invariants of the market (N, M >= 1, T0, delta > 0,
    L0 > 0, sigma >= 0, Rup > 0) no entry of [prices] is negative after the
    first loop, whatever the strike, and neither is the price reported for
    one path or more. *)
Theorem first_run_prices_nonneg (c : Params) (U : matrix) (lbfgsb : Lbfgsb)
    (rnd : Draws) (n_paths : nat) (s : Store) :
  valid_market c -> (1 <= n_paths)%nat ->
  first_run c U lbfgsb rnd n_paths = inr s ->
  Forall (fun a => 0 <= a) (prices s) /\ 0 <= price s.
Proof.
  intros Hv Hn Hrun.
  assert (E := first_run_prices_list c U lbfgsb rnd n_paths s Hrun).
  assert (H : Forall (fun a => 0 <= a) (prices s)).
  { rewrite E, Forall_map. apply Forall_forall. intros p _.
    unfold path_contribution.
    destruct (run_path c _ p) as [err|e]; [lra|].
    now apply contribution_nonneg. }
  split; [exact H|]. unfold price. apply mean_nonneg; [|exact H].
  rewrite E. destruct n_paths; [lia | discriminate].
Qed.

Lemma first_run_prices_nonneg_witness :
  Forall (fun a => 0 <= a)
         (prices (record_path hot_params 0 hot_end_first (init_store 1))) /\
  0 <= price (record_path hot_params 0 hot_end_first (init_store 1)).
Proof.
  apply (first_run_prices_nonneg hot_params (U2 r_hot) lbfgsb_stay (all_up 2) 1).
  - exact (proj1 hot_valid).
  - lia.
  - exact hot_first_run.
Defined.

Lemma vsum_map_le (f g : nat -> R) (l : list nat) :
  (forall p, In p l -> f p <= g p) -> vsum (map f l) <= vsum (map g l).
Proof.
  induction l as [|a t IH]; intros H; [cbn; lra|].
  cbn [map]. rewrite !vsum_cons.
  assert (Ha := H a (or_introl eq_refl)).
  assert (Ht := IH (fun p Hp => H p (or_intror Hp))). lra.
Qed.

(** X10. When the notebook has run from top to bottom, the entry of
    [prices] of a path the second loop did not knock out is that path's
    contribution, and the entry of a path it knocked out is still the one
    the first loop left there.  Under the invariants of the market these
    left-over entries are not negative, so with one path or more the price
    reported after the second loop is at least the mean of the
    contributions of the second loop's paths. *)
Theorem second_run_prices (c : Params) (U : matrix) (lbfgsb : Lbfgsb)
    (rnd1 rnd2 : Draws) (n_paths : nat) (s2 : Store) :
  valid_market c -> (1 <= n_paths)%nat ->
  second_run c U lbfgsb rnd1 rnd2 n_paths = inr s2 ->
  exists s1,
    first_run c U lbfgsb rnd1 n_paths = inr s1 /\
    prices s2
    = map (second_loop_price c (step_half c U lbfgsb rnd2) (prices s1))
          (seq 0 n_paths) /\
    mean (map (path_contribution c (step_half c U lbfgsb rnd2))
              (seq 0 n_paths))
    <= price s2.
Proof.
  intros Hv Hn Hrun.
  destruct (second_run_contributions c U lbfgsb rnd1 rnd2 n_paths s2 Hrun)
    as (s1 & H1 & Hin).
  exists s1. split; [exact H1|].
  assert (Hok1 : store_ok n_paths s1)
    by (exact (proj1 (first_run_contributions c U lbfgsb rnd1 n_paths s1 H1))).
  assert (Hlen : List.length (prices s2) = n_paths).
  { unfold second_run in Hrun. rewrite H1 in Hrun. unfold mc_loop in Hrun.
    destruct (paths_from_inv c _ n_paths n_paths 0 s1 s2 Hok1 ltac:(lia) Hrun)
      as ((_ & _ & _ & Hl) & _). exact Hl. }
  assert (E : prices s2
              = map (second_loop_price c (step_half c U lbfgsb rnd2) (prices s1))
                    (seq 0 n_paths)).
  { apply list_of_nth; [exact Hlen|]. intros p Hp.
    destruct (Hin p Hp) as (e & He & _ & Hpr).
    unfold second_loop_price. now rewrite He. }
  split; [exact E|].
  assert (Hold : forall p, 0 <= nth p (prices s1) 0).
  { intros p.
    destruct (Nat.lt_ge_cases p (List.length (prices s1))) as [Hp|Hp].
    - assert (Hpos : Forall (fun a => 0 <= a) (prices s1)).
      { rewrite (first_run_prices_list c U lbfgsb rnd1 n_paths s1 H1).
        rewrite Forall_map. apply Forall_forall. intros q _.
        unfold path_contribution.
        destruct (run_path c _ q) as [err|e]; [lra|].
        now apply contribution_nonneg. }
      rewrite Forall_forall in Hpos. apply Hpos. now apply nth_In.
    - rewrite nth_overflow by exact Hp. lra. }
  unfold price, mean. rewrite E, !length_map, length_seq.
  apply Rmult_le_compat_r.
  - left. apply Rinv_0_lt_compat. apply lt_0_INR. lia.
  - apply vsum_map_le. intros p _.
    unfold path_contribution, second_loop_price.
    destruct (run_path c _ p) as [err|e]; [apply Hold|].
    unfold contribution. destruct (knocked_out e); [apply Hold | lra].
Qed.

Lemma second_run_prices_witness :
  exists s1,
    first_run hot_params (U2 r_hot) lbfgsb_stay (all_up 2) 1 = inr s1 /\
    prices (record_path hot_params 0 hot_end_second
              (record_path hot_params 0 hot_end_first (init_store 1)))
    = map (second_loop_price hot_params
             (step_half hot_params (U2 r_hot) lbfgsb_stay (all_up 2))
             (prices s1))
          (seq 0 1) /\
    mean (map (path_contribution hot_params
                 (step_half hot_params (U2 r_hot) lbfgsb_stay (all_up 2)))
              (seq 0 1))
    <= price (record_path hot_params 0 hot_end_second
                (record_path hot_params 0 hot_end_first (init_store 1))).
Proof.
  apply (second_run_prices hot_params (U2 r_hot) lbfgsb_stay
           (all_up 2) (all_up 2) 1).
  - exact (proj1 hot_valid).
  - lia.
  - exact hot_second_run.
Defined.

(** ** The two schemes *)

(** A turn of the second loop lets the path go on only after one of the two
    checks; the first loop then takes the same step. *)
Lemma step_half_continue (c : Params) (U : matrix) (lbfgsb : Lbfgsb)
    (rnd : Draws) (p k : nat) (logL logL' : list R) :
  step_half c U lbfgsb rnd p k logL = Continue logL' ->
  (coarse_safe c logL \/ fine_safe c logL) /\
  logL' = euler logL (drift_vec c logL) (diffusion c U (xi rnd p k)) /\
  step c U lbfgsb rnd p k logL = Continue logL'.
Proof.
  unfold step_half, step, coarse_safe, fine_safe. cbv zeta. intros H.
  destruct (Rlt_dec _ _) as [Hc|Hc].
  - injection H as <-. auto.
  - destruct (Rlt_dec _ _) as [Hf|Hf].
    + injection H as <-. auto.
    + destruct (project_to_barrier2 _ _ _ _); discriminate.
Qed.

Lemma path_from_agree (c : Params) (U : matrix) (lbfgsb : Lbfgsb)
    (rnd : Draws) (p : nat) (e : PathEnd) :
  knocked_out e = false ->
  forall todo k logL,
  path_from c (step_half c U lbfgsb rnd p) todo k logL = inr e ->
  path_from c (step c U lbfgsb rnd p) todo k logL = inr e.
Proof.
  intros Hko. induction todo as [|todo IH]; intros k logL H;
    cbn [path_from] in *; [exact H|].
  destruct (step_half c U lbfgsb rnd p k logL) as [x'|x'|err] eqn:Hs.
  - destruct (step_half_continue c U lbfgsb rnd p k logL x' Hs) as (_ & _ & ->).
    now apply IH.
  - injection H as <-. discriminate.
  - discriminate.
Qed.

(** X11. On the same draws, a path that the second loop (projection and
    stop) carries to T0 without knocking it out is carried by the first
    loop through the same states to the same end: the two schemes differ
    only on paths that come to a state where both checks are inconclusive. *)
Theorem schemes_agree_away_from_barrier (c : Params) (U : matrix)
    (lbfgsb : Lbfgsb) (rnd : Draws) (p : nat) (e : PathEnd) :
  run_path c (step_half c U lbfgsb rnd) p = inr e ->
  knocked_out e = false ->
  run_path c (step c U lbfgsb rnd) p = inr e /\
  forall k logL,
    state_at (step_half c U lbfgsb rnd p) k (map ln (L0 c)) = Some logL ->
    state_at (step c U lbfgsb rnd p) k (map ln (L0 c)) = Some logL.
Proof.
  intros Hrun Hko. split.
  - unfold run_path in *. now apply path_from_agree.
  - induction k as [|k IH]; intros logL Hs; cbn [state_at] in *; [exact Hs|].
    destruct (state_at (step_half c U lbfgsb rnd p) k (map ln (L0 c)))
      as [x|]; [|discriminate].
    rewrite (IH x eq_refl).
    destruct (step_half c U lbfgsb rnd p k x) as [x'|x'|err] eqn:Hb;
      try discriminate.
    destruct (step_half_continue c U lbfgsb rnd p k x x' Hb) as (_ & _ & ->).
    exact Hs.
Qed.

Lemma step_half_coarse (c : Params) (U : matrix) (lbfgsb : Lbfgsb)
    (rnd : Draws) (p k : nat) (logL : list R) :
  coarse_safe c logL ->
  step_half c U lbfgsb rnd p k logL
  = Continue (euler logL (drift_vec c logL) (diffusion c U (xi rnd p k))).
Proof.
  intros Hc. unfold step_half. cbv zeta.
  destruct (Rlt_dec _ _) as [_|Hn]; [reflexivity | exfalso; exact (Hn Hc)].
Qed.

Lemma warm_half_path_down (lbfgsb : Lbfgsb) :
  run_path warm_params (step_half warm_params (U2 r_warm) lbfgsb down_then_up) 0
  = inr warm_end_down.
Proof.
  unfold run_path. rewrite warm_logL0. cbn [M warm_params path_from].
  rewrite step_half_coarse by exact warm_start_safe.
  assert (E : euler hot_logL0 (drift_vec warm_params hot_logL0)
                    (diffusion warm_params (U2 r_warm) (xi down_then_up 0%nat 0%nat))
              = warm_next (- 1)).
  { assert (H := warm_step0 lbfgsb down_then_up 0 (- 1) eq_refl).
    rewrite step_coarse in H by exact warm_start_safe. exact (f_equal (fun s => match s with Continue x => x | _ => [] end) H). }
  rewrite E. rewrite step_half_coarse by exact warm_down_safe. reflexivity.
Qed.

Lemma schemes_agree_away_from_barrier_witness :
  run_path warm_params (step warm_params (U2 r_warm) lbfgsb_fail down_then_up) 0
  = inr warm_end_down /\
  forall k logL,
    state_at (step_half warm_params (U2 r_warm) lbfgsb_fail down_then_up 0) k
             (map ln (L0 warm_params)) = Some logL ->
    state_at (step warm_params (U2 r_warm) lbfgsb_fail down_then_up 0) k
             (map ln (L0 warm_params)) = Some logL.
Proof.
  apply schemes_agree_away_from_barrier.
  - apply warm_half_path_down.
  - reflexivity.
Defined.

(** ** Where a loop can fail *)

Lemma step_raise_inv (c : Params) (U : matrix) (lbfgsb : Lbfgsb) (rnd : Draws)
    (p k : nat) (logL : list R) (e : Exn) :
  step c U lbfgsb rnd p k logL = Raise e \/
  step_half c U lbfgsb rnd p k logL = Raise e ->
  ~ coarse_safe c logL /\ ~ fine_safe c logL /\
  project_to_barrier2 lbfgsb logL (delta c) (Rup c) = inl e.
Proof.
  unfold step, step_half, coarse_safe, fine_safe. cbv zeta. intros H.
  destruct (Rlt_dec _ _) as [Hc|Hc]; [destruct H; discriminate|].
  destruct (Rlt_dec _ _) as [Hf|Hf]; [destruct H; discriminate|].
  split; [exact Hc|]. split; [exact Hf|].
  destruct (project_to_barrier2 _ _ _ _) as [e'|x].
  - destruct H as [H|H]; now injection H as ->.
  - destruct H as [H|H]; [|discriminate].
    destruct (Rlt_dec _ _); discriminate.
Qed.

Lemma project2_raise_inv (lbfgsb : Lbfgsb) (logL : list R) (delta Rup : R)
    (e : Exn) :
  project_to_barrier2 lbfgsb logL delta Rup = inl e ->
  (logL = [] /\
   e = IndexError "index 0 is out of bounds for axis 0 with size 0") \/
  (logL <> [] /\
   res_success (lbfgsb (objective logL delta Rup) (tl logL)) = false /\
   e = RuntimeError
         ("Projection2 failed: "
          ++ res_message (lbfgsb (objective logL delta Rup) (tl logL)))).
Proof.
  unfold project_to_barrier2. destruct logL as [|a y]; cbv zeta; cbn [tl].
  - intros H. injection H as <-. left. split; reflexivity.
  - destruct (res_success _) eqn:Hs; [discriminate|].
    intros H. injection H as <-. right.
    split; [discriminate|]. split; reflexivity.
Qed.

Lemma path_from_raise_inv (c : Params) (body : nat -> list R -> Step)
    (start : list R) (k : nat) (e : Exn) :
  forall todo k0 x0,
  state_at body k0 start = Some x0 ->
  path_from c body todo k0 x0 = inl (k, e) ->
  (k0 <= k < k0 + todo)%nat /\
  exists logL, state_at body k start = Some logL /\ body k logL = Raise e.
Proof.
  induction todo as [|todo IH]; intros k0 x0 Hs H; cbn [path_from] in H;
    [discriminate|].
  destruct (body k0 x0) as [x'|x'|err] eqn:Hb; [|discriminate|].
  - assert (Hs' : state_at body (S k0) start = Some x')
      by (cbn [state_at]; now rewrite Hs, Hb).
    destruct (IH _ _ Hs' H) as [Hk Hex]. split; [lia | exact Hex].
  - injection H as <- <-. split; [lia|]. exists x0. split; assumption.
Qed.

Lemma paths_from_raise_inv (c : Params) (body : nat -> nat -> list R -> Step)
    (p k : nat) (e : Exn) :
  forall todo q s,
  paths_from c body todo q s = inl (p, k, e) ->
  (q <= p < q + todo)%nat /\
  run_path c body p = inl (k, e) /\
  (forall q', (q <= q' < p)%nat -> exists pe, run_path c body q' = inr pe).
Proof.
  induction todo as [|todo IH]; intros q s H; cbn [paths_from] in H;
    [discriminate|].
  destruct (run_path c body q) as [[k' e']|pe] eqn:Hq.
  - injection H as <- <- <-. split; [lia|]. split; [exact Hq|].
    intros q' Hq'. lia.
  - destruct (IH _ _ H) as (Hp & Hr & Hprev). split; [lia|].
    split; [exact Hr|]. intros q' Hq'.
    destruct (Nat.eq_dec q' q) as [-> | Hne]; [now exists pe|].
    apply Hprev. lia.
Qed.

(** ** The shape of the state *)

Lemma euler_length (c : Params) (U : matrix) (base logL x : list R) :
  List.length (sigma c) = N c -> List.length U = N c ->
  List.length base = N c ->
  List.length (euler base (drift_vec c logL) (diffusion c U x)) = N c.
Proof.
  intros Hs HU Hb. unfold euler, vadd.
  rewrite !zipWith_length, drift_vec_length, diffusion_length by assumption.
  lia.
Qed.

Lemma project2_length (lbfgsb : Lbfgsb) (logL logL_pi : list R)
    (delta Rup : R) :
  shape_preserving lbfgsb ->
  project_to_barrier2 lbfgsb logL delta Rup = inr logL_pi ->
  List.length logL_pi = List.length logL.
Proof.
  intros Hsh H. unfold project_to_barrier2 in H.
  destruct logL as [|a y0]; [discriminate|]. cbv zeta in H.
  destruct (res_success _); [|discriminate]. injection H as <-.
  unfold logLpi_of_tail. cbn [List.length]. now rewrite Hsh.
Qed.

Lemma pull_length (c : Params) (logL_pi logL : list R) :
  List.length logL_pi = List.length logL ->
  List.length (pull c logL_pi logL) = List.length logL.
Proof.
  intros H. unfold pull, vadd, vscale, vsub.
  rewrite zipWith_length, length_map, zipWith_length. lia.
Qed.

Lemma step_length (c : Params) (U : matrix) (lbfgsb : Lbfgsb) (rnd : Draws)
    (p k : nat) (logL : list R) :
  List.length (sigma c) = N c -> List.length U = N c ->
  shape_preserving lbfgsb -> List.length logL = N c ->
  (forall x, step c U lbfgsb rnd p k logL = Continue x \/
             step c U lbfgsb rnd p k logL = Break x \/
             step_half c U lbfgsb rnd p k logL = Continue x \/
             step_half c U lbfgsb rnd p k logL = Break x ->
             List.length x = N c).
Proof.
  intros Hs HU Hsh Hl x. unfold step, step_half. cbv zeta.
  assert (He := euler_length c U logL logL (xi rnd p k) Hs HU Hl).
  destruct (Rlt_dec _ _) as [Hc|Hc].
  - intros [H|[H|[H|H]]]; try discriminate; now injection H as <-.
  - destruct (Rlt_dec _ _) as [Hf|Hf].
    + intros [H|[H|[H|H]]]; try discriminate; now injection H as <-.
    + destruct (project_to_barrier2 lbfgsb logL (delta c) (Rup c))
        as [e|logL_pi] eqn:Hp.
      * intros [H|[H|[H|H]]]; discriminate.
      * assert (Hpi := project2_length lbfgsb logL logL_pi _ _ Hsh Hp).
        destruct (Rlt_dec _ _) as [Hko|Hko];
          intros [H|[H|[H|H]]]; try discriminate; injection H as <-;
          try exact Hl; try lia.
        apply euler_length; try assumption.
        rewrite pull_length by exact Hpi. exact Hl.
Qed.

Lemma path_from_length (c : Params) (U : matrix) (lbfgsb : Lbfgsb)
    (rnd : Draws) (p : nat) (body : nat -> list R -> Step) :
  body = step c U lbfgsb rnd p \/ body = step_half c U lbfgsb rnd p ->
  List.length (sigma c) = N c -> List.length U = N c ->
  shape_preserving lbfgsb ->
  forall todo k logL e,
  List.length logL = N c ->
  path_from c body todo k logL = inr e ->
  List.length (end_logL e) = N c.
Proof.
  intros Hbody Hs HU Hsh.
  induction todo as [|todo IH]; intros k logL e Hl H; cbn [path_from] in H.
  - now injection H as <-.
  - assert (Hstep := step_length c U lbfgsb rnd p k logL Hs HU Hsh Hl).
    destruct (body k logL) as [x'|x'|err] eqn:Hb; [| |discriminate].
    + apply (IH (S k) x' e); [|exact H]. apply Hstep.
      destruct Hbody as [-> | ->]; auto.
    + injection H as <-. cbn. apply Hstep.
      destruct Hbody as [-> | ->]; auto.
Qed.

Lemma state_at_length (c : Params) (U : matrix) (lbfgsb : Lbfgsb)
    (rnd : Draws) (p : nat) (body : nat -> list R -> Step) :
  body = step c U lbfgsb rnd p \/ body = step_half c U lbfgsb rnd p ->
  List.length (sigma c) = N c -> List.length U = N c ->
  shape_preserving lbfgsb ->
  forall k start logL,
  List.length start = N c ->
  state_at body k start = Some logL ->
  List.length logL = N c.
Proof.
  intros Hbody Hs HU Hsh.
  induction k as [|k IH]; intros start logL Hl H; cbn [state_at] in H.
  - now injection H as <-.
  - destruct (state_at body k start) as [x|] eqn:Hk; [|discriminate].
    assert (Hx := IH start x Hl Hk).
    assert (Hstep := step_length c U lbfgsb rnd p k x Hs HU Hsh Hx).
    destruct (body k x) as [x'|x'|err] eqn:Hb; try discriminate.
    injection H as <-. apply Hstep. destruct Hbody as [-> | ->]; auto.
Qed.

(** X13. With N volatilities, N initial forward rates, a matrix U of N rows
    and an optimizer that returns a tail of the shape it was started from,
    the state of a path keeps its N entries in both loops: at the start of
    every step, and at the end of the path, whether it survived or was
    knocked out. *)
Theorem state_keeps_N_entries (c : Params) (U : matrix) (lbfgsb : Lbfgsb)
    (rnd : Draws) (body : nat -> nat -> list R -> Step) (p : nat) :
  body = step c U lbfgsb rnd \/ body = step_half c U lbfgsb rnd ->
  List.length (sigma c) = N c -> List.length (L0 c) = N c ->
  List.length U = N c -> shape_preserving lbfgsb ->
  (forall k logL,
     state_at (body p) k (map ln (L0 c)) = Some logL ->
     List.length logL = N c) /\
  (forall e, run_path c body p = inr e -> List.length (end_logL e) = N c).
Proof.
  intros Hbody Hs HL HU Hsh.
  assert (Hb : body p = step c U lbfgsb rnd p \/
               body p = step_half c U lbfgsb rnd p)
    by (destruct Hbody as [-> | ->]; auto).
  assert (Hl : List.length (map ln (L0 c)) = N c) by (now rewrite length_map).
  split.
  - intros k logL. now apply (state_at_length c U lbfgsb rnd p).
  - intros e. unfold run_path.
    now apply (path_from_length c U lbfgsb rnd p).
Qed.

Lemma lbfgsb_stay_shape : shape_preserving lbfgsb_stay.
Proof. intros f y0. reflexivity. Qed.

Lemma state_keeps_N_entries_witness :
  (forall k logL,
     state_at (step hot_params (U2 r_hot) lbfgsb_stay (all_up 2) 0) k
              (map ln (L0 hot_params)) = Some logL ->
     List.length logL = N hot_params) /\
  (forall e,
     run_path hot_params (step hot_params (U2 r_hot) lbfgsb_stay (all_up 2)) 0
     = inr e ->
     List.length (end_logL e) = N hot_params).
Proof.
  apply (state_keeps_N_entries hot_params (U2 r_hot) lbfgsb_stay (all_up 2)).
  - left. reflexivity.
  - reflexivity.
  - reflexivity.
  - reflexivity.
  - exact lbfgsb_stay_shape.
Defined.

(** ** Failure and completion under the invariants *)

Lemma lbfgsb_fail_shape : shape_preserving lbfgsb_fail.
Proof. intros f y0. reflexivity. Qed.

Lemma warm_valid_market : valid_market warm_params.
Proof.
  unfold valid_market. cbn [N M T0 delta L0 sigma Rup warm_params].
  repeat split; try lia; try lra; try reflexivity.
  - constructor; [lra|]. constructor; [lra | constructor].
  - constructor; [lra|]. constructor; [lra | constructor].
Qed.

Lemma warm_square : square 2 (U2 r_warm).
Proof.
  split; [reflexivity|].
  constructor; [reflexivity|]. constructor; [reflexivity | constructor].
Qed.

(** X12. Under the invariants of the market (N, M >= 1, T0 > 0, delta > 0,
    L0 > 0 and sigma >= 0 of length N, Rup > 0), with a square matrix U of
    size N and an optimizer that returns a tail of the shape it was started
    from, a path loop, the first or the second, ends with an exception only
    in one way: some path p < n_paths, the paths before it having ended
    without one, came at a step k < M to a state of N entries where both
    checks were inconclusive, and L-BFGS-B reported failure there.  The
    exception is the projector's RuntimeError, "Projection2 failed: "
    followed by the optimizer's message. *)
Theorem failure_comes_from_projector (c : Params) (U : matrix)
    (lbfgsb : Lbfgsb) (rnd : Draws) (n_paths : nat) (s0 : Store)
    (body : nat -> nat -> list R -> Step) (p k : nat) (e : Exn) :
  valid_market c -> square (N c) U -> shape_preserving lbfgsb ->
  body = step c U lbfgsb rnd \/ body = step_half c U lbfgsb rnd ->
  mc_loop c body n_paths s0 = inl (p, k, e) ->
  (p < n_paths)%nat /\ (k < M c)%nat /\
  (forall q, (q < p)%nat -> exists pe, run_path c body q = inr pe) /\
  exists logL,
    state_at (body p) k (map ln (L0 c)) = Some logL /\
    List.length logL = N c /\
    ~ coarse_safe c logL /\ ~ fine_safe c logL /\
    project_to_barrier2 lbfgsb logL (delta c) (Rup c) = inl e /\
    res_success (lbfgsb (objective logL (delta c) (Rup c)) (tl logL)) = false /\
    e = RuntimeError
          ("Projection2 failed: "
           ++ res_message (lbfgsb (objective logL (delta c) (Rup c))
                                  (tl logL))).
Proof.
  intros Hv [HU _] Hsh Hbody Hrun. unfold mc_loop in Hrun.
  destruct Hv as (HN & _ & _ & _ & HlL & _ & Hls & _).
  destruct (paths_from_raise_inv c body p k e _ _ _ Hrun) as (Hp & Hr & Hprev).
  unfold run_path in Hr.
  destruct (path_from_raise_inv c (body p) (map ln (L0 c)) k e _ 0
              (map ln (L0 c)) eq_refl Hr) as (Hk & logL & Hst & Hb).
  assert (Hbp : body p = step c U lbfgsb rnd p \/
                body p = step_half c U lbfgsb rnd p)
    by (destruct Hbody as [-> | ->]; auto).
  assert (Hl0 : List.length (map ln (L0 c)) = N c) by (now rewrite length_map).
  assert (Hl : List.length logL = N c)
    by (exact (state_at_length c U lbfgsb rnd p (body p) Hbp Hls HU Hsh
                 k _ logL Hl0 Hst)).
  split; [lia|]. split; [lia|]. split.
  - intros q Hq. apply Hprev. lia.
  - exists logL. split; [exact Hst|]. split; [exact Hl|].
    assert (Hinv : ~ coarse_safe c logL /\ ~ fine_safe c logL /\
                   project_to_barrier2 lbfgsb logL (delta c) (Rup c) = inl e).
    { apply (step_raise_inv c U lbfgsb rnd p k).
      destruct Hbody as [-> | ->]; [left | right]; exact Hb. }
    destruct Hinv as (Hc & Hf & Hpr).
    split; [exact Hc|]. split; [exact Hf|]. split; [exact Hpr|].
    destruct (project2_raise_inv lbfgsb logL _ _ e Hpr) as [[E _]|(_ & Hs & He)].
    + rewrite E in Hl. cbn in Hl. lia.
    + split; assumption.
Qed.

Lemma warm_loop_fails :
  mc_loop warm_params (step warm_params (U2 r_warm) lbfgsb_fail (all_up 2)) 1
          (init_store 1)
  = inl (0%nat, 1%nat, projection2_failed).
Proof.
  unfold mc_loop. cbn [paths_from].
  now rewrite (warm_path_up (all_up 2) 0 eq_refl).
Qed.

Lemma failure_comes_from_projector_witness :
  (0 < 1)%nat /\ (1 < M warm_params)%nat /\
  (forall q, (q < 0)%nat ->
     exists pe,
       run_path warm_params
         (step warm_params (U2 r_warm) lbfgsb_fail (all_up 2)) q = inr pe) /\
  exists logL,
    state_at (step warm_params (U2 r_warm) lbfgsb_fail (all_up 2) 0) 1
             (map ln (L0 warm_params)) = Some logL /\
    List.length logL = N warm_params /\
    ~ coarse_safe warm_params logL /\ ~ fine_safe warm_params logL /\
    project_to_barrier2 lbfgsb_fail logL (delta warm_params) (Rup warm_params)
    = inl projection2_failed /\
    res_success (lbfgsb_fail (objective logL (delta warm_params)
                                        (Rup warm_params)) (tl logL)) = false /\
    projection2_failed
    = RuntimeError
        ("Projection2 failed: "
         ++ res_message (lbfgsb_fail (objective logL (delta warm_params)
                                                (Rup warm_params)) (tl logL))).
Proof.
  apply (failure_comes_from_projector warm_params (U2 r_warm) lbfgsb_fail
           (all_up 2) 1 (init_store 1) _ 0 1 projection2_failed).
  - exact warm_valid_market.
  - exact warm_square.
  - exact lbfgsb_fail_shape.
  - left. reflexivity.
  - exact warm_loop_fails.
Defined.

Lemma step_no_raise (c : Params) (U : matrix) (lbfgsb : Lbfgsb) (rnd : Draws)
    (p k : nat) (logL : list R) (e : Exn) :
  always_converges lbfgsb -> logL <> [] ->
  step c U lbfgsb rnd p k logL = Raise e \/
  step_half c U lbfgsb rnd p k logL = Raise e -> False.
Proof.
  intros Hconv Hne H.
  destruct (step_raise_inv c U lbfgsb rnd p k logL e H) as (_ & _ & Hp).
  destruct (project2_raise_inv lbfgsb logL _ _ e Hp) as [[E _]|(_ & Hs & _)];
    [congruence|].
  rewrite Hconv in Hs. discriminate.
Qed.

Lemma path_from_total (c : Params) (U : matrix) (lbfgsb : Lbfgsb)
    (rnd : Draws) (p : nat) (body : nat -> list R -> Step) :
  body = step c U lbfgsb rnd p \/ body = step_half c U lbfgsb rnd p ->
  (1 <= N c)%nat -> List.length (sigma c) = N c -> List.length U = N c ->
  shape_preserving lbfgsb -> always_converges lbfgsb ->
  forall todo k logL,
  List.length logL = N c ->
  exists e, path_from c body todo k logL = inr e.
Proof.
  intros Hbody HN Hs HU Hsh Hconv.
  induction todo as [|todo IH]; intros k logL Hl; cbn [path_from].
  - eexists. reflexivity.
  - assert (Hstep := step_length c U lbfgsb rnd p k logL Hs HU Hsh Hl).
    assert (Hne : logL <> []) by (intros E; rewrite E in Hl; cbn in Hl; lia).
    destruct (body k logL) as [x'|x'|err] eqn:Hb.
    + apply IH. apply Hstep. destruct Hbody as [-> | ->]; auto.
    + eexists. reflexivity.
    + exfalso. apply (step_no_raise c U lbfgsb rnd p k logL err Hconv Hne).
      destruct Hbody as [-> | ->]; auto.
Qed.

Lemma paths_from_total (c : Params) (body : nat -> nat -> list R -> Step) :
  (forall p, exists e, run_path c body p = inr e) ->
  forall todo p s, exists s', paths_from c body todo p s = inr s'.
Proof.
  intros Hall. induction todo as [|todo IH]; intros p s; cbn [paths_from].
  - eexists. reflexivity.
  - destruct (Hall p) as [e ->]. apply IH.
Qed.

(** X14. Under the invariants of the market (N, M >= 1, T0 > 0, delta > 0,
    L0 > 0 and sigma >= 0 of length N, Rup > 0), with a square matrix U of
    size N and an optimizer that always reports success and returns a tail
    of the shape it was started from, neither loop raises: for every number
    of paths and all draws the first loop and then the second run to their
    end and results are reported. *)
Theorem loops_complete (c : Params) (U : matrix) (lbfgsb : Lbfgsb)
    (rnd1 rnd2 : Draws) (n_paths : nat) :
  valid_market c -> square (N c) U ->
  shape_preserving lbfgsb -> always_converges lbfgsb ->
  exists s1 s2,
    first_run c U lbfgsb rnd1 n_paths = inr s1 /\
    second_run c U lbfgsb rnd1 rnd2 n_paths = inr s2.
Proof.
  intros Hv [HU _] Hsh Hconv.
  destruct Hv as (HN & _ & _ & _ & HL & _ & Hs & _).
  assert (Hl : List.length (map ln (L0 c)) = N c) by (now rewrite length_map).
  assert (H1 : forall p, exists e,
             run_path c (step c U lbfgsb rnd1) p = inr e).
  { intros p. unfold run_path.
    apply (path_from_total c U lbfgsb rnd1 p); auto. }
  assert (H2 : forall p, exists e,
             run_path c (step_half c U lbfgsb rnd2) p = inr e).
  { intros p. unfold run_path.
    apply (path_from_total c U lbfgsb rnd2 p); auto. }
  destruct (paths_from_total c _ H1 n_paths 0 (init_store n_paths)) as [s1 E1].
  destruct (paths_from_total c _ H2 n_paths 0 s1) as [s2 E2].
  exists s1, s2. unfold second_run, first_run, mc_loop.
  rewrite E1. split; [reflexivity | exact E2].
Qed.

Lemma lbfgsb_stay_converges : always_converges lbfgsb_stay.
Proof. intros f y0. reflexivity. Qed.

Lemma loops_complete_witness :
  exists s1 s2,
    first_run hot_params (U2 r_hot) lbfgsb_stay (all_up 2) 1000 = inr s1 /\
    second_run hot_params (U2 r_hot) lbfgsb_stay (all_up 2) (all_up 2) 1000
    = inr s2.
Proof.
  apply loops_complete.
  - exact (proj1 hot_valid).
  - exact hot_square.
  - exact lbfgsb_stay_shape.
  - exact lbfgsb_stay_converges.
Defined.

(** ** Zero volatility *)

Lemma zero_vol_step (c : Params) (U : matrix) (lbfgsb : Lbfgsb) (rnd : Draws)
    (p k : nat) :
  valid_params c -> zero_vol c -> List.length U = N c ->
  step c U lbfgsb rnd p k (map ln (L0 c)) = Continue (map ln (L0 c)) /\
  step_half c U lbfgsb rnd p k (map ln (L0 c)) = Continue (map ln (L0 c)).
Proof.
  intros Hv Hz HU.
  assert (Hfs := zero_vol_fine_safe c Hv Hz).
  destruct Hv as ((_ & _ & _ & _ & HlL & _ & Hls & _) & _).
  assert (Hl : List.length (map ln (L0 c)) = N c) by now rewrite length_map.
  unfold step, step_half. cbv zeta.
  rewrite (zero_vol_euler c U _ _ Hz Hls HU Hl).
  destruct (Rlt_dec _ _); [split; reflexivity|].
  destruct (Rlt_dec _ _) as [_|Hn]; [split; reflexivity|].
  exfalso. apply Hn. exact Hfs.
Qed.

Lemma zero_vol_path (c : Params) (U : matrix) (lbfgsb : Lbfgsb) (rnd : Draws)
    (body : nat -> nat -> list R -> Step) (p : nat) :
  body = step c U lbfgsb rnd \/ body = step_half c U lbfgsb rnd ->
  valid_params c -> zero_vol c -> List.length U = N c ->
  run_path c body p = inr (mkPathEnd (map ln (L0 c)) false (M c)).
Proof.
  intros Hbody Hv Hz HU. unfold run_path.
  generalize 0%nat at 1. generalize (M c) at 1.
  induction n as [|todo IH]; intros k; cbn [path_from]; [reflexivity|].
  destruct (zero_vol_step c U lbfgsb rnd p k Hv Hz HU) as [H1 H2].
  destruct Hbody as [-> | ->]; [rewrite H1 | rewrite H2]; apply IH.
Qed.

Lemma mean_const (v : R) (l : list R) :
  l <> [] -> Forall (fun a => a = v) l -> mean l = v.
Proof.
  intros Hne H. unfold mean.
  assert (Hs : vsum l = v * INR (List.length l)).
  { induction H as [|a t Ha _ IH]; [congruence|].
    change (List.length (a :: t)) with (S (List.length t)).
    rewrite S_INR, vsum_cons, Ha. destruct t as [|b t'].
    - cbn. ring.
    - rewrite IH by discriminate. ring. }
  rewrite Hs. field. apply not_0_INR. destruct l; [congruence | discriminate].
Qed.

(** X15. Without volatility (every sigma_i = 0), under the invariants of
    the parameters and with U of N rows, the simulation is deterministic:
    for all draws and every optimizer each path of either loop stays at
    ln L0, passes a check at every step and ends alive at step M; a run of
    the first loop with one path or more never fails, reports the price
    P0_T0 * discount_sum(ln L0) * payoff(ln L0) and the mean exit time
    T0. *)
Theorem zero_vol_run (c : Params) (U : matrix) (lbfgsb : Lbfgsb)
    (rnd : Draws) (n_paths : nat) :
  valid_params c -> zero_vol c -> List.length U = N c ->
  (1 <= n_paths)%nat ->
  (forall p,
     run_path c (step c U lbfgsb rnd) p
     = inr (mkPathEnd (map ln (L0 c)) false (M c)) /\
     run_path c (step_half c U lbfgsb rnd) p
     = inr (mkPathEnd (map ln (L0 c)) false (M c))) /\
  exists s,
    first_run c U lbfgsb rnd n_paths = inr s /\
    price s
    = P0_T0 c * (discount_sum c (map ln (L0 c)) * payoff c (map ln (L0 c))) /\
    mean_exit_time s = T0 c.
Proof.
  intros Hv Hz HU Hn.
  assert (Hp : forall p,
     run_path c (step c U lbfgsb rnd) p
     = inr (mkPathEnd (map ln (L0 c)) false (M c)))
    by (intros p; apply (zero_vol_path c U lbfgsb rnd); auto).
  split.
  - intros p. split; [apply Hp|].
    apply (zero_vol_path c U lbfgsb rnd); auto.
  - destruct (paths_from_total c (step c U lbfgsb rnd)
                (fun p => ex_intro _ _ (Hp p)) n_paths 0 (init_store n_paths))
      as [s Hs].
    exists s. split; [exact Hs|].
    destruct (first_run_contributions c U lbfgsb rnd n_paths s Hs)
      as ((_ & Hlt & _ & Hlp) & Hin).
    assert (HM : (1 <= M c)%nat) by (destruct Hv as ((_ & HM & _) & _); exact HM).
    split.
    + unfold price. apply mean_const.
      * intros E. rewrite E in Hlp. cbn in Hlp. lia.
      * apply Forall_forall. intros a Ha.
        destruct (In_nth _ _ 0 Ha) as (q & Hq & <-). rewrite Hlp in Hq.
        destruct (Hin q Hq) as (e & He & _ & Hpr).
        rewrite Hp in He. injection He as <-. exact Hpr.
    + unfold mean_exit_time. apply mean_const.
      * intros E. rewrite E in Hlt. cbn in Hlt. lia.
      * apply Forall_forall. intros a Ha.
        destruct (In_nth _ _ 0 Ha) as (q & Hq & <-). rewrite Hlt in Hq.
        destruct (Hin q Hq) as (e & He & Ht & _).
        rewrite Hp in He. injection He as <-. rewrite Ht. cbn [exit_step].
        now apply M_h.
Qed.

Lemma calm_valid : valid_params calm_params.
Proof.
  unfold valid_params, valid_market. cbn [N M T0 delta L0 sigma Rup calm_params].
  repeat split; try lia; try lra; try reflexivity.
  - constructor; [lra|]. constructor; [lra | constructor].
  - constructor; [lra|]. constructor; [lra | constructor].
  - change (map ln [1 / 20; 1 / 20]) with (repeat (ln (1 / 20)) 2).
    rewrite R_swap_constant by (lia || lra).
    rewrite exp_ln by lra. lra.
Qed.

Lemma calm_zero_vol : zero_vol calm_params.
Proof.
  intros i. cbn [sigma calm_params].
  destruct i as [|[|[|i]]]; reflexivity.
Qed.

Lemma zero_vol_run_witness :
  (forall p,
     run_path calm_params (step calm_params (U2 r_hot) lbfgsb_fail (all_up 2)) p
     = inr (mkPathEnd (map ln (L0 calm_params)) false (M calm_params)) /\
     run_path calm_params
       (step_half calm_params (U2 r_hot) lbfgsb_fail (all_up 2)) p
     = inr (mkPathEnd (map ln (L0 calm_params)) false (M calm_params))) /\
  exists s,
    first_run calm_params (U2 r_hot) lbfgsb_fail (all_up 2) 3 = inr s /\
    price s
    = P0_T0 calm_params
      * (discount_sum calm_params (map ln (L0 calm_params))
         * payoff calm_params (map ln (L0 calm_params))) /\
    mean_exit_time s = T0 calm_params.
Proof.
  apply zero_vol_run.
  - exact calm_valid.
  - exact calm_zero_vol.
  - reflexivity.
  - lia.
Defined.

(** ** The pull towards the barrier *)

Lemma sumsq_cons (a : R) (t : list R) : sumsq (a :: t) = a * a + sumsq t.
Proof. reflexivity. Qed.

Lemma sumsq_nonneg (l : list R) : 0 <= sumsq l.
Proof.
  induction l as [|a t IH]; [cbn; lra|]. rewrite sumsq_cons. nra.
Qed.

Lemma sumsq_vscale (a : R) (l : list R) :
  sumsq (vscale a l) = a * a * sumsq l.
Proof.
  induction l as [|b t IH]; [cbn; ring|].
  unfold vscale in *. cbn [map]. rewrite !sumsq_cons, IH. ring.
Qed.

Lemma norm_vscale (a : R) (l : list R) : norm (vscale a l) = Rabs a * norm l.
Proof.
  unfold norm. rewrite sumsq_vscale.
  assert (Ha : 0 <= a * a) by nra.
  rewrite sqrt_mult by (exact Ha || apply sumsq_nonneg).
  f_equal. fold (Rsqr a). apply sqrt_Rsqr_abs.
Qed.

Lemma pull_displacement (a : R) :
  forall logL_pi logL, List.length logL_pi = List.length logL ->
  vsub (vadd logL (vscale a (vsub logL_pi logL))) logL
  = vscale a (vsub logL_pi logL) /\
  vsub logL_pi (vadd logL (vscale a (vsub logL_pi logL)))
  = vscale (1 - a) (vsub logL_pi logL).
Proof.
  induction logL_pi as [|u t IH]; intros [|x y] Hl; try discriminate.
  - split; reflexivity.
  - injection Hl as Hl. destruct (IH y Hl) as [H1 H2].
    unfold vsub, vadd, vscale in *. cbn [zipWith map].
    rewrite H1, H2. split; f_equal; ring.
Qed.

(** X16. In the boundary zone of the first loop, when the projection has
    the shape of the state and lies at a distance dist > 0 from it, the
    pull moves the state by exactly lambda_k along the segment to the
    projection: the pulled state lies lambda_k from the state and
    |dist - lambda_k| from the projection (beyond it when lambda_k > dist). *)
Theorem pull_moves_by_lambda (c : Params) (logL_pi logL : list R) :
  List.length logL_pi = List.length logL ->
  0 < dist logL_pi logL -> 0 <= lambda_k c ->
  dist (pull c logL_pi logL) logL = lambda_k c /\
  dist logL_pi (pull c logL_pi logL) = Rabs (dist logL_pi logL - lambda_k c).
Proof.
  intros Hl Hd Hlam. unfold pull.
  destruct (pull_displacement (lambda_k c / dist logL_pi logL) _ _ Hl)
    as [H1 H2].
  unfold dist at 1 3. rewrite H1, H2, !norm_vscale.
  fold (dist logL_pi logL). set (d := dist logL_pi logL) in *.
  split.
  - rewrite Rabs_right.
    + field. lra.
    + apply Rle_ge. apply Rmult_le_pos; [exact Hlam|].
      left. now apply Rinv_0_lt_compat.
  - replace (d - lambda_k c) with ((1 - lambda_k c / d) * d) by (field; lra).
    rewrite Rabs_mult, (Rabs_right d) by lra. reflexivity.
Qed.

Lemma pull_moves_by_lambda_witness :
  dist (pull hot_params [ln (1 / 10); ln (1 / 20)] hot_logL0) hot_logL0
  = lambda_k hot_params /\
  dist [ln (1 / 10); ln (1 / 20)]
       (pull hot_params [ln (1 / 10); ln (1 / 20)] hot_logL0)
  = Rabs (dist [ln (1 / 10); ln (1 / 20)] hot_logL0 - lambda_k hot_params).
Proof.
  apply pull_moves_by_lambda.
  - reflexivity.
  - unfold dist, norm, hot_logL0, vsub, sumsq.
    cbn [zipWith map vsum fold_right]. apply sqrt_lt_R0.
    assert (H : ln (1 / 20) < ln (1 / 10)) by (apply ln_increasing; lra).
    nra.
  - left. apply lambda_k_pos; [exact (proj1 hot_valid)|].
    rewrite hot_sigma_max. lra.
Defined.

(** ** The knock-out draw *)

(** X17. Under the invariants of the market and with some volatility
    positive, at a state of the first loop where both checks are
    inconclusive and the projector returns: the knock-out threshold
    lambda_k / (dist + lambda_k) lies in (0, 1] and is 1 exactly when the
    state is its own projection; the path is knocked out at the state
    itself when the uniform draw is below the threshold, and otherwise goes
    on from the pulled state with the drift taken at the state before the
    pull. *)
Theorem knock_out_decision (c : Params) (U : matrix) (lbfgsb : Lbfgsb)
    (rnd : Draws) (p k : nat) (logL logL_pi : list R) :
  valid_market c -> 0 < sigma_max c ->
  ~ coarse_safe c logL -> ~ fine_safe c logL ->
  project_to_barrier2 lbfgsb logL (delta c) (Rup c) = inr logL_pi ->
  0 < knock_out_probability c logL_pi logL <= 1 /\
  (knock_out_probability c logL_pi logL = 1 <-> dist logL_pi logL = 0) /\
  (rand rnd p k < knock_out_probability c logL_pi logL ->
   step c U lbfgsb rnd p k logL = Break logL) /\
  (knock_out_probability c logL_pi logL <= rand rnd p k ->
   step c U lbfgsb rnd p k logL
   = Continue (euler (pull c logL_pi logL) (drift_vec c logL)
                     (diffusion c U (xi rnd p k)))).
Proof.
  intros Hv Hs Hc Hf Hp.
  assert (Hl := lambda_k_pos c Hv Hs).
  assert (Hd := dist_nonneg logL_pi logL).
  unfold knock_out_probability.
  set (d := dist logL_pi logL) in *. set (lam := lambda_k c) in *.
  assert (Hsum : 0 < d + lam) by lra.
  split; [|split; [|split]].
  - split.
    + now apply Rdiv_lt_0_compat.
    + apply (Rmult_le_reg_r (d + lam)); [exact Hsum|].
      unfold Rdiv. rewrite Rmult_assoc, Rinv_l by lra. lra.
  - split; intros H.
    + assert (E : lam = 1 * (d + lam)).
      { rewrite <- H. field. lra. }
      lra.
    + rewrite H, Rplus_0_l. field. lra.
  - intros Hr. unfold step. cbv zeta. fail_both_checks Hc Hf.
    rewrite Hp. fold d lam.
    destruct (Rlt_dec _ _) as [_|Hn]; [reflexivity | exfalso; exact (Hn Hr)].
  - intros Hr. unfold step. cbv zeta. fail_both_checks Hc Hf.
    rewrite Hp. fold d lam.
    destruct (Rlt_dec _ _) as [Hy|_]; [lra | reflexivity].
Qed.

Lemma knock_out_decision_witness :
  0 < knock_out_probability hot_params (hot_pi (ln (1 / 20))) hot_logL0 <= 1 /\
  (knock_out_probability hot_params (hot_pi (ln (1 / 20))) hot_logL0 = 1
   <-> dist (hot_pi (ln (1 / 20))) hot_logL0 = 0) /\
  (rand (all_up 2) 0%nat 0%nat
   < knock_out_probability hot_params (hot_pi (ln (1 / 20))) hot_logL0 ->
   step hot_params (U2 r_hot) lbfgsb_stay (all_up 2) 0 0 hot_logL0
   = Break hot_logL0) /\
  (knock_out_probability hot_params (hot_pi (ln (1 / 20))) hot_logL0
   <= rand (all_up 2) 0%nat 0%nat ->
   step hot_params (U2 r_hot) lbfgsb_stay (all_up 2) 0 0 hot_logL0
   = Continue (euler (pull hot_params (hot_pi (ln (1 / 20))) hot_logL0)
                     (drift_vec hot_params hot_logL0)
                     (diffusion hot_params (U2 r_hot)
                                (xi (all_up 2) 0%nat 0%nat)))).
Proof.
  apply knock_out_decision.
  - exact (proj1 hot_valid).
  - rewrite hot_sigma_max. lra.
  - exact hot_not_coarse_safe.
  - exact hot_not_fine_safe.
  - exact hot_project_stay.
Defined.

(** ** Moments of the diffusion increment *)

Lemma expectation_ext (n : nat) (f f' : list R -> R) :
  (forall x, f x = f' x) -> expectation n f = expectation n f'.
Proof. intros Hf. unfold expectation. now rewrite (map_ext f f' Hf). Qed.

(** X18. For any number N of rates, with N volatilities, h >= 0 and a
    square matrix U of size N, over the 2^N equiprobable sign vectors xi
    the diffusion increment sigma sqrt(h) (U xi) of the path loops has mean
    zero in every entry, and its entries i and j have covariance
    h sigma_i sigma_j <row i of U, row j of U>. *)
Theorem diffusion_moments (c : Params) (U : matrix) (i j : nat) :
  0 <= h c -> List.length (sigma c) = N c -> square (N c) U ->
  (i < N c)%nat -> (j < N c)%nat ->
  expectation (N c) (fun x => nth i (diffusion c U x) 0) = 0 /\
  diffusion_cov c U i j
  = h c * nth i (sigma c) 0 * nth j (sigma c) 0
    * dot (nth i U []) (nth j U []).
Proof.
  intros Hh Hs HU Hi Hj. split; [|now apply diffusion_cov_rows].
  assert (Hd : forall x,
             nth i (diffusion c U x) 0
             = nth i (sigma c) 0 * sqrt (h c) * dot (nth i U []) x).
  { intros x. unfold diffusion, vmul. destruct HU as [HlU _].
    rewrite nth_zipWith by (unfold matvec; rewrite ?length_map; lia).
    rewrite nth_map_R, nth_matvec by lia. reflexivity. }
  rewrite (expectation_ext _ _ _ Hd).
  apply expectation_dot. now apply square_row_length.
Qed.

Lemma diffusion_moments_witness :
  expectation (N hot_params)
    (fun x => nth 0 (diffusion hot_params (U2 r_hot) x) 0) = 0 /\
  diffusion_cov hot_params (U2 r_hot) 0 1
  = h hot_params * nth 0 (sigma hot_params) 0 * nth 1 (sigma hot_params) 0
    * dot (nth 0 (U2 r_hot) []) (nth 1 (U2 r_hot) []).
Proof.
  apply diffusion_moments.
  - rewrite hot_h. lra.
  - reflexivity.
  - exact hot_square.
  - cbn. lia.
  - cbn. lia.
Defined.

(** ** The analytic approximation *)

Import Analytic.

Lemma last_map_R (f : R -> R) (l : list R) (d : R) :
  l <> [] -> last (map f l) d = f (last l d).
Proof.
  induction l as [|a t IH]; intros Hne; [congruence|].
  destruct t as [|b t']; [reflexivity|].
  change (last (map f (a :: b :: t')) d) with (last (map f (b :: t')) d).
  change (last (a :: b :: t') d) with (last (b :: t') d).
  apply IH. discriminate.
Qed.

Lemma inv_prefix (c : Params) :
  valid_market c ->
  map (fun q => 1 / q) (prefix c)
  = cumprod (map (fun l => 1 / (1 + delta c * l)) (L0 c)).
Proof.
  intros (_ & _ & _ & Hd & _ & HL & _). unfold prefix, cumprod.
  assert (Hw : all_pos (one_plus (delta c) (L0 c))).
  { unfold all_pos, one_plus. rewrite Forall_map.
    eapply Forall_impl; [|exact HL]. cbn. intros l Hl.
    assert (0 < delta c * l) by (now apply Rmult_lt_0_compat). lra. }
  rewrite <- (cumprod_from_inv _ Hw 1 Rlt_0_1).
  replace (1 / 1) with 1 by lra.
  unfold one_plus. now rewrite map_map.
Qed.

(** X19. Under the invariants of the market the quantities of the analytic
    cell relate to those of the simulation: [annuity] is the sum of
    discount factors a path that stays at ln L0 records, [denom_w] is
    delta * annuity, the last of the [weights] is the initial swap rate R0
    itself, and delta * annuity * R0 is one minus the last discount factor
    of [P0_T]. *)
Theorem analytic_annuity (c : Params) :
  valid_market c ->
  annuity c = discount_sum c (map ln (L0 c)) /\
  denom_w c = delta c * annuity c /\
  last (weights c) 0 = R0 c /\
  delta c * annuity c * R0 c = 1 - last (P0_T c) 0.
Proof.
  intros Hv. assert (Hinv := inv_prefix c Hv).
  destruct Hv as (HN & _ & _ & Hd & HlL & HL & _).
  assert (Hne : L0 c <> []).
  { intros E. rewrite E in HlL. cbn in HlL. lia. }
  assert (Ha : annuity c = discount_sum c (map ln (L0 c))).
  { unfold annuity, P0_T, discount_sum, discount_curve. cbn [tl].
    now rewrite map_exp_ln. }
  assert (Hdw : denom_w c = delta c * annuity c).
  { unfold denom_w. rewrite Hinv. reflexivity. }
  split; [exact Ha|]. split; [exact Hdw|]. split.
  - unfold weights. rewrite last_map_R.
    + unfold prefix, cumprod.
      rewrite last_cumprod_from
        by (unfold one_plus; destruct (L0 c); [congruence | discriminate]).
      rewrite Rmult_1_l. unfold R0, R_swap, denom_w, prefix.
      now rewrite map_exp_ln.
    + unfold prefix, cumprod, one_plus.
      destruct (L0 c); [congruence | discriminate].
  - rewrite Ha. unfold R0.
    replace (delta c * discount_sum c (map ln (L0 c))
             * R_swap (map ln (L0 c)) (delta c))
      with (delta c * R_swap (map ln (L0 c)) (delta c)
            * discount_sum c (map ln (L0 c))) by ring.
    assert (Hne' : map ln (L0 c) <> [])
      by (destruct (L0 c); [congruence | discriminate]).
    assert (H4 := annuity_identity (map ln (L0 c)) (delta c) Hd Hne').
    fold (discount_sum c (map ln (L0 c))) in H4.
    rewrite H4. f_equal.
    rewrite <- (last_discount_curve _ _ Hd Hne').
    unfold P0_T, discount_curve. rewrite map_exp_ln by exact HL.
    set (l := cumprod _).
    assert (Hl : l <> []).
    { unfold l, cumprod. destruct (L0 c); [congruence | discriminate]. }
    destruct l; [congruence | reflexivity].
Qed.

Lemma analytic_annuity_witness :
  annuity notebook_params
  = discount_sum notebook_params (map ln (L0 notebook_params)) /\
  denom_w notebook_params = delta notebook_params * annuity notebook_params /\
  last (weights notebook_params) 0 = R0 notebook_params /\
  delta notebook_params * annuity notebook_params * R0 notebook_params
  = 1 - last (P0_T notebook_params) 0.
Proof. apply analytic_annuity. exact (proj1 notebook_valid). Defined.

(** *** The effective volatility *)

Lemma cumprod_from_gt_1 (w : list R) :
  Forall (fun a => 1 < a) w ->
  forall a, 1 <= a -> Forall (fun q => 1 < q) (cumprod_from a w).
Proof.
  induction 1 as [|b t Hb _ IH]; intros a Ha; cbn [cumprod_from];
    constructor.
  - nra.
  - apply IH. nra.
Qed.

Lemma prefix_gt_1 (c : Params) :
  valid_market c -> Forall (fun q => 1 < q) (prefix c).
Proof.
  intros (_ & _ & _ & Hd & _ & HL & _). unfold prefix, cumprod.
  apply cumprod_from_gt_1; [|lra].
  unfold one_plus. rewrite Forall_map.
  eapply Forall_impl; [|exact HL]. cbn. intros l Hl.
  assert (0 < delta c * l) by (now apply Rmult_lt_0_compat). lra.
Qed.

Lemma prefix_length (c : Params) : List.length (prefix c) = List.length (L0 c).
Proof.
  unfold prefix, cumprod, one_plus. now rewrite cumprod_from_length, length_map.
Qed.

Lemma denom_w_pos (c : Params) : valid_market c -> 0 < denom_w c.
Proof.
  intros Hv. assert (Hp := prefix_gt_1 c Hv).
  assert (Hl := prefix_length c).
  destruct Hv as (HN & _ & _ & Hd & HlL & _).
  unfold denom_w. apply Rmult_lt_0_compat; [exact Hd|].
  apply vsum_pos.
  - unfold all_pos. rewrite Forall_map.
    eapply Forall_impl; [|exact Hp]. cbn. intros q Hq.
    apply Rdiv_lt_0_compat; lra.
  - intros E. apply map_eq_nil in E. rewrite E in Hl. cbn in Hl. lia.
Qed.

Lemma weights_pos (c : Params) :
  valid_market c -> Forall (fun w => 0 < w) (weights c).
Proof.
  intros Hv. assert (Hp := prefix_gt_1 c Hv).
  assert (Hdw := denom_w_pos c Hv).
  unfold weights. rewrite Forall_map.
  eapply Forall_impl; [|exact Hp]. cbn. intros q Hq.
  apply Rdiv_lt_0_compat; [|exact Hdw].
  assert (H : 1 / q < 1).
  { apply (Rmult_lt_reg_r q); [lra|].
    unfold Rdiv. rewrite Rmult_assoc, Rinv_l by lra. lra. }
  lra.
Qed.

Lemma vsum_ge_nth (l : list R) (i : nat) :
  Forall (fun a => 0 <= a) l -> nth i l 0 <= vsum l.
Proof.
  intros H. revert i. induction H as [|a t Ha Ht IH]; intros [|i]; cbn [nth].
  - cbn. lra.
  - cbn. lra.
  - rewrite vsum_cons. assert (H := vsum_nonneg t Ht). lra.
  - rewrite vsum_cons. specialize (IH i). lra.
Qed.

Lemma vmax_attained (l : list R) :
  l <> [] -> exists i, (i < List.length l)%nat /\ nth i l 0 = vmax l.
Proof.
  destruct l as [|a t]; [congruence|]. intros _. unfold vmax.
  revert a. induction t as [|b t IH]; intros a.
  - exists 0%nat. split; [cbn; lia | reflexivity].
  - cbn [fold_left]. destruct (IH (Rmax a b)) as (i & Hi & Hn).
    destruct i as [|i].
    + cbn [nth] in Hn. destruct (Rle_dec a b) as [E|E].
      * exists 1%nat. split; [cbn; lia|]. cbn [nth].
        now rewrite <- Hn, Rmax_right.
      * exists 0%nat. split; [cbn; lia|]. cbn [nth].
        rewrite <- Hn, Rmax_left; [reflexivity | lra].
    + exists (S (S i)). split; [cbn in *; lia|]. exact Hn.
Qed.

Lemma wL_entry (c : Params) (i : nat) :
  valid_market c -> (i < N c)%nat ->
  List.length (wL c) = N c /\ 0 < nth i (wL c) 0.
Proof.
  intros Hv Hi. assert (Hw := weights_pos c Hv).
  assert (Hpl := prefix_length c).
  destruct Hv as (_ & _ & _ & _ & HlL & HL & _).
  assert (Hwl : List.length (weights c) = N c).
  { unfold weights. rewrite length_map. lia. }
  unfold wL, vmul. split.
  - rewrite zipWith_length. lia.
  - rewrite nth_zipWith by lia.
    rewrite Forall_forall in Hw, HL.
    apply Rmult_lt_0_compat.
    + apply Hw. apply nth_In. lia.
    + apply HL. apply nth_In. lia.
Qed.

Lemma num_entry (c : Params) (i j : nat) :
  valid_market c -> (i < N c)%nat -> (j < N c)%nat ->
  entry (num c) i j
  = nth i (wL c) 0 * nth j (wL c) 0 * entry (rho c) i j
    * (nth i (sigma c) 0 * nth j (sigma c) 0 * T0 c).
Proof.
  intros Hv Hi Hj.
  destruct (wL_entry c i Hv Hi) as [Hwl _].
  destruct Hv as (_ & _ & _ & _ & _ & _ & Hls & _).
  unfold entry, num, integrals.
  rewrite !hadamard_row, outer_row by lia.
  rewrite (nth_map_row _ _ i []) by (unfold outer; rewrite length_map; lia).
  rewrite outer_row by lia.
  assert (Hr := rho_row_length c i Hi).
  unfold vmul.
  rewrite nth_zipWith
    by (rewrite ?zipWith_length, ?length_map; lia).
  rewrite nth_zipWith by (rewrite ?length_map; lia).
  rewrite !nth_map_R by (rewrite ?length_map; lia).
  reflexivity.
Qed.

Lemma num_shape (c : Params) :
  valid_market c ->
  List.length (num c) = N c /\
  forall i, (i < N c)%nat -> List.length (nth i (num c) []) = N c.
Proof.
  intros Hv.
  assert (Hwl : List.length (wL c) = N c).
  { destruct Hv as (HN & Hrest).
    apply (proj1 (wL_entry c 0 (conj HN Hrest) ltac:(lia))). }
  destruct Hv as (_ & _ & _ & _ & _ & _ & Hls & _).
  assert (Hlen : forall A B : matrix,
             List.length (hadamard A B)
             = Nat.min (List.length A) (List.length B)).
  { induction A as [|r A IH]; intros [|s B]; cbn; auto. }
  split.
  - unfold num, integrals, outer.
    rewrite !Hlen, !length_map, rho_length. lia.
  - intros i Hi. assert (Hr := rho_row_length c i Hi).
    unfold num, integrals. rewrite !hadamard_row, outer_row by lia.
    rewrite (nth_map_row _ _ i []) by (unfold outer; rewrite length_map; lia).
    rewrite outer_row by lia.
    unfold vmul. rewrite !zipWith_length, !length_map. lia.
Qed.

Lemma num_entry_nonneg (c : Params) (i j : nat) :
  valid_market c -> (i < N c)%nat -> (j < N c)%nat ->
  0 <= entry (num c) i j.
Proof.
  intros Hv Hi Hj. rewrite num_entry by assumption.
  destruct (wL_entry c i Hv Hi) as [_ Hwi].
  destruct (wL_entry c j Hv Hj) as [_ Hwj].
  assert (Hr : 0 < entry (rho c) i j) by (rewrite rho_entry by assumption; apply exp_pos).
  destruct Hv as (_ & _ & HT & _ & _ & _ & Hls & Hs & _).
  rewrite Forall_forall in Hs.
  assert (Hsi : 0 <= nth i (sigma c) 0) by (apply Hs, nth_In; lia).
  assert (Hsj : 0 <= nth j (sigma c) 0) by (apply Hs, nth_In; lia).
  apply Rmult_le_pos.
  - apply Rmult_le_pos; [|lra]. apply Rmult_le_pos; lra.
  - apply Rmult_le_pos; [|lra]. now apply Rmult_le_pos.
Qed.

Lemma num_rows_nonneg (c : Params) (i : nat) :
  valid_market c -> (i < N c)%nat ->
  Forall (fun a => 0 <= a) (nth i (num c) []).
Proof.
  intros Hv Hi. destruct (num_shape c Hv) as [_ Hrow].
  apply Forall_nth. intros j d Hj. rewrite Hrow in Hj by exact Hi.
  rewrite (nth_indep _ d 0) by (rewrite Hrow; assumption).
  now apply num_entry_nonneg.
Qed.

Lemma num_row_sums_nonneg (c : Params) :
  valid_market c -> Forall (fun a => 0 <= a) (map vsum (num c)).
Proof.
  intros Hv. destruct (num_shape c Hv) as [Hlen _].
  apply Forall_nth. intros i d Hi. rewrite length_map, Hlen in Hi.
  rewrite (nth_indep _ d (vsum [])) by (rewrite length_map, Hlen; exact Hi).
  rewrite (map_nth vsum). apply vsum_nonneg. now apply num_rows_nonneg.
Qed.

(** X20. Under the invariants of the market every weight of the analytic
    cell is positive and the number v2 whose square root is taken is not
    negative; when some volatility is positive, v2 and the effective
    volatility v are positive, so [dplus] and [dminus] divide by a
    non-zero number. *)
Theorem effective_volatility_positive (c : Params) :
  valid_market c ->
  Forall (fun w => 0 < w) (weights c) /\
  0 <= v2 c /\
  (0 < sigma_max c -> 0 < v2 c /\ 0 < v c).
Proof.
  intros Hv. split; [now apply weights_pos|].
  assert (HR : 0 < R0 c).
  { destruct Hv as (HN & _ & _ & Hd & HlL & _). unfold R0.
    apply R_swap_pos; [exact Hd|].
    intros E. apply map_eq_nil in E. rewrite E in HlL. cbn in HlL. lia. }
  assert (HR2 : 0 < R0 c ^ 2) by (apply pow_lt; exact HR).
  assert (Hrows := num_row_sums_nonneg c Hv).
  split.
  - unfold v2, msum. apply Rmult_le_pos; [now apply vsum_nonneg|].
    left. now apply Rinv_0_lt_compat.
  - intros Hs.
    assert (Hpos : 0 < v2 c).
    { unfold v2. apply Rdiv_lt_0_compat; [|exact HR2].
      assert (Hne : sigma c <> []).
      { destruct Hv as (HN & _ & _ & _ & _ & _ & Hls & _).
        intros E. rewrite E in Hls. cbn in Hls. lia. }
      destruct (vmax_attained (sigma c) Hne) as (i & Hi & Hmax).
      fold (sigma_max c) in Hmax.
      assert (HiN : (i < N c)%nat).
      { destruct Hv as (_ & _ & _ & _ & _ & _ & Hls & _). lia. }
      assert (He : 0 < entry (num c) i i).
      { rewrite num_entry by assumption. rewrite Hmax.
        destruct (wL_entry c i Hv HiN) as [_ Hwi].
        assert (Hr : 0 < entry (rho c) i i)
          by (rewrite rho_entry by assumption; apply exp_pos).
        destruct Hv as (_ & _ & HT & _).
        repeat apply Rmult_lt_0_compat; assumption. }
      destruct (num_shape c Hv) as [Hlen Hrow].
      assert (H1 := vsum_ge_nth (nth i (num c) []) i (num_rows_nonneg c i Hv HiN)).
      assert (H2 := vsum_ge_nth (map vsum (num c)) i Hrows).
      rewrite (nth_indep _ 0 (vsum [])) in H2 by (rewrite length_map; lia).
      rewrite (map_nth vsum) in H2.
      unfold msum. unfold entry in He. lra. }
    split; [exact Hpos|]. unfold v. now apply sqrt_lt_R0.
Qed.

Lemma effective_volatility_positive_witness :
  Forall (fun w => 0 < w) (weights notebook_params) /\
  0 <= v2 notebook_params /\
  (0 < sigma_max notebook_params ->
   0 < v2 notebook_params /\ 0 < v notebook_params).
Proof. apply effective_volatility_positive. exact (proj1 notebook_valid). Defined.

(** ** The two checks *)

Lemma map_ln_exp (l : list R) : map ln (map exp l) = l.
Proof.
  induction l as [|a t IH]; [reflexivity|]. cbn [map]. now rewrite IH, ln_exp.
Qed.

(** The worst-case perturbed curve lies above the curve, at every state. *)
Lemma L_pert_above_state (c : Params) (logL : list R) :
  valid_market c -> List.length logL = N c ->
  vle logL (map ln (L_pert c (map exp logL))).
Proof.
  intros Hv Hl.
  pose (c' := mkParams (N c) (T0 c) (delta c) (M c) (K c) (Rup c)
                       (map exp logL) (sigma c) (beta c)).
  assert (Hv' : valid_market c').
  { destruct Hv as (HN & HM & HT & Hd & _ & _ & Hls & Hs & HR).
    unfold valid_market, c'. cbn [N M T0 delta L0 sigma Rup].
    repeat split; try assumption.
    - now rewrite length_map.
    - rewrite Forall_map. apply Forall_forall. intros a _. apply exp_pos. }
  assert (H := L_pert_above c' Hv').
  change (L_pert c' (L0 c')) with (L_pert c (map exp logL)) in H.
  change (L0 c') with (map exp logL) in H.
  now rewrite map_ln_exp in H.
Qed.

Lemma check_below_barrier (c : Params) (logL : list R) :
  valid_market c -> List.length logL = N c ->
  coarse_safe c logL \/ fine_safe c logL ->
  R_swap logL (delta c) < Rup c.
Proof.
  intros Hv Hl Hsafe. assert (Hcb := coarse_bound_nonneg c Hv).
  assert (Hlp := L_pert_above_state c logL Hv Hl).
  destruct Hv as (HN & _ & _ & Hd & _ & _ & _ & _ & HR).
  assert (Hne : logL <> []).
  { intros E. rewrite E in Hl. cbn in Hl. lia. }
  destruct Hsafe as [Hc|Hf].
  - unfold coarse_safe in Hc.
    assert (Hm := R_swap_le_vmax logL (delta c) Hd Hne).
    apply Rle_lt_trans with (exp (vmax logL)); [exact Hm|].
    rewrite <- (exp_ln (Rup c) HR). apply exp_increasing. lra.
  - unfold fine_safe in Hf.
    apply Rle_lt_trans with (R_swap (map ln (L_pert c (map exp logL))) (delta c));
      [|exact Hf].
    now apply R_swap_mono.
Qed.

(** X21. Under the invariants of the market, a state of N entries that
    passes the coarse or the fine check has a swap rate strictly below the
    barrier: the plain log-Euler step is only taken below the barrier, and
    a state at or above it fails both checks.  So the second loop lets a
    path go on only from states strictly below the barrier. *)
Theorem checks_pass_only_below_barrier (c : Params) (U : matrix)
    (lbfgsb : Lbfgsb) (rnd : Draws) (p k : nat) (logL : list R) :
  valid_market c -> List.length logL = N c ->
  (coarse_safe c logL \/ fine_safe c logL -> R_swap logL (delta c) < Rup c) /\
  (forall logL',
     step_half c U lbfgsb rnd p k logL = Continue logL' ->
     R_swap logL (delta c) < Rup c).
Proof.
  intros Hv Hl. split.
  - now apply check_below_barrier.
  - intros logL' Hs.
    destruct (step_half_continue c U lbfgsb rnd p k logL logL' Hs) as (Hsafe & _).
    now apply check_below_barrier.
Qed.

Lemma checks_pass_only_below_barrier_witness :
  (coarse_safe warm_params hot_logL0 \/ fine_safe warm_params hot_logL0 ->
   R_swap hot_logL0 (delta warm_params) < Rup warm_params) /\
  (forall logL',
     step_half warm_params (U2 r_warm) lbfgsb_fail (all_up 2) 0 0 hot_logL0
     = Continue logL' ->
     R_swap hot_logL0 (delta warm_params) < Rup warm_params).
Proof.
  apply checks_pass_only_below_barrier.
  - unfold valid_market. cbn [N M T0 delta L0 sigma Rup warm_params].
    repeat split; try lia; try lra; try reflexivity.
    + constructor; [lra|]. constructor; [lra | constructor].
    + constructor; [lra|]. constructor; [lra | constructor].
  - reflexivity.
Defined.

(** ** The diffusion under the Cholesky factor *)

Lemma vsum_all_zero (f : nat -> R) (l : list nat) :
  (forall j, In j l -> f j = 0) -> vsum (map f l) = 0.
Proof.
  induction l as [|a t IH]; intros H; [reflexivity|].
  cbn [map]. rewrite vsum_cons, (H a) by (now left).
  rewrite IH by (intros j Hj; apply H; now right). ring.
Qed.

Lemma vsum_single (f : nat -> R) (n i : nat) :
  (i < n)%nat -> (forall j, (j < n)%nat -> j <> i -> f j = 0) ->
  vsum (map f (seq 0 n)) = f i.
Proof.
  intros Hi Hz.
  replace n with (i + S (n - S i))%nat at 1 by lia.
  rewrite seq_app, map_app, vsum_app. cbn [seq map]. rewrite vsum_cons.
  rewrite !vsum_all_zero.
  - cbn. ring.
  - intros j Hj. apply in_seq in Hj. apply Hz; lia.
  - intros j Hj. apply in_seq in Hj. apply Hz; lia.
Qed.

Lemma vsum_squares_ge (f : nat -> R) (n i : nat) :
  (i < n)%nat -> f i * f i <= vsum (map (fun j => f j * f j) (seq 0 n)).
Proof.
  intros Hi.
  assert (Hnn : Forall (fun a => 0 <= a) (map (fun j => f j * f j) (seq 0 n))).
  { rewrite Forall_map. apply Forall_forall. intros j _. nra. }
  assert (H := vsum_ge_nth _ i Hnn).
  rewrite (nth_indep _ 0 ((fun j => f j * f j) 0%nat)) in H
    by (rewrite length_map, length_seq; exact Hi).
  rewrite (map_nth (fun j => f j * f j)), seq_nth in H by exact Hi.
  exact H.
Qed.

Lemma nth_column (A : matrix) (i k : nat) :
  (k < List.length A)%nat -> nth k (column A i) 0 = entry A k i.
Proof.
  intros Hk. unfold column, entry.
  rewrite (nth_indep _ 0 (nth i [] 0)) by (rewrite length_map; exact Hk).
  apply (map_nth (fun row => nth i row 0)).
Qed.

Lemma row_norm (n : nat) (U : matrix) (i : nat) :
  square n U -> (i < n)%nat ->
  dot (nth i U []) (nth i U [])
  = vsum (map (fun j => entry U i j * entry U i j) (seq 0 n)).
Proof.
  intros HU Hi. assert (Hr := square_row_length n U i HU Hi).
  now rewrite (dot_as_sum _ _ n Hr Hr).
Qed.

Lemma column_norm (n : nat) (U : matrix) (i : nat) :
  List.length U = n ->
  dot (column U i) (column U i)
  = vsum (map (fun k => entry U k i * entry U k i) (seq 0 n)).
Proof.
  intros HU.
  assert (Hc : List.length (column U i) = n)
    by (unfold column; now rewrite length_map).
  rewrite (dot_as_sum _ _ n Hc Hc).
  apply f_equal. apply map_ext_in. intros k Hk. apply in_seq in Hk.
  now rewrite nth_column by lia.
Qed.

(** X22. For any N >= 1, with N volatilities, h >= 0 and U the upper
    Cholesky factor of rho (rho = U^T U) that scipy returns, the diffusion
    increment the loops build from U xi does not have the covariance
    h sigma_i sigma_j rho_ij in general: the variance of its first entry
    is at least h sigma_0^2 rho_00 and that of its last entry at most
    h sigma_{N-1}^2 rho_{N-1,N-1}. *)
Theorem diffusion_variance_shifted (c : Params) (U : matrix) :
  (1 <= N c)%nat -> 0 <= h c -> List.length (sigma c) = N c ->
  cholesky_upper (N c) (rho c) U ->
  h c * nth 0 (sigma c) 0 * nth 0 (sigma c) 0 * entry (rho c) 0 0
  <= diffusion_cov c U 0 0 /\
  diffusion_cov c U (N c - 1) (N c - 1)
  <= h c * nth (N c - 1) (sigma c) 0 * nth (N c - 1) (sigma c) 0
     * entry (rho c) (N c - 1) (N c - 1).
Proof.
  intros HN Hh Hs (HlU & HrU & Htri & _ & Hfac).
  assert (Hsq : square (N c) U) by (split; assumption).
  set (n := N c) in *. set (m := (n - 1)%nat).
  assert (Hm : (m < n)%nat) by (unfold m; lia).
  rewrite !diffusion_cov_rows by (assumption || (fold n; lia)).
  fold n.
  rewrite <- (Hfac 0%nat 0%nat) by lia. rewrite <- (Hfac m m) by lia.
  rewrite !(row_norm n) by (assumption || lia).
  rewrite !(column_norm n) by assumption.
  split.
  - assert (E : vsum (map (fun k => entry U k 0 * entry U k 0) (seq 0 n))
                = entry U 0 0 * entry U 0 0).
    { apply (vsum_single (fun k => entry U k 0 * entry U k 0) n 0); [lia|].
      intros j Hj Hne. rewrite (Htri j 0%nat) by lia. ring. }
    rewrite E.
    assert (G := vsum_squares_ge (fun j => entry U 0 j) n 0 ltac:(lia)).
    cbv beta in G.
    assert (Hk : 0 <= h c * nth 0 (sigma c) 0 * nth 0 (sigma c) 0).
    { rewrite Rmult_assoc. apply Rmult_le_pos; [exact Hh | nra]. }
    now apply Rmult_le_compat_l.
  - assert (E : vsum (map (fun j => entry U m j * entry U m j) (seq 0 n))
                = entry U m m * entry U m m).
    { apply (vsum_single (fun j => entry U m j * entry U m j) n m); [exact Hm|].
      intros j Hj Hne. rewrite (Htri m j) by (unfold m in *; lia). ring. }
    rewrite E.
    assert (G := vsum_squares_ge (fun k => entry U k m) n m Hm).
    cbv beta in G.
    assert (Hk : 0 <= h c * nth m (sigma c) 0 * nth m (sigma c) 0).
    { rewrite Rmult_assoc. apply Rmult_le_pos; [exact Hh | nra]. }
    now apply Rmult_le_compat_l.
Qed.

Lemma diffusion_variance_shifted_witness :
  h hot_params * nth 0 (sigma hot_params) 0 * nth 0 (sigma hot_params) 0
  * entry (rho hot_params) 0 0
  <= diffusion_cov hot_params (U2 r_hot) 0 0 /\
  diffusion_cov hot_params (U2 r_hot) (N hot_params - 1) (N hot_params - 1)
  <= h hot_params * nth (N hot_params - 1) (sigma hot_params) 0
     * nth (N hot_params - 1) (sigma hot_params) 0
     * entry (rho hot_params) (N hot_params - 1) (N hot_params - 1).
Proof.
  apply diffusion_variance_shifted.
  - cbn. lia.
  - rewrite hot_h. lra.
  - reflexivity.
  - exact hot_cholesky.
Defined.

(** ** The drift and its worst case *)

Lemma v_at_bounds (c : Params) (logL : list R) (j : nat) :
  0 < delta c -> 0 < v_at c logL j < 1.
Proof.
  intros Hd. unfold v_at. assert (He := exp_pos (nth j logL 0)).
  set (t := delta c * exp (nth j logL 0)).
  assert (Ht : 0 < t) by (unfold t; now apply Rmult_lt_0_compat).
  split.
  - apply Rdiv_lt_0_compat; lra.
  - apply (Rmult_lt_reg_r (1 + t)); [lra|].
    unfold Rdiv. rewrite Rmult_assoc, Rinv_l by lra. lra.
Qed.

Lemma nth_drift_worst (c : Params) (i : nat) :
  List.length (sigma c) = N c -> (i < N c)%nat ->
  nth i (drift_worst c) 0
  = (INR i + 1) * nth i (sigma c) 0 * sigma_max c * h c.
Proof.
  intros Hs Hi. unfold drift_worst.
  rewrite nth_zipWith by (rewrite ?arange_length; lia).
  unfold arange.
  rewrite (nth_indep _ 0 (INR 0)) by (rewrite length_map, length_seq; exact Hi).
  rewrite (map_nth INR), seq_nth by exact Hi. reflexivity.
Qed.

Lemma drift_term_bounds (c : Params) (logL : list R) (i j : nat) :
  valid_market c -> 0 <= beta c -> (i < N c)%nat -> (j < N c)%nat ->
  0 <= DriftMatrix c i j * v_at c logL j
  <= (if (j <=? i)%nat then nth i (sigma c) 0 * sigma_max c else 0).
Proof.
  intros Hv Hb Hi Hj. unfold DriftMatrix.
  destruct (j <=? i)%nat; [|lra].
  destruct (rho_decay c i j Hi Hj) as (_ & _ & _ & Hr0 & Hr1).
  specialize (Hr1 Hb).
  destruct Hv as (_ & _ & _ & Hd & _ & _ & Hls & Hs & _).
  assert (Hvb := v_at_bounds c logL j Hd).
  assert (Hsi := nth_nonneg (sigma c) i Hs).
  assert (Hsj := nth_nonneg (sigma c) j Hs).
  assert (Hmax : nth j (sigma c) 0 <= sigma_max c).
  { assert (Hu := vmax_upper (sigma c)). rewrite Forall_forall in Hu.
    apply Hu. apply nth_In. lia. }
  set (r := entry (rho c) i j) in *. set (si := nth i (sigma c) 0) in *.
  set (sj := nth j (sigma c) 0) in *. set (vj := v_at c logL j) in *.
  set (sm := sigma_max c) in *.
  assert (H1 : 0 <= si * sj) by (now apply Rmult_le_pos).
  assert (H2 : 0 <= r * (si * sj)) by (apply Rmult_le_pos; lra).
  split.
  - apply Rmult_le_pos; lra.
  - apply Rle_trans with (r * (si * sj)).
    + rewrite <- (Rmult_1_r (r * (si * sj))) at 2.
      apply Rmult_le_compat_l; lra.
    + apply Rle_trans with (1 * (si * sj)).
      * apply Rmult_le_compat_r; lra.
      * rewrite Rmult_1_l. apply Rmult_le_compat_l; lra.
Qed.

Lemma vsum_indicator (a : R) (n i : nat) :
  (i < n)%nat ->
  vsum (map (fun j => if (j <=? i)%nat then a else 0) (seq 0 n))
  = (INR i + 1) * a.
Proof.
  intros Hi. replace n with (S i + (n - S i))%nat by lia.
  rewrite seq_app, map_app, vsum_app.
  rewrite (map_ext_in _ (fun _ => a)).
  - rewrite vsum_map_const, length_seq.
    rewrite vsum_all_zero.
    + rewrite S_INR. ring.
    + intros j Hj. apply in_seq in Hj.
      replace (j <=? i)%nat with false; [reflexivity|].
      symmetry. apply Nat.leb_gt. lia.
  - intros j Hj. apply in_seq in Hj.
    replace (j <=? i)%nat with true; [reflexivity|].
    symmetry. apply Nat.leb_le. lia.
Qed.

(** X23. Under the invariants of the market and with beta >= 0, at every
    state of N entries each entry of the drift vector of the path loops
    lies between -1/2 sigma_i^2 h and drift_worst_i - 1/2 sigma_i^2 h,
    where drift_worst_i = (i + 1) sigma_i sigma_max h is the worst-case
    drift of the fine check: the drift never exceeds the worst case the
    fine check allows for. *)
Theorem drift_within_worst_case (c : Params) (logL : list R) (i : nat) :
  valid_market c -> 0 <= beta c -> List.length logL = N c -> (i < N c)%nat ->
  - (1 / 2) * (nth i (sigma c) 0) ^ 2 * h c <= nth i (drift_vec c logL) 0 /\
  nth i (drift_vec c logL) 0
  <= nth i (drift_worst c) 0 - (1 / 2) * (nth i (sigma c) 0) ^ 2 * h c /\
  nth i (drift_vec c logL) 0 <= nth i (drift_worst c) 0.
Proof.
  intros Hv Hb Hl Hi. assert (Hh := h_pos c Hv).
  assert (Hls : List.length (sigma c) = N c)
    by (destruct Hv as (_ & _ & _ & _ & _ & _ & Hls & _); exact Hls).
  rewrite drift_vec_entry, nth_drift_worst by assumption.
  set (S := vsum (map (fun j => DriftMatrix c i j * v_at c logL j)
                      (seq 0 (N c)))).
  assert (HS0 : 0 <= S).
  { unfold S. apply vsum_nonneg. rewrite Forall_map. apply Forall_forall.
    intros j Hj. apply in_seq in Hj.
    apply (drift_term_bounds c logL i j Hv Hb Hi). lia. }
  assert (HS1 : S <= (INR i + 1) * (nth i (sigma c) 0 * sigma_max c)).
  { rewrite <- (vsum_indicator _ (N c) i Hi). unfold S.
    apply vsum_map_le. intros j Hj. apply in_seq in Hj.
    apply (drift_term_bounds c logL i j Hv Hb Hi). lia. }
  assert (Hq : 0 <= (nth i (sigma c) 0) ^ 2) by (apply pow2_ge_0).
  assert (H1 : 0 <= h c * S) by (apply Rmult_le_pos; lra).
  assert (H2 : h c * S <= h c * ((INR i + 1) * (nth i (sigma c) 0 * sigma_max c)))
    by (apply Rmult_le_compat_l; lra).
  assert (H3 : 0 <= (nth i (sigma c) 0) ^ 2 * h c) by (apply Rmult_le_pos; lra).
  repeat split; lra.
Qed.

Lemma drift_within_worst_case_witness :
  - (1 / 2) * (nth 1 (sigma notebook_params) 0) ^ 2 * h notebook_params
  <= nth 1 (drift_vec notebook_params (map ln (L0 notebook_params))) 0 /\
  nth 1 (drift_vec notebook_params (map ln (L0 notebook_params))) 0
  <= nth 1 (drift_worst notebook_params) 0
     - (1 / 2) * (nth 1 (sigma notebook_params) 0) ^ 2 * h notebook_params /\
  nth 1 (drift_vec notebook_params (map ln (L0 notebook_params))) 0
  <= nth 1 (drift_worst notebook_params) 0.
Proof.
  apply drift_within_worst_case.
  - exact (proj1 notebook_valid).
  - cbn. lra.
  - reflexivity.
  - cbn. lia.
Defined.

(** ** The three result arrays *)

Lemma record_path_consistent (c : Params) (n p : nat) (e : PathEnd)
    (s : Store) :
  store_ok n s -> arrays_consistent c s ->
  arrays_consistent c (record_path c p e s).
Proof.
  intros (H1 & H2 & H3 & H4) Hc q. unfold record_path.
  destruct (knocked_out e); cbn [prices discount_sums payoffs]; [apply Hc|].
  destruct (Nat.eq_dec p q) as [<- | Hne].
  - destruct (Nat.lt_ge_cases p n) as [Hp|Hp].
    + rewrite !nth_set_at_same by lia. reflexivity.
    + rewrite !(nth_overflow (set_at _ _ _)) by (rewrite set_at_length; lia).
      ring.
  - rewrite !nth_set_at_other by exact Hne. apply Hc.
Qed.

Lemma paths_from_consistent (c : Params) (body : nat -> nat -> list R -> Step)
    (n : nat) :
  forall todo p s s',
  store_ok n s -> arrays_consistent c s ->
  paths_from c body todo p s = inr s' ->
  store_ok n s' /\ arrays_consistent c s'.
Proof.
  induction todo as [|todo IH]; intros p s s' Hok Hc H; cbn [paths_from] in H.
  - injection H as <-. split; assumption.
  - destruct (run_path c body p) as [[k e]|e]; [discriminate|].
    apply (IH (S p) (record_path c p e s) s').
    + now apply record_path_ok.
    + now apply (record_path_consistent c n).
    + exact H.
Qed.

Lemma init_store_consistent (c : Params) (n : nat) :
  arrays_consistent c (init_store n).
Proof.
  intros p. unfold init_store, zeros. cbn [prices discount_sums payoffs].
  rewrite !nth_repeat_0. ring.
Qed.

(** X24. After the first loop and again after the second, the three result
    arrays agree entry by entry: prices[p] = P0_T0 * discount_sums[p] *
    payoffs[p] for every path index p, for the paths that were knocked out
    as for the others (a knocked-out path leaves all three entries as they
    were). *)
Theorem result_arrays_consistent (c : Params) (U : matrix) (lbfgsb : Lbfgsb)
    (rnd1 rnd2 : Draws) (n_paths : nat) (s2 : Store) :
  second_run c U lbfgsb rnd1 rnd2 n_paths = inr s2 ->
  exists s1,
    first_run c U lbfgsb rnd1 n_paths = inr s1 /\
    arrays_consistent c s1 /\ arrays_consistent c s2 /\
    store_ok n_paths s1 /\ store_ok n_paths s2.
Proof.
  intros Hrun. unfold second_run in Hrun.
  destruct (first_run c U lbfgsb rnd1 n_paths) as [err|s1] eqn:H1;
    [discriminate|].
  exists s1. split; [reflexivity|].
  unfold first_run, mc_loop in H1. unfold mc_loop in Hrun.
  destruct (paths_from_consistent c _ n_paths _ _ _ _
              (init_store_ok n_paths) (init_store_consistent c n_paths) H1)
    as [Hok1 Hc1].
  destruct (paths_from_consistent c _ n_paths _ _ _ _ Hok1 Hc1 Hrun)
    as [Hok2 Hc2].
  split; [exact Hc1|]. split; [exact Hc2|]. split; [exact Hok1 | exact Hok2].
Qed.

Lemma result_arrays_consistent_witness :
  exists s1,
    first_run hot_params (U2 r_hot) lbfgsb_stay (all_up 2) 1 = inr s1 /\
    arrays_consistent hot_params s1 /\
    arrays_consistent hot_params
      (record_path hot_params 0 hot_end_second
         (record_path hot_params 0 hot_end_first (init_store 1))) /\
    store_ok 1 s1 /\
    store_ok 1 (record_path hot_params 0 hot_end_second
                  (record_path hot_params 0 hot_end_first (init_store 1))).
Proof.
  apply (result_arrays_consistent hot_params (U2 r_hot) lbfgsb_stay
           (all_up 2) (all_up 2) 1).
  exact hot_second_run.
Defined.

(** ** The drift applied to the state *)

Lemma nth_vadd (a b : list R) (i : nat) :
  (i < List.length a)%nat -> (i < List.length b)%nat ->
  nth i (vadd a b) 0 = nth i a 0 + nth i b 0.
Proof. intros Ha Hb. unfold vadd. now apply nth_zipWith. Qed.

Lemma nth_euler (c : Params) (U : matrix) (base logL x : list R) (i : nat) :
  List.length (sigma c) = N c -> List.length U = N c ->
  List.length base = N c -> (i < N c)%nat ->
  nth i (euler base (drift_vec c logL) (diffusion c U x)) 0
  = nth i base 0 + nth i (drift_vec c logL) 0 + nth i (diffusion c U x) 0.
Proof.
  intros Hs HU Hb Hi.
  assert (Hdv := drift_vec_length c logL Hs).
  assert (Hdf := diffusion_length c U x Hs HU).
  unfold euler. rewrite nth_vadd.
  - rewrite nth_vadd by lia. ring.
  - lia.
  - unfold vadd. rewrite zipWith_length. lia.
Qed.

(** C6. Whenever a step of a path leaves the path evolving, in the first
    loop as in the second, the new state has N entries and is, entry by
    entry, the state the increment is added to plus the drift plus the
    diffusion.  The increment is added to the state the step started from
    when that state passes the coarse or the fine check, and otherwise (in
    the boundary zone of the first loop) to that state pulled towards its
    projection.  Entry i of the drift is
    h * sum_j DriftMatrix[i][j] * v_j - 1/2 * sigma_i^2 * h with
    v_j = delta L_j / (1 + delta L_j) taken at the state the step started
    from, DriftMatrix being the lower triangle, diagonal included, of rho
    times the outer product of sigma. *)
Theorem drift_increment (c : Params) (U : matrix) (lbfgsb : Lbfgsb)
    (rnd : Draws) (p k : nat) (logL logL' : list R) :
  List.length (sigma c) = N c -> List.length logL = N c ->
  List.length U = N c -> shape_preserving lbfgsb ->
  step c U lbfgsb rnd p k logL = Continue logL' \/
  step_half c U lbfgsb rnd p k logL = Continue logL' ->
  exists base,
    ((coarse_safe c logL \/ fine_safe c logL) /\ base = logL \/
     exists logL_pi,
       ~ coarse_safe c logL /\ ~ fine_safe c logL /\
       project_to_barrier2 lbfgsb logL (delta c) (Rup c) = inr logL_pi /\
       base = pull c logL_pi logL) /\
    List.length logL' = N c /\
    forall i, (i < N c)%nat ->
      nth i (drift_vec c logL) 0
      = h c * vsum (map (fun j => DriftMatrix c i j * v_at c logL j)
                        (seq 0 (N c)))
        - (1 / 2) * (nth i (sigma c) 0) ^ 2 * h c /\
      nth i logL' 0
      = nth i base 0
        + (h c * vsum (map (fun j => DriftMatrix c i j * v_at c logL j)
                           (seq 0 (N c)))
           - (1 / 2) * (nth i (sigma c) 0) ^ 2 * h c)
        + nth i (diffusion c U (xi rnd p k)) 0.
Proof.
  intros Hs Hl HU Hsh Hstep.
  assert (Hfrom : exists base,
            ((coarse_safe c logL \/ fine_safe c logL) /\ base = logL \/
             exists logL_pi,
               ~ coarse_safe c logL /\ ~ fine_safe c logL /\
               project_to_barrier2 lbfgsb logL (delta c) (Rup c) = inr logL_pi /\
               base = pull c logL_pi logL) /\
            List.length base = N c /\
            logL' = euler base (drift_vec c logL) (diffusion c U (xi rnd p k))).
  { destruct Hstep as [H|H].
    - unfold step in H. cbv zeta in H. unfold coarse_safe, fine_safe.
      destruct (Rlt_dec _ _) as [Hc|Hc].
      { injection H as <-. exists logL. auto. }
      destruct (Rlt_dec _ _) as [Hf|Hf].
      { injection H as <-. exists logL. auto. }
      destruct (project_to_barrier2 lbfgsb logL (delta c) (Rup c))
        as [e|logL_pi] eqn:Hp; [discriminate|].
      destruct (Rlt_dec _ _) as [Hko|Hko]; [discriminate|].
      injection H as <-. exists (pull c logL_pi logL).
      split; [right; exists logL_pi; auto|]. split; [|reflexivity].
      rewrite pull_length; [exact Hl|].
      now apply (project2_length lbfgsb logL logL_pi (delta c) (Rup c)).
    - destruct (step_half_continue c U lbfgsb rnd p k logL logL' H)
        as (Hsafe & -> & _).
      exists logL. auto. }
  destruct Hfrom as (base & Hbase & Hlb & ->).
  exists base. split; [exact Hbase|]. split.
  - now apply euler_length.
  - intros i Hi.
    assert (Hd := drift_vec_entry c logL i Hs Hl Hi).
    split; [exact Hd|].
    rewrite nth_euler by assumption. now rewrite Hd.
Qed.

Lemma drift_increment_witness :
  exists base,
    ((coarse_safe warm_params hot_logL0 \/ fine_safe warm_params hot_logL0) /\
     base = hot_logL0 \/
     exists logL_pi,
       ~ coarse_safe warm_params hot_logL0 /\
       ~ fine_safe warm_params hot_logL0 /\
       project_to_barrier2 lbfgsb_fail hot_logL0 (delta warm_params)
                           (Rup warm_params) = inr logL_pi /\
       base = pull warm_params logL_pi hot_logL0) /\
    List.length (warm_next 1) = N warm_params /\
    forall i, (i < N warm_params)%nat ->
      nth i (drift_vec warm_params hot_logL0) 0
      = h warm_params
        * vsum (map (fun j => DriftMatrix warm_params i j
                              * v_at warm_params hot_logL0 j)
                    (seq 0 (N warm_params)))
        - (1 / 2) * (nth i (sigma warm_params) 0) ^ 2 * h warm_params /\
      nth i (warm_next 1) 0
      = nth i base 0
        + (h warm_params
           * vsum (map (fun j => DriftMatrix warm_params i j
                                 * v_at warm_params hot_logL0 j)
                       (seq 0 (N warm_params)))
           - (1 / 2) * (nth i (sigma warm_params) 0) ^ 2 * h warm_params)
        + nth i (diffusion warm_params (U2 r_warm)
                           (xi (all_up 2) 0%nat 0%nat)) 0.
Proof.
  apply (drift_increment warm_params (U2 r_warm) lbfgsb_fail (all_up 2) 0 0
           hot_logL0 (warm_next 1)).
  - reflexivity.
  - reflexivity.
  - reflexivity.
  - exact lbfgsb_fail_shape.
  - left. apply warm_step0. reflexivity.
Defined.

(** ** A state on the barrier in the boundary zone: [steep_params] *)





















